(** * FlowPipeAI: the flow execution engine (utils/flowEngine.ts)

    A shallow embedding of [executeFlow], [processBatch] and [processData]
    together with the data model of types.ts, and the properties of the
    engine stated over it; then the state updates of App.tsx that rewrite
    the node list between the passes.

    Modelling conventions.
    - A JavaScript string is a [string]: a sequence of code units.
    - A value stored in a result map ([any] in the source) is a string or an
      array of strings; these are the only values the engine itself builds.
    - [Record<string, T>] objects are finite maps [gmap string T]; this is
      what the object literals of the source are on keys that are not names
      of members of [Object.prototype], and the statements about
      [executeFlow] are made for graphs whose ids are such keys
      ([plain_graph]).
    - [number] parameters are integers ([Z]).
    - The [RegExp] engine of the platform is a parameter ([RegExpEngine]).
    - The segments the emitter tick generates from [Math.random] and the
      clock are a parameter of the tick.
    - Exceptions and non-termination are explicit: see [outcome]. *)

From Stdlib Require Import ZArith Ascii.
From stdpp Require Import gmap strings list fin_maps relations sorting pretty.

Local Open Scope Z_scope.

(** ** Outcomes of a computation *)

(** [Ok] is normal completion, [Throw] an exception that propagates to the
    caller, [Timeout] a loop that was still running when its fuel ran out. *)
Inductive outcome (A : Type) : Type :=
  | Ok (a : A)
  | Throw
  | Timeout.
Arguments Ok {A} a.
Arguments Throw {A}.
Arguments Timeout {A}.

Definition obind {A B} (m : outcome A) (k : A → outcome B) : outcome B :=
  match m with
  | Ok a => k a
  | Throw => Throw
  | Timeout => Timeout
  end.

Notation "x ←! m ; k" := (obind m (λ x, k))
  (at level 20, m at level 100, k at level 200, right associativity,
   format "x  ←!  m ;  '/' k").

(** [try { body } catch { handler }] *)
Definition try_catch {A} (body handler : outcome A) : outcome A :=
  match body with
  | Throw => handler
  | r => r
  end.

(** ** JavaScript strings *)

Module JsString.

(** [s.startsWith(p)] *)
Fixpoint startsWith (s p : string) : bool :=
  match p, s with
  | EmptyString, _ => true
  | String _ _, EmptyString => false
  | String a p', String b s' => bool_decide (a = b) && startsWith s' p'
  end.

(** [s.includes(p)] *)
Fixpoint includes (s p : string) : bool :=
  startsWith s p ||
  match s with
  | EmptyString => false
  | String _ s' => includes s' p
  end.

(** [s\[i\]], [None] standing for [undefined] *)
Fixpoint get (s : string) (i : nat) : option ascii :=
  match s, i with
  | EmptyString, _ => None
  | String c _, O => Some c
  | String _ s', S i' => get s' i'
  end.

(** [a.join(sep)] on an array of strings *)
Fixpoint join (sep : string) (a : list string) : string :=
  match a with
  | [] => ""
  | [x] => x
  | x :: a' => x +:+ sep +:+ join sep a'
  end.

(** [s.split("")]: the code units of [s], one string each *)
Fixpoint chars (s : string) : list string :=
  match s with
  | EmptyString => []
  | String c s' => String c "" :: chars s'
  end.

(** The scan of [s.split(sep)] for a non-empty [sep]: [cur] is the piece
    being collected, [skip] counts the code units of a separator that was
    just recognised and still has to be passed over. *)
Fixpoint split_scan (sep : string) (skip : nat) (cur s : string) : list string :=
  match s with
  | EmptyString => [cur]
  | String c s' =>
      match skip with
      | S k => split_scan sep k cur s'
      | O =>
          if startsWith s sep
          then cur :: split_scan sep (String.length sep - 1) "" s'
          else split_scan sep 0 (cur +:+ String c "") s'
      end
  end.

(** [s.split(sep)] with a string separator *)
Definition split (s sep : string) : list string :=
  match sep with
  | EmptyString => chars s
  | _ => split_scan sep 0 "" s
  end.

(** [s.split(/\r?\n/)] *)
Fixpoint splitLines_scan (cur s : string) : list string :=
  match s with
  | EmptyString => [cur]
  | String "013"%char (String "010"%char s'') => cur :: splitLines_scan "" s''
  | String "010"%char s' => cur :: splitLines_scan "" s'
  | String c s' => splitLines_scan (cur +:+ String c "") s'
  end.

Definition splitLines (s : string) : list string := splitLines_scan "" s.

(** A string is truthy exactly when it is not empty. *)
Definition truthy (s : string) : bool :=
  match s with EmptyString => false | _ => true end.

(** Case conversion of the letters a-z and A-Z; other code units are kept
    (the Unicode case tables are not modelled). *)
Definition upper_char (c : ascii) : ascii :=
  let n := nat_of_ascii c in
  if bool_decide (97 ≤ n ≤ 122)%nat then ascii_of_nat (n - 32) else c.
Definition lower_char (c : ascii) : ascii :=
  let n := nat_of_ascii c in
  if bool_decide (65 ≤ n ≤ 90)%nat then ascii_of_nat (n + 32) else c.
Fixpoint map_chars (f : ascii → ascii) (s : string) : string :=
  match s with
  | EmptyString => ""
  | String c s' => String (f c) (map_chars f s')
  end.
Definition toUpperCase := map_chars upper_char.
Definition toLowerCase := map_chars lower_char.

End JsString.

(** ** JavaScript arrays *)

Module JsArray.

(** [a.slice(start, end)], with negative indices counted from the end *)
Definition clamp_index (len i : Z) : Z :=
  if bool_decide (i < 0) then Z.max (len + i) 0 else Z.min i len.

Definition slice {A} (a : list A) (start end_ : Z) : list A :=
  let len := Z.of_nat (length a) in
  let k := clamp_index len start in
  let final := clamp_index len end_ in
  take (Z.to_nat (final - k)) (drop (Z.to_nat k) a).

(** Insertion of the elements of [a] into a [Set], whose iteration order
    is insertion order: [seen] is the content so far. *)
Fixpoint set_add_all (seen a : list string) : list string :=
  match a with
  | [] => seen
  | x :: a' =>
      if bool_decide (x ∈ seen) then set_add_all seen a'
      else set_add_all (seen ++ [x]) a'
  end.

(** [Array.from(new Set(a))] *)
Definition uniq (a : list string) : list string := set_add_all [] a.

(** [\[...a\].sort()]: the default order compares code units *)
Definition sort (a : list string) : list string := merge_sort String.le a.

End JsArray.

(** ** Data model (types.ts) *)

Inductive NodeType :=
  | INPUT | PROCESS | OUTPUT | EMITTER | BRANCH | MERGE | BATCH | SEQUENCE.

Inductive ProcessType :=
  | SPLIT | GREP | REPLACE | MAP | SORT | UNIQ | JOIN | COUNT | UPPER | LOWER.

Global Instance NodeType_eq_dec : EqDecision NodeType.
Proof. solve_decision. Defined.
Global Instance ProcessType_eq_dec : EqDecision ProcessType.
Proof. solve_decision. Defined.

(** The values of the result maps. *)
Inductive value :=
  | VStr (s : string)
  | VArr (a : list string).

Global Instance value_eq_dec : EqDecision value.
Proof. solve_decision. Defined.

Record Params := {
  pattern : option string;
  replacement : option string;
  delimiter : option string;
  fieldIndex : option Z;
  batchSize : option Z }.

Record NodeData := {
  label : string;
  type : NodeType;
  processType : option ProcessType;
  params : option Params;
  isActive : option bool;
  currentValue : option value;
  isResult : option bool }.

(** Of the fields of a React Flow node and edge, the ones the engine reads. *)
Record AppNode := { id : string; data : NodeData }.
Record AppEdge := { edge_id : string; source : string; target : string }.

(** [Array.isArray(v)] *)
Definition isArray (v : value) : bool :=
  match v with VArr _ => true | VStr _ => false end.

(** [String(v)]: an array prints as its elements joined by commas. *)
Definition String_of (v : value) : string :=
  match v with
  | VStr s => s
  | VArr a => JsString.join "," a
  end.

(** [o || d] for an optional string: [undefined] and [""] are falsy. *)
Definition str_or (o : option string) (d : string) : string :=
  match o with
  | Some s => if JsString.truthy s then s else d
  | None => d
  end.

(** [o || d] for an optional number: [undefined] and [0] are falsy. *)
Definition num_or (o : option Z) (d : Z) : Z :=
  match o with
  | Some n => if bool_decide (n = 0) then d else n
  | None => d
  end.

(** [params?.f] *)
Definition param {A} (f : Params → option A) (p : option Params) : option A :=
  p ≫= f.

(** ** The regular-expression engine of the platform *)

(** [RegExp_new p flags] is [new RegExp(p, flags)], [None] when the
    constructor throws a [SyntaxError]; [regexp_test r l] is [r.test(l)] and
    [regexp_replace r l s] is [l.replace(r, s)]. *)
Record RegExpEngine := {
  regexp : Type;
  RegExp_new : string → string → option regexp;
  regexp_test : regexp → string → bool;
  regexp_replace : regexp → string → string → string }.

Section Engine.

Context (RE : RegExpEngine).

Definition new_RegExp (p flags : string) : outcome (regexp RE) :=
  match RegExp_new RE p flags with
  | Some r => Ok r
  | None => Throw
  end.

(** ** processBatch *)

Definition batch_line (chunk : list string) : string :=
  "[Batch of " +:+ pretty (length chunk) +:+ "]: " +:+ JsString.join ", " chunk.

(** The [for] loop of [processBatch], from the state [(i, batches)]. *)
Fixpoint processBatch_for (fuel : nat) (lines : list string) (batchSize i : Z)
    (batches : list string) : outcome (list string) :=
  if bool_decide (i < Z.of_nat (length lines)) then
    match fuel with
    | O => Timeout
    | S fuel' =>
        let chunk := JsArray.slice lines i (i + batchSize) in
        processBatch_for fuel' lines batchSize (i + batchSize)
          (batches ++ [batch_line chunk])
    end
  else Ok batches.

Definition batch_lines (input : value) : list string :=
  match input with
  | VStr s => filter (λ l, JsString.truthy l) (JsString.splitLines s)
  | VArr a => a
  end.

(** The loop gets as many iterations as there are lines, which is all it
    needs whenever it ends (see [processBatch_for_enough] and
    [processBatch_for_diverges]). *)
Definition processBatch (input : value) (batchSize : Z) : outcome (list string) :=
  let lines := batch_lines input in
  processBatch_for (length lines) lines batchSize 0 [].

(** ** processData *)

Definition data_lines (input : value) : list string :=
  match input with
  | VStr s => JsString.splitLines s
  | VArr a => a
  end.

(** [a\[i\]] for a numeric index *)
Definition array_get (a : list string) (i : Z) : option string :=
  if bool_decide (i < 0) then None else a !! Z.to_nat i.

Definition awk_line (fieldIdx : Z) (delim : string) (l : string) : string :=
  let parts := filter (λ p, JsString.truthy p) (JsString.split l delim) in
  str_or (array_get parts fieldIdx) "".

Definition count_summary (lines : list string) : string :=
  "Lines: " +:+ pretty (length lines) +:+ String "010"%char "Characters: "
  +:+ pretty (String.length (JsString.join "" lines)).

Definition processData (input : value) (config : NodeData) : outcome value :=
  let params := params config in
  let lines := data_lines input in
  match processType config with
  | Some SPLIT =>
      match input with
      | VStr s => Ok (VArr (JsString.split s (str_or (param delimiter params) ",")))
      | VArr _ => Ok (VArr lines)
      end
  | Some GREP =>
      let pat := str_or (param pattern params) "" in
      try_catch
        (regex ←! new_RegExp pat "i";
         Ok (VArr (filter (λ l, regexp_test RE regex l) lines)))
        (Ok (VArr (filter (λ l, JsString.includes l pat) lines)))
  | Some REPLACE =>
      let search := str_or (param pattern params) "" in
      let replace := str_or (param replacement params) "" in
      try_catch
        (regex ←! new_RegExp search "g";
         Ok (VArr (map (λ l, regexp_replace RE regex l replace) lines)))
        (Ok (VArr (map (λ l, JsString.join replace (JsString.split l search)) lines)))
  | Some MAP =>
      let fieldIdx := num_or (param fieldIndex params) 1 - 1 in
      let delim := str_or (param delimiter params) " " in
      Ok (VArr (map (awk_line fieldIdx delim) lines))
  | Some SORT => Ok (VArr (JsArray.sort lines))
  | Some UNIQ => Ok (VArr (JsArray.uniq lines))
  | Some JOIN =>
      Ok (VStr (JsString.join (str_or (param delimiter params) (String "010"%char "")) lines))
  | Some COUNT => Ok (VStr (count_summary lines))
  | Some UPPER => Ok (VArr (map JsString.toUpperCase lines))
  | Some LOWER => Ok (VArr (map JsString.toLowerCase lines))
  | None => Ok (VArr lines)
  end.

End Engine.

(** ** executeFlow *)

Record FlowExecutionResult := {
  nodeResults : gmap string value;
  edgeResults : gmap string (option value) }.

(** The objects [executeFlow] works on: its three arguments, which belong to
    the caller, and the objects it creates for itself.  An entry of
    [s_edgeResults] holding [None] is a key whose value is [undefined]. *)
Record Store := mkStore {
  s_nodes : list AppNode;
  s_edges : list AppEdge;
  s_prevNodeResults : gmap string value;
  s_nodeResults : gmap string value;
  s_edgeResults : gmap string (option value);
  s_adjacency : gmap string (list string);
  s_inDegree : gmap string Z;
  s_queue : list string }.

Definition set_nodeResults (f : gmap string value → gmap string value) (st : Store) : Store :=
  mkStore (s_nodes st) (s_edges st) (s_prevNodeResults st) (f (s_nodeResults st))
    (s_edgeResults st) (s_adjacency st) (s_inDegree st) (s_queue st).
Definition set_edgeResults (f : gmap string (option value) → gmap string (option value))
    (st : Store) : Store :=
  mkStore (s_nodes st) (s_edges st) (s_prevNodeResults st) (s_nodeResults st)
    (f (s_edgeResults st)) (s_adjacency st) (s_inDegree st) (s_queue st).
Definition set_adjacency (f : gmap string (list string) → gmap string (list string))
    (st : Store) : Store :=
  mkStore (s_nodes st) (s_edges st) (s_prevNodeResults st) (s_nodeResults st)
    (s_edgeResults st) (f (s_adjacency st)) (s_inDegree st) (s_queue st).
Definition set_inDegree (f : gmap string Z → gmap string Z) (st : Store) : Store :=
  mkStore (s_nodes st) (s_edges st) (s_prevNodeResults st) (s_nodeResults st)
    (s_edgeResults st) (s_adjacency st) (f (s_inDegree st)) (s_queue st).
Definition set_queue (f : list string → list string) (st : Store) : Store :=
  mkStore (s_nodes st) (s_edges st) (s_prevNodeResults st) (s_nodeResults st)
    (s_edgeResults st) (s_adjacency st) (s_inDegree st) (f (s_queue st)).

(** [t === NodeType.INPUT || t === NodeType.EMITTER] *)
Definition isSource (t : NodeType) : bool :=
  match t with INPUT | EMITTER => true | _ => false end.

(** The value a source node is seeded with. *)
Definition seed (node : AppNode) : value :=
  VStr (str_or (param pattern (params (data node))) "").

(** Body of [nodes.forEach].  The three assignments create keys for every
    node id but [__proto__], which [plain_graph] excludes. *)
Definition init_node (st : Store) (node : AppNode) : Store :=
  let st := set_adjacency <[id node := []]> st in
  let st := set_inDegree <[id node := 0]> st in
  if isSource (type (data node))
  then set_nodeResults <[id node := seed node]> st
  else st.

(** Body of [edges.forEach].  For a source that is a [plain_key],
    [adjacency\[edge.source\]] is an array or [undefined]; for a source that
    is no node and names a member of [Object.prototype] it is that member
    and [push] raises: a case that [plain_graph] excludes and that is not
    modelled. *)
Definition init_edge (st : Store) (edge : AppEdge) : Store :=
  let st :=
    match s_adjacency st !! source edge with
    | Some targets => set_adjacency <[source edge := targets ++ [target edge]]> st
    | None => st
    end in
  set_inDegree <[target edge := default 0 (s_inDegree st !! target edge) + 1]> st.

(** [nodes.filter(n => inDegree\[n.id\] === 0).map(n => n.id)] *)
Definition initial_queue (st : Store) : list string :=
  id <$> filter (λ n, s_inDegree st !! id n = Some 0) (s_nodes st).

(** [a.flat()]: the elements of the arrays in [a], elements that are not
    arrays staying in place. *)
Definition flat (a : list value) : list string :=
  concat (map (λ v, match v with VArr x => x | VStr s => [s] end) a).

(** The aggregation of the inputs of a node, [None] standing for [null]. *)
Definition fan_in (inputs : list value) : option value :=
  match inputs with
  | [] => None
  | [i] => Some i
  | _ =>
      if forallb isArray inputs
      then Some (VArr (flat inputs))
      else Some (VArr (flat (map (λ i, if isArray i then i else VArr [String_of i]) inputs)))
  end.

(** [incomingEdges.map(e => nodeResults\[e.source\]).filter(d => d !== undefined)],
    for sources that are [plain_key]s: a source without entry gives
    [undefined] and is left out (a source named like a member of
    [Object.prototype] would give that member). *)
Definition resolved_inputs (results : gmap string value) (incoming : list AppEdge) : list value :=
  omap (λ e, results !! source e) incoming.

Definition incoming_edges (edges : list AppEdge) (nodeId : string) : list AppEdge :=
  filter (λ e, target e = nodeId) edges.

(** [prevNodeResults\[id\] || ""], for an id that is a [plain_key]: an
    absent entry gives [undefined] (an id named like a member of
    [Object.prototype] would give that member). *)
Definition prev_output (prev : gmap string value) (nodeId : string) : value :=
  match prev !! nodeId with
  | Some (VStr s) => VStr (str_or (Some s) "")
  | Some (VArr a) => VArr a
  | None => VStr ""
  end.

(** [v.length] *)
Definition value_length (v : value) : nat :=
  match v with
  | VStr s => String.length s
  | VArr a => length a
  end.

(** The SEQUENCE branch: the new progress of the matcher. *)
Definition sequence_step (targetPattern : string) (prevOutput inputData : value) : value :=
  if bool_decide (value_length prevOutput < String.length targetPattern)%nat then
    let nextCharNeeded :=
      match JsString.get targetPattern (value_length prevOutput) with
      | Some c => String c ""
      | None => "undefined"
      end in
    let inputStr :=
      match inputData with
      | VArr a => JsString.join "" a
      | VStr s => s
      end in
    if JsString.includes inputStr nextCharNeeded
    then VStr (String_of prevOutput +:+ nextCharNeeded)
    else prevOutput
  else prevOutput.

Section Flow.

Context (RE : RegExpEngine).

(** The dispatch on the node type, for an input that is present. *)
Definition process_node (prev : gmap string value) (node : AppNode) (inputData : value)
    : outcome value :=
  let d := data node in
  match type d with
  | PROCESS | BRANCH =>
      let config :=
        {| label := label d; type := type d;
           processType := Some (default GREP (processType d));
           params := params d; isActive := isActive d;
           currentValue := currentValue d; isResult := isResult d |} in
      processData RE inputData config
  | BATCH =>
      batches ←! processBatch inputData (num_or (param batchSize (params d)) 3);
      Ok (VArr batches)
  | MERGE => Ok inputData
  | SEQUENCE =>
      Ok (sequence_step (str_or (param pattern (params d)) "")
            (prev_output prev (id node)) inputData)
  | OUTPUT => Ok inputData
  | INPUT | EMITTER => Ok inputData
  end.

(** Body of [adjacency\[nodeId\].forEach]. *)
Definition trigger (st : Store) (neighborId : string) : Store :=
  let st := set_inDegree (alter (λ n, n - 1) neighborId) st in
  if bool_decide (s_inDegree st !! neighborId = Some 0)
  then set_queue (λ q, q ++ [neighborId]) st
  else st.

(** The input of the dequeued node, and the recording of the edge values. *)
Definition gather (st : Store) (node : AppNode) : option value * Store :=
  let incomingEdges := incoming_edges (s_edges st) (id node) in
  if bool_decide (0 < length incomingEdges)%nat then
    let inputs := resolved_inputs (s_nodeResults st) incomingEdges in
    (fan_in inputs,
     foldl (λ st e, set_edgeResults <[edge_id e := s_nodeResults st !! source e]> st)
       st incomingEdges)
  else if isSource (type (data node)) then (s_nodeResults st !! id node, st)
  else (None, st).

(** One iteration of the [while] loop, for a queue that is not empty. *)
Definition step (st : Store) : outcome Store :=
  match s_queue st with
  | [] => Ok st
  | nodeId :: _ =>
      let st := set_queue (drop 1) st in
      match List.find (λ n, bool_decide (id n = nodeId)) (s_nodes st) with
      | None => Ok st
      | Some node =>
          let '(inputData, st) := gather st node in
          st ←! match inputData with
                | Some input =>
                    out ←! process_node (s_prevNodeResults st) node input;
                    Ok (set_nodeResults <[id node := out]> st)
                | None => Ok st
                end;
          Ok match s_adjacency st !! nodeId with
             | Some neighbors => foldl trigger st neighbors
             | None => st
             end
      end
  end.

(** The [while (queue.length > 0)] loop. *)
Fixpoint kahn (fuel : nat) (st : Store) : outcome Store :=
  match s_queue st with
  | [] => Ok st
  | _ :: _ =>
      match fuel with
      | O => Timeout
      | S fuel' => st' ←! step st; kahn fuel' st'
      end
  end.

(** The store when the loop is entered. *)
Definition setup (nodes : list AppNode) (edges : list AppEdge)
    (prevNodeResults : gmap string value) : Store :=
  let st := mkStore nodes edges prevNodeResults ∅ ∅ ∅ ∅ [] in
  let st := foldl init_node st (s_nodes st) in
  let st := foldl init_edge st (s_edges st) in
  set_queue (λ _, initial_queue st) st.

(** The whole run, on the store.  The queue loop gets one iteration per node
    and per edge, which it never exceeds (see [kahn_total] and
    [setup_iterations]). *)
Definition executeFlow_store (nodes : list AppNode) (edges : list AppEdge)
    (prevNodeResults : gmap string value) : outcome Store :=
  kahn (length nodes + length edges) (setup nodes edges prevNodeResults).

Definition executeFlow (nodes : list AppNode) (edges : list AppEdge)
    (prevNodeResults : gmap string value) : outcome FlowExecutionResult :=
  st ←! executeFlow_store nodes edges prevNodeResults;
  Ok {| nodeResults := s_nodeResults st; edgeResults := s_edgeResults st |}.

End Flow.

(** ** A regular-expression engine to run examples with *)

(** The engine below stands in for the platform's on plain patterns: a
    pattern without syntax characters is accepted and matches itself (with
    ASCII case folding under the [i] flag); every other pattern is
    rejected.  Replacement strings are taken literally. *)
Definition syntax_char (c : ascii) : bool :=
  bool_decide (c ∈ ["^"; "$"; "\"; "."; "*"; "+"; "?"; "("; ")"; "["; "]"; "{"; "}"; "|"]%char).

Fixpoint plain_pattern (p : string) : bool :=
  match p with
  | EmptyString => true
  | String c p' => negb (syntax_char c) && plain_pattern p'
  end.

Definition plain_test (r : string * string) (l : string) : bool :=
  if JsString.includes r.2 "i"
  then JsString.includes (JsString.toLowerCase l) (JsString.toLowerCase r.1)
  else JsString.includes l r.1.

Definition plain_replace (r : string * string) (l s : string) : string :=
  match r.1 with
  | EmptyString => s +:+ JsString.join "" (map (λ c, c +:+ s) (JsString.chars l))
  | _ => JsString.join s (JsString.split l r.1)
  end.

Definition plain_engine : RegExpEngine := {|
  regexp := string * string;
  RegExp_new p flags := if plain_pattern p then Some (p, flags) else None;
  regexp_test := plain_test;
  regexp_replace := plain_replace |}.

(** Nodes, parameters and edges for the examples. *)
Definition no_params : Params :=
  {| pattern := None; replacement := None; delimiter := None;
     fieldIndex := None; batchSize := None |}.
Definition with_pattern (p : string) : Params :=
  {| pattern := Some p; replacement := None; delimiter := None;
     fieldIndex := None; batchSize := None |}.
Definition with_delimiter (d : string) : Params :=
  {| pattern := None; replacement := None; delimiter := Some d;
     fieldIndex := None; batchSize := None |}.
Definition with_field (i : Z) : Params :=
  {| pattern := None; replacement := None; delimiter := None;
     fieldIndex := Some i; batchSize := None |}.
Definition with_batchSize (n : Z) : Params :=
  {| pattern := None; replacement := None; delimiter := None;
     fieldIndex := None; batchSize := Some n |}.
Definition mkData (t : NodeType) (pt : option ProcessType) (p : option Params) : NodeData :=
  {| label := ""; type := t; processType := pt; params := p;
     isActive := None; currentValue := None; isResult := None |}.
Definition mkNode (i : string) (t : NodeType) (pt : option ProcessType)
    (p : option Params) : AppNode :=
  {| id := i; data := mkData t pt p |}.
Definition mkEdge (i s t : string) : AppEdge :=
  {| edge_id := i; source := s; target := t |}.

(** ** Vocabulary of the statements *)

(** *** Strings *)

(** An occurrence of [d] begins inside [l] when [l] is followed by [d]:
    either within [l], or running over its end into the [d] that follows. *)
Fixpoint overlaps (l d : string) : bool :=
  match l with
  | EmptyString => false
  | String _ l' => JsString.startsWith (l +:+ d) d || overlaps l' d
  end.

(** No occurrence of [d] begins inside a line of [lines]: not within the
    line and, for a line that a delimiter follows (every line but the last),
    not running over its end into that delimiter. *)
Fixpoint delimiter_free (d : string) (lines : list string) : Prop :=
  match lines with
  | [] => True
  | l :: lines' =>
      match lines' with
      | [] => JsString.includes l d = false
      | _ :: _ => overlaps l d = false ∧ delimiter_free d lines'
      end
  end.

(** Replacement of the occurrences of a non-empty [search] in [s], left to
    right and without overlap; [skip] counts the code units of an occurrence
    still to be passed over. *)
Fixpoint replace_scan (search repl : string) (skip : nat) (s : string) : string :=
  match s with
  | EmptyString => ""
  | String c s' =>
      match skip with
      | S k => replace_scan search repl k s'
      | O =>
          if JsString.startsWith s search
          then repl +:+ replace_scan search repl (String.length search - 1) s'
          else String c (replace_scan search repl 0 s')
      end
  end.

Definition replace_all_literal (s search repl : string) : string :=
  replace_scan search repl 0 s.

(** The field of a line as the description of the extract-field operation
    words it: fragments between delimiters, the empty ones dropped, numbered
    from 1. *)
Definition fields (l delim : string) : list string :=
  filter (λ p, p ≠ "") (JsString.split l delim).

Definition field_at (l delim : string) (index : Z) : string :=
  if bool_decide (1 ≤ index)
  then default "" (fields l delim !! Z.to_nat (index - 1))
  else "".

(** *** Fan-in *)

(** A value as a sequence: a sequence is itself, anything else the
    one-element sequence of its string form. *)
Definition as_sequence (v : value) : list string :=
  match v with
  | VArr a => a
  | VStr s => [String_of (VStr s)]
  end.

(** *** Join followed by split *)

(** A join node feeding a split node, both configured by [cj] and [cs]. *)
Definition join_then_split (RE : RegExpEngine) (cj cs : NodeData) (lines : list string)
    : outcome value :=
  joined ←! processData RE (VArr lines) cj;
  processData RE joined cs.

Definition join_config (d : string) : NodeData :=
  mkData PROCESS (Some JOIN) (Some (with_delimiter d)).
Definition split_config (d : string) : NodeData :=
  mkData PROCESS (Some SPLIT) (Some (with_delimiter d)).

(** *** Example stores *)


(** *** The queue loop *)

(** The entries of [inDegree] that are positive, and the bound on the
    number of iterations still to come. *)
Definition positive_entries (inDegree : gmap string Z) : nat :=
  size (filter (λ kv : string * Z, 0 < kv.2) inDegree).

Definition iterations_left (st : Store) : nat :=
  (length (s_queue st) + positive_entries (s_inDegree st))%nat.

(** A BATCH node whose batch size lets the loop of [processBatch] advance. *)
Definition batch_ok (node : AppNode) : Prop :=
  type (data node) = BATCH → 0 < num_or (param batchSize (params (data node))) 3.

Global Instance batch_ok_dec (node : AppNode) : Decision (batch_ok node).
Proof. unfold batch_ok. apply _. Defined.

(** *** Graphs *)

Definition node_ids (nodes : list AppNode) : list string := id <$> nodes.

(** The property names every object literal inherits from
    [Object.prototype].  The engine keeps its maps in object literals:
    reading an absent key of one of these names gives the inherited member
    instead of [undefined], and assigning to [__proto__] creates no key.
    The finite maps of the embedding stand for the object literals on the
    keys that are not of these names. *)
Definition prototype_members : list string :=
  ["constructor"; "__defineGetter__"; "__defineSetter__"; "hasOwnProperty";
   "__lookupGetter__"; "__lookupSetter__"; "isPrototypeOf"; "propertyIsEnumerable";
   "toString"; "valueOf"; "__proto__"; "toLocaleString"].

Definition plain_key (k : string) : Prop := k ∉ prototype_members.

(** No id of the graph (of a node, of an edge, of an end of an edge) is the
    name of a member of [Object.prototype]. *)
Definition plain_graph (nodes : list AppNode) (edges : list AppEdge) : Prop :=
  Forall (λ n, plain_key (id n)) nodes
  ∧ Forall (λ e, plain_key (edge_id e) ∧ plain_key (source e) ∧ plain_key (target e)) edges.

Global Instance plain_graph_dec nodes edges : Decision (plain_graph nodes edges).
Proof. unfold plain_graph, plain_key. apply _. Defined.

(** There is an edge from [a] to [b]. *)
Definition edge_rel (edges : list AppEdge) (a b : string) : Prop :=
  ∃ e, e ∈ edges ∧ source e = a ∧ target e = b.

(** No directed cycle. *)
Definition acyclic (edges : list AppEdge) : Prop :=
  ∀ a, ¬ tc (edge_rel edges) a a.

(** Node ids are unique and every edge joins two nodes. *)
Definition well_formed (nodes : list AppNode) (edges : list AppEdge) : Prop :=
  NoDup (node_ids nodes)
  ∧ ∀ e, e ∈ edges → source e ∈ node_ids nodes ∧ target e ∈ node_ids nodes.

(** [n] has no incoming edge. *)
Definition zero_in_degree (edges : list AppEdge) (n : string) : Prop :=
  ∀ e, e ∈ edges → target e ≠ n.

(** [n] is reached, along zero or more edges, from a node without
    incoming edge. *)
Definition reachable_from_root (nodes : list AppNode) (edges : list AppEdge)
    (n : string) : Prop :=
  ∃ r, r ∈ node_ids nodes ∧ zero_in_degree edges r ∧ rtc (edge_rel edges) r n.

(** [n] is reached, along zero or more edges, from a Source node. *)
Definition reachable_from_source (nodes : list AppNode) (edges : list AppEdge)
    (n : string) : Prop :=
  ∃ s, s ∈ nodes ∧ isSource (type (data s)) = true ∧ rtc (edge_rel edges) (id s) n.

(** The upstream values of a node in a result map: going through the edges
    in their order, the output of the source of every edge that leads to
    the node, when that source has one. *)
Fixpoint upstream (edges : list AppEdge) (results : gmap string value)
    (nodeId : string) : list value :=
  match edges with
  | [] => []
  | e :: edges' =>
      if decide (target e = nodeId) then
        match results !! source e with
        | Some v => v :: upstream edges' results nodeId
        | None => upstream edges' results nodeId
        end
      else upstream edges' results nodeId
  end.

(** *** Example graphs *)

(** A source feeding a BATCH node whose batch size is negative. *)
Definition negative_batch_nodes : list AppNode :=
  [mkNode "1" INPUT None (Some (with_pattern "a"));
   mkNode "2" BATCH None (Some (with_batchSize (-1)))].
Definition negative_batch_edges : list AppEdge := [mkEdge "e1-2" "1" "2"].

(** A source feeding a sink, and an edge into the sink from a node that
    does not exist. *)
Definition dangling_nodes : list AppNode :=
  [mkNode "A" INPUT None (Some (with_pattern "x")); mkNode "B" OUTPUT None None].
Definition dangling_edges : list AppEdge :=
  [mkEdge "eA-B" "A" "B"; mkEdge "eG-B" "ghost" "B"].

(** The targets of the edges leaving [n], in edge order. *)
Definition out_targets (edges : list AppEdge) (n : string) : list string :=
  target <$> filter (λ e, source e = n) edges.

(** The edges into [n] whose source has not been dequeued yet. *)
Definition pending (edges : list AppEdge) (done : gset string) (n : string)
    : list AppEdge :=
  filter (λ e, target e = n ∧ source e ∉ done) edges.

(** The equation a result map satisfies at a node: its entry is what the
    node makes of the aggregated upstream values; without any, it is the
    seed of a source and nothing for another node. *)
Definition node_equation (RE : RegExpEngine) (edges : list AppEdge)
    (prev results : gmap string value) (node : AppNode) : Prop :=
  match fan_in (upstream edges results (id node)) with
  | Some input =>
      ∃ out, process_node RE prev node input = Ok out ∧ results !! id node = Some out
  | None =>
      results !! id node = if isSource (type (data node)) then Some (seed node) else None
  end.

(** The invariant of the queue loop on a well-formed graph; [done] is the
    set of the nodes dequeued so far. *)
Record kahn_inv (RE : RegExpEngine) (nodes : list AppNode) (edges : list AppEdge)
    (prev : gmap string value) (done : gset string) (st : Store) : Prop := {
  inv_nodes : s_nodes st = nodes;
  inv_edges : s_edges st = edges;
  inv_prev : s_prevNodeResults st = prev;
  inv_adjacency : ∀ n,
    s_adjacency st !! n
    = if decide (n ∈ node_ids nodes) then Some (out_targets edges n) else None;
  inv_inDegree : ∀ n, n ∈ node_ids nodes →
    s_inDegree st !! n = Some (Z.of_nat (length (pending edges done n)));
  inv_queue_NoDup : NoDup (s_queue st);
  inv_queue : ∀ n,
    (n ∈ s_queue st ↔ n ∈ node_ids nodes ∧ (n ∉ done) ∧ s_inDegree st !! n = Some 0);
  inv_done_ids : ∀ n, n ∈ done → n ∈ node_ids nodes;
  inv_done_preds : ∀ e, e ∈ edges → target e ∈ done → source e ∈ done;
  inv_results_ids : ∀ n, is_Some (s_nodeResults st !! n) → n ∈ node_ids nodes;
  inv_results : ∀ node, node ∈ nodes →
    if decide (id node ∈ done)
    then node_equation RE edges prev (s_nodeResults st) node
    else s_nodeResults st !! id node
         = if isSource (type (data node)) then Some (seed node) else None }.

(** A transform without upstream, feeding a sink. *)
Definition unfed_nodes : list AppNode :=
  [mkNode "p" PROCESS (Some UPPER) None; mkNode "o" OUTPUT None None].
Definition unfed_edges : list AppEdge := [mkEdge "ep-o" "p" "o"].

(** A source feeding a transform and, together with it, a merge node. *)
Definition diamond_nodes : list AppNode :=
  [mkNode "1" INPUT None (Some (with_pattern "b a"));
   mkNode "2" PROCESS (Some UPPER) None;
   mkNode "3" MERGE None None;
   mkNode "4" BATCH None None].
Definition diamond_edges : list AppEdge :=
  [mkEdge "e1-2" "1" "2"; mkEdge "e1-3" "1" "3"; mkEdge "e2-3" "2" "3"].
Definition diamond_rank (n : string) : nat :=
  if bool_decide (n = "1") then 0 else if bool_decide (n = "2") then 1 else 2.

(** A source fed by a transform that has no input. *)
Definition unfed_source_nodes : list AppNode :=
  [mkNode "P" PROCESS None None; mkNode "S" INPUT None (Some (with_pattern "x"))].
Definition unfed_source_edges : list AppEdge := [mkEdge "eP-S" "P" "S"].

(** Two sources feeding each other. *)
Definition cycle_nodes : list AppNode :=
  [mkNode "A" INPUT None (Some (with_pattern "a"));
   mkNode "B" INPUT None (Some (with_pattern "b"))].
Definition cycle_edges : list AppEdge := [mkEdge "eA-B" "A" "B"; mkEdge "eB-A" "B" "A"].

(** A source fed by another source. *)
Definition chained_source_nodes : list AppNode :=
  [mkNode "A" EMITTER None (Some (with_pattern "a"));
   mkNode "B" INPUT None (Some (with_pattern "b"))].
Definition chained_source_edges : list AppEdge := [mkEdge "eA-B" "A" "B"].
Definition chained_source_rank (n : string) : nat :=
  if bool_decide (n = "A") then 0 else 1.

(** An emitter feeding a sequence matcher. *)
Definition matcher_nodes (buffer target : string) : list AppNode :=
  [mkNode "1" EMITTER None (Some (with_pattern buffer));
   mkNode "2" SEQUENCE None (Some (with_pattern target))].
Definition matcher_edges : list AppEdge := [mkEdge "e1-2" "1" "2"].

(** A cycle with a source on it, an edge from a node that does not exist,
    an edge to a node that does not exist, and two nodes sharing an id. *)
Definition tangled_nodes : list AppNode :=
  [mkNode "A" INPUT None (Some (with_pattern "a"));
   mkNode "B" MERGE None None;
   mkNode "B" BATCH None (Some (with_batchSize 2));
   mkNode "C" PROCESS (Some SORT) None].
Definition tangled_edges : list AppEdge :=
  [mkEdge "e1" "A" "B"; mkEdge "e2" "B" "A"; mkEdge "e3" "ghost" "C";
   mkEdge "e4" "A" "nowhere"].

(** [n] lies on a directed cycle or is reached from a node that does. *)
Definition behind_cycle (edges : list AppEdge) (n : string) : Prop :=
  ∃ c, tc (edge_rel edges) c c ∧ rtc (edge_rel edges) c n.

(** The configuration [executeFlow] hands to [processData]: the data of the
    node, with the filter operation when none is selected. *)
Definition effective_config (d : NodeData) : NodeData :=
  {| label := label d; type := type d;
     processType := Some (default GREP (processType d));
     params := params d; isActive := isActive d;
     currentValue := currentValue d; isResult := isResult d |}.

(** *** The transform library *)

(** The first occurrence of every line, in order. *)
Fixpoint dedupe (l : list string) : list string :=
  match l with
  | [] => []
  | x :: l' => x :: filter (λ y, y ≠ x) (dedupe l')
  end.

(** A split node feeding a join node. *)
Definition split_then_join (RE : RegExpEngine) (cs cj : NodeData) (s : string)
    : outcome value :=
  parts ←! processData RE (VStr s) cs;
  processData RE parts cj.

Definition CRLF : string := String "013"%char (String "010"%char "").
Definition LF : string := String "010"%char "".

(** Consecutive groups of [n] lines, the last one possibly shorter; [fuel]
    bounds the number of groups. *)
Fixpoint chunks_of (fuel n : nat) (l : list string) : list (list string) :=
  match fuel with
  | O => []
  | S fuel' =>
      match l with
      | [] => []
      | _ :: _ => take n l :: chunks_of fuel' n (drop n l)
      end
  end.

(** *** The caller (App.tsx) *)

(** The effect that runs the engine: one pass on the current nodes and
    edges with the content of [prevExecutionResultRef]; the results are
    shown, and the node outputs become the content of the reference. *)
Definition run_pass (RE : RegExpEngine) (nodes : list AppNode) (edges : list AppEdge)
    (prevRef : gmap string value) : outcome (FlowExecutionResult * gmap string value) :=
  results ←! executeFlow RE nodes edges prevRef;
  Ok (results, nodeResults results).

(** The buffer the sequence matcher scans. *)
Definition input_buffer (inputData : value) : string :=
  match inputData with
  | VArr a => JsString.join "" a
  | VStr s => s
  end.

(** The progress of a matcher that is fed the buffers [buffers], one per
    pass, starting from the progress [v]. *)
Definition matcher_run (target : string) (v : value) (buffers : list value) : value :=
  foldl (sequence_step target) v buffers.

(** Every code unit of [target] occurs in [buffer]. *)
Fixpoint covers (buffer target : string) : bool :=
  match target with
  | EmptyString => true
  | String c target' => JsString.includes buffer (String c "") && covers buffer target'
  end.

(** What the loop has recorded on the edges into the dequeued nodes. *)
Definition edge_inv (edges : list AppEdge) (done : gset string) (st : Store) : Prop :=
  ∀ e, e ∈ edges → target e ∈ done →
    s_edgeResults st !! edge_id e = Some (s_nodeResults st !! source e).

(** The store with another previous-output map. *)
Definition with_prev (p : gmap string value) (st : Store) : Store :=
  mkStore (s_nodes st) (s_edges st) p (s_nodeResults st)
    (s_edgeResults st) (s_adjacency st) (s_inDegree st) (s_queue st).

Definition outcome_map {A B} (f : A → B) (o : outcome A) : outcome B :=
  match o with
  | Ok a => Ok (f a)
  | Throw => Throw
  | Timeout => Timeout
  end.

(** * App.tsx: the handlers that rewrite the node list *)

(** [s.slice(-n)] for a positive [n]: the last [n] code units of [s], all
    of [s] when it has fewer. *)
Fixpoint string_drop (n : nat) (s : string) : string :=
  match n, s with
  | O, _ => s
  | S _, EmptyString => EmptyString
  | S n', String _ s' => string_drop n' s'
  end.

Definition slice_from_end (s : string) (n : nat) : string :=
  string_drop (String.length s - n) s.

(** [{ ...node, data: { ...node.data, params: { ...node.data.params, pattern: text } } }] *)
Definition set_pattern (text : string) (node : AppNode) : AppNode :=
  let d := data node in
  {| id := id node;
     data := {| label := label d; type := type d; processType := processType d;
                params := Some {| pattern := Some text;
                                  replacement := param replacement (params d);
                                  delimiter := param delimiter (params d);
                                  fieldIndex := param fieldIndex (params d);
                                  batchSize := param batchSize (params d) |};
                isActive := isActive d; currentValue := currentValue d;
                isResult := isResult d |} |}.

(** [{ ...node, data: { ...node.data, isActive: b } }] *)
Definition set_isActive (b : bool) (node : AppNode) : AppNode :=
  let d := data node in
  {| id := id node;
     data := {| label := label d; type := type d; processType := processType d;
                params := params d; isActive := Some b;
                currentValue := currentValue d; isResult := isResult d |} |}.

(** An emitter that is not paused: [node.data.isActive === false] fails. *)
Definition streaming (node : AppNode) : bool :=
  match type (data node) with
  | EMITTER => negb (bool_decide (isActive (data node) = Some false))
  | _ => false
  end.

(** The body of the [map] of the emitter tick; [newSegment] is what the
    random generator produced for the node. *)
Definition tick_node (newSegment : string) (node : AppNode) : AppNode :=
  match type (data node) with
  | EMITTER =>
      if bool_decide (isActive (data node) = Some false) then node
      else
        let currentText := str_or (param pattern (params (data node))) "" in
        let newText := slice_from_end (currentText +:+ newSegment) 80 in
        set_pattern newText node
  | _ => node
  end.

(** The state update of the emitter tick; [newSegment i] is the segment
    generated for the node at index [i]. *)
Definition emitter_tick (newSegment : nat → string) (currentNodes : list AppNode)
    : list AppNode :=
  let hasChanges := existsb streaming currentNodes in
  let newNodes := imap (λ i node, tick_node (newSegment i) node) currentNodes in
  if hasChanges then newNodes else currentNodes.

(** A run of ticks, one generator per tick. *)
Definition ticks (segments : list (nat → string)) (nodes : list AppNode) : list AppNode :=
  foldl (λ nds newSegment, emitter_tick newSegment nds) nodes segments.

(** The state update of [handleUpdateInput]; no node is selected when
    [selectedNodeId] is [null] or the empty string. *)
Definition handleUpdateInput (selectedNodeId : option string) (text : string)
    (nds : list AppNode) : list AppNode :=
  match selectedNodeId with
  | Some sel =>
      if JsString.truthy sel then
        (λ node, if bool_decide (id node = sel) && isSource (type (data node))
                 then set_pattern text node else node) <$> nds
      else nds
  | None => nds
  end.

(** The state update of [handleToggleActive]. *)
Definition handleToggleActive (selectedNodeId : option string) (nds : list AppNode)
    : list AppNode :=
  match selectedNodeId with
  | Some sel =>
      if JsString.truthy sel then
        (λ node, if bool_decide (id node = sel)
                 then set_isActive (negb (default true (isActive (data node)))) node
                 else node) <$> nds
      else nds
  | None => nds
  end.

(** The data [handleGenerate] gives an INPUT node that has none. *)
Definition sample_input : string :=
  "Item A" +:+ LF +:+ "Item B" +:+ LF +:+ "Item C" +:+ LF +:+ "Error 404" +:+ LF
  +:+ "Item D".

(** The node [handleGenerate] makes of a node of the response. *)
Definition prepare_node (n : AppNode) : AppNode :=
  let d := data n in
  {| id := id n;
     data := {| label := label d; type := type d; processType := processType d;
                params :=
                  if bool_decide (type d = INPUT)
                     && negb (JsString.truthy (default "" (param pattern (params d))))
                  then Some (with_pattern sample_input)
                  else params d;
                isActive := Some true; currentValue := currentValue d;
                isResult := isResult d |} |}.

(** The first pass after a generation: the reference has been reset. *)
Definition first_pass (RE : RegExpEngine) (aiNodes : list AppNode) (aiEdges : list AppEdge)
    : outcome (FlowExecutionResult * gmap string value) :=
  run_pass RE (prepare_node <$> aiNodes) aiEdges ∅.

(** *** Line breaks *)

(** The number of line feeds of [s]. *)
Fixpoint count_LF (s : string) : nat :=
  match s with
  | EmptyString => 0
  | String c s' => (if decide (c = "010"%char) then 1 else 0) + count_LF s'
  end.

(** The number of carriage returns of [s] that a line feed follows. *)
Fixpoint count_CRLF (s : string) : nat :=
  match s with
  | EmptyString => 0
  | String c s' =>
      (if decide (c = "013"%char) then
         match s' with
         | String c' _ => if decide (c' = "010"%char) then 1 else 0
         | EmptyString => 0
         end
       else 0) + count_CRLF s'
  end.

(** * executeFlow and the objects of its caller *)

(** The embedding above works on values.  To speak of what a run does to
    the objects it is handed, the engine is embedded a second time, on a
    heap: the node array (with the nodes, their data and parameters), the
    edge array and the previous-output object are cells the caller owns,
    an array that is a value is a cell that values refer to, and the
    objects the engine creates are cells it allocates.  Every assignment
    of the source is a write to the cell its left-hand side refers to.
    (The arrays inside [adjacency] are kept in its cell, and the arrays and
    the configuration object that an iteration builds for itself and does
    not store are not given cells.  A reference to a cell of another kind
    than expected reads as an empty object.) *)

Notation loc := nat (only parsing).

(** A value of a result map: a string, or a reference to an array. *)
Inductive hval :=
  | HStr (s : string)
  | HArr (l : loc).

Inductive cell :=
  | CNodes (nodes : list AppNode)
  | CEdges (edges : list AppEdge)
  | CArray (a : list string)
  | CValues (m : gmap string hval)
  | CEdgeValues (m : gmap string (option hval))
  | CAdjacency (m : gmap string (list string))
  | CInDegree (m : gmap string Z)
  | CQueue (q : list string).

Notation heap := (gmap loc cell).

(** Allocation of a new object. *)
Definition fresh_loc (h : heap) : loc := S (max_list (elements (dom h))).

Definition alloc (c : cell) (h : heap) : loc * heap :=
  let l := fresh_loc h in (l, <[l := c]> h).

(** Reading through a reference. *)
Definition read_nodes (h : heap) (l : loc) : list AppNode :=
  match h !! l with Some (CNodes nodes) => nodes | _ => [] end.
Definition read_edges (h : heap) (l : loc) : list AppEdge :=
  match h !! l with Some (CEdges edges) => edges | _ => [] end.
Definition read_array (h : heap) (l : loc) : list string :=
  match h !! l with Some (CArray a) => a | _ => [] end.
Definition read_values (h : heap) (l : loc) : gmap string hval :=
  match h !! l with Some (CValues m) => m | _ => ∅ end.
Definition read_edgeValues (h : heap) (l : loc) : gmap string (option hval) :=
  match h !! l with Some (CEdgeValues m) => m | _ => ∅ end.
Definition read_adjacency (h : heap) (l : loc) : gmap string (list string) :=
  match h !! l with Some (CAdjacency m) => m | _ => ∅ end.
Definition read_inDegree (h : heap) (l : loc) : gmap string Z :=
  match h !! l with Some (CInDegree m) => m | _ => ∅ end.
Definition read_queue (h : heap) (l : loc) : list string :=
  match h !! l with Some (CQueue q) => q | _ => [] end.

(** The value a heap value stands for. *)
Definition deref (h : heap) (v : hval) : value :=
  match v with
  | HStr s => VStr s
  | HArr l => VArr (read_array h l)
  end.

(** Writing through a reference. *)
Definition write_values (l : loc) (f : gmap string hval → gmap string hval) (h : heap) : heap :=
  <[l := CValues (f (read_values h l))]> h.
Definition write_edgeValues (l : loc)
    (f : gmap string (option hval) → gmap string (option hval)) (h : heap) : heap :=
  <[l := CEdgeValues (f (read_edgeValues h l))]> h.
Definition write_adjacency (l : loc)
    (f : gmap string (list string) → gmap string (list string)) (h : heap) : heap :=
  <[l := CAdjacency (f (read_adjacency h l))]> h.
Definition write_inDegree (l : loc) (f : gmap string Z → gmap string Z) (h : heap) : heap :=
  <[l := CInDegree (f (read_inDegree h l))]> h.
Definition write_queue (l : loc) (f : list string → list string) (h : heap) : heap :=
  <[l := CQueue (f (read_queue h l))]> h.

(** The references [executeFlow] holds when it enters its loops: its three
    parameters and the four objects it has created. *)
Record Refs := mkRefs {
  r_nodes : loc;
  r_edges : loc;
  r_prevNodeResults : loc;
  r_nodeResults : loc;
  r_edgeResults : loc;
  r_adjacency : loc;
  r_inDegree : loc }.

(** A value the engine has computed, as a heap value: an array is a new
    object. *)
Definition new_value (v : value) (h : heap) : hval * heap :=
  match v with
  | VStr s => (HStr s, h)
  | VArr a => let '(l, h) := alloc (CArray a) h in (HArr l, h)
  end.

Section HeapFlow.

Context (RE : RegExpEngine) (r : Refs).

(** Body of [nodes.forEach]. *)
Definition init_nodeH (h : heap) (node : AppNode) : heap :=
  let h := write_adjacency (r_adjacency r) <[id node := []]> h in
  let h := write_inDegree (r_inDegree r) <[id node := 0]> h in
  if isSource (type (data node))
  then write_values (r_nodeResults r)
         <[id node := HStr (str_or (param pattern (params (data node))) "")]> h
  else h.

(** Body of [edges.forEach]. *)
Definition init_edgeH (h : heap) (edge : AppEdge) : heap :=
  let h :=
    match read_adjacency h (r_adjacency r) !! source edge with
    | Some targets =>
        write_adjacency (r_adjacency r) <[source edge := targets ++ [target edge]]> h
    | None => h
    end in
  write_inDegree (r_inDegree r)
    <[target edge := default 0 (read_inDegree h (r_inDegree r) !! target edge) + 1]> h.

(** [nodes.filter(n => inDegree\[n.id\] === 0).map(n => n.id)] *)
Definition initial_queueH (h : heap) : list string :=
  id <$> filter (λ n, read_inDegree h (r_inDegree r) !! id n = Some 0)
           (read_nodes h (r_nodes r)).

(** The aggregation of the inputs: one input is handed on as it is (the
    same array, if it is one), several are put into a new array. *)
Definition fan_inH (h : heap) (inputs : list hval) : option hval * heap :=
  match inputs with
  | [] => (None, h)
  | [i] => (Some i, h)
  | _ =>
      let vs := deref h <$> inputs in
      let a :=
        if forallb isArray vs then flat vs
        else flat (map (λ i, if isArray i then i else VArr [String_of i]) vs) in
      let '(l, h) := alloc (CArray a) h in
      (Some (HArr l), h)
  end.

(** The input of the dequeued node, and the recording of the edge values. *)
Definition gatherH (h : heap) (node : AppNode) : option hval * heap :=
  let incomingEdges := incoming_edges (read_edges h (r_edges r)) (id node) in
  if bool_decide (0 < length incomingEdges)%nat then
    let inputs :=
      omap (λ e, read_values h (r_nodeResults r) !! source e) incomingEdges in
    let '(inputData, h) := fan_inH h inputs in
    (inputData,
     foldl (λ h e, write_edgeValues (r_edgeResults r)
                     <[edge_id e := read_values h (r_nodeResults r) !! source e]> h)
       h incomingEdges)
  else if isSource (type (data node))
  then (read_values h (r_nodeResults r) !! id node, h)
  else (None, h).

(** [prevNodeResults\[node.id\] || ""] *)
Definition prev_outputH (h : heap) (nodeId : string) : hval :=
  match read_values h (r_prevNodeResults r) !! nodeId with
  | Some (HStr s) => HStr (str_or (Some s) "")
  | Some (HArr l) => HArr l
  | None => HStr ""
  end.

(** The dispatch on the node type: the operators build new values, the
    other kinds hand on the value they are given. *)
Definition process_nodeH (h : heap) (node : AppNode) (inputData : hval)
    : outcome (hval * heap) :=
  let d := data node in
  match type d with
  | PROCESS | BRANCH =>
      let config :=
        {| label := label d; type := type d;
           processType := Some (default GREP (processType d));
           params := params d; isActive := isActive d;
           currentValue := currentValue d; isResult := isResult d |} in
      out ←! processData RE (deref h inputData) config;
      Ok (new_value out h)
  | BATCH =>
      batches ←! processBatch (deref h inputData) (num_or (param batchSize (params d)) 3);
      Ok (new_value (VArr batches) h)
  | MERGE => Ok (inputData, h)
  | SEQUENCE =>
      let targetPattern := str_or (param pattern (params d)) "" in
      let prevOutput := prev_outputH h (id node) in
      if bool_decide (value_length (deref h prevOutput) < String.length targetPattern)%nat
      then
        let nextCharNeeded :=
          match JsString.get targetPattern (value_length (deref h prevOutput)) with
          | Some c => String c ""
          | None => "undefined"
          end in
        let inputStr :=
          match deref h inputData with
          | VArr a => JsString.join "" a
          | VStr s => s
          end in
        if JsString.includes inputStr nextCharNeeded
        then Ok (HStr (String_of (deref h prevOutput) +:+ nextCharNeeded), h)
        else Ok (prevOutput, h)
      else Ok (prevOutput, h)
  | OUTPUT => Ok (inputData, h)
  | INPUT | EMITTER => Ok (inputData, h)
  end.

(** The [while] loop, [queue] being the reference to the queue. *)
Context (queue : loc).

(** Body of [adjacency\[nodeId\].forEach]. *)
Definition triggerH (h : heap) (neighborId : string) : heap :=
  let h := write_inDegree (r_inDegree r) (alter (λ n, n - 1) neighborId) h in
  if bool_decide (read_inDegree h (r_inDegree r) !! neighborId = Some 0)
  then write_queue queue (λ q, q ++ [neighborId]) h
  else h.

(** One iteration of the [while] loop, for a queue that is not empty. *)
Definition stepH (h : heap) : outcome heap :=
  match read_queue h queue with
  | [] => Ok h
  | nodeId :: _ =>
      let h := write_queue queue (drop 1) h in
      match List.find (λ n, bool_decide (id n = nodeId)) (read_nodes h (r_nodes r)) with
      | None => Ok h
      | Some node =>
          let '(inputData, h) := gatherH h node in
          h ←! match inputData with
               | Some input =>
                   p ←! process_nodeH h node input;
                   let '(out, h) := p in
                   Ok (write_values (r_nodeResults r) <[id node := out]> h)
               | None => Ok h
               end;
          Ok match read_adjacency h (r_adjacency r) !! nodeId with
             | Some neighbors => foldl triggerH h neighbors
             | None => h
             end
      end
  end.

(** The [while (queue.length > 0)] loop. *)
Fixpoint kahnH (fuel : nat) (h : heap) : outcome heap :=
  match read_queue h queue with
  | [] => Ok h
  | _ :: _ =>
      match fuel with
      | O => Timeout
      | S fuel' => h' ←! stepH h; kahnH fuel' h'
      end
  end.

End HeapFlow.

(** The four objects [executeFlow] creates first. *)
Definition create_objects (nodes edges prevNodeResults : loc) (h : heap) : Refs * heap :=
  let '(nodeResults, h) := alloc (CValues ∅) h in
  let '(edgeResults, h) := alloc (CEdgeValues ∅) h in
  let '(adjacency, h) := alloc (CAdjacency ∅) h in
  let '(inDegree, h) := alloc (CInDegree ∅) h in
  (mkRefs nodes edges prevNodeResults nodeResults edgeResults adjacency inDegree, h).

(** The two [forEach] loops and the creation of the queue. *)
Definition setupH (r : Refs) (h : heap) : loc * heap :=
  let h := foldl (init_nodeH r) h (read_nodes h (r_nodes r)) in
  let h := foldl (init_edgeH r) h (read_edges h (r_edges r)) in
  alloc (CQueue (initial_queueH r h)) h.

(** The call [executeFlow(nodes, edges, prevNodeResults)] on a heap: it
    returns the heap after the call and the references to the two maps of
    the result. *)
Definition executeFlowH (RE : RegExpEngine) (h : heap) (nodes edges prevNodeResults : loc)
    : outcome (heap * loc * loc) :=
  let '(r, h) := create_objects nodes edges prevNodeResults h in
  let '(queue, h) := setupH r h in
  h ←! kahnH RE r queue (length (read_nodes h nodes) + length (read_edges h edges)) h;
  Ok (h, r_nodeResults r, r_edgeResults r).

(** Nothing that existed in [h0] differs in [h]. *)
Definition unchanged (h0 h : heap) : Prop := ∀ l, l ∈ dom h0 → h !! l = h0 !! l.

(** The kinds of objects. *)
Inductive kind := KNodes | KEdges | KArray | KValues | KEdgeValues | KAdjacency
  | KInDegree | KQueue.

Definition kind_of (c : cell) : kind :=
  match c with
  | CNodes _ => KNodes
  | CEdges _ => KEdges
  | CArray _ => KArray
  | CValues _ => KValues
  | CEdgeValues _ => KEdgeValues
  | CAdjacency _ => KAdjacency
  | CInDegree _ => KInDegree
  | CQueue _ => KQueue
  end.

(** [l] is an object of kind [k] of [h] that is none of [h0]. *)
Definition created (h0 h : heap) (l : loc) (k : kind) : Prop :=
  l ∉ dom h0 ∧ kind_of <$> (h !! l) = Some k.

(** The objects the engine has created are none of [h0], and each is in
    [h] an object of its kind. *)
Definition engine_objects (h0 h : heap) (r : Refs) : Prop :=
  created h0 h (r_nodeResults r) KValues ∧ created h0 h (r_edgeResults r) KEdgeValues
  ∧ created h0 h (r_adjacency r) KAdjacency ∧ created h0 h (r_inDegree r) KInDegree.

(** The invariant of the run on the heap, before the queue is created and
    from then on. *)
Definition frame_inv (h0 : heap) (r : Refs) (h : heap) : Prop :=
  unchanged h0 h ∧ engine_objects h0 h r.


(** From [h] to [h'], no object of [h0] has been written and every object
    of [h] has kept its kind. *)
Definition extends (h0 h h' : heap) : Prop :=
  (∀ l, l ∈ dom h0 → h' !! l = h !! l)
  ∧ ∀ l, l ∈ dom h → kind_of <$> (h' !! l) = kind_of <$> (h !! l).

(** *** Example heap *)

(** An emitter feeding a matcher and a sort; the previous output of the
    matcher is an array. *)
Definition example_heap : heap :=
  {[ 1%nat := CNodes [mkNode "1" EMITTER None (Some (with_pattern "XBYA"));
                      mkNode "2" SEQUENCE None (Some (with_pattern "A"));
                      mkNode "3" PROCESS (Some SORT) None];
     2%nat := CEdges [mkEdge "e1-2" "1" "2"; mkEdge "e1-3" "1" "3"];
     3%nat := CValues {["2" := HArr 4%nat]};
     4%nat := CArray ["A"] ]}.

(** *** The heap and the values it stands for *)

(** A heap value whose array, if it is one, is an array of [h]. *)
Definition closed (h : heap) (v : hval) : Prop :=
  match v with
  | HStr _ => True
  | HArr a => kind_of <$> (h !! a) = Some KArray
  end.

(** The references of the engine refer to objects of their kinds, the two
    maps of node outputs are two objects, and the values of the three maps
    refer to arrays. *)
Definition heap_ok (r : Refs) (h : heap) : Prop :=
  kind_of <$> (h !! r_nodes r) = Some KNodes
  ∧ kind_of <$> (h !! r_edges r) = Some KEdges
  ∧ kind_of <$> (h !! r_prevNodeResults r) = Some KValues
  ∧ kind_of <$> (h !! r_nodeResults r) = Some KValues
  ∧ kind_of <$> (h !! r_edgeResults r) = Some KEdgeValues
  ∧ kind_of <$> (h !! r_adjacency r) = Some KAdjacency
  ∧ kind_of <$> (h !! r_inDegree r) = Some KInDegree
  ∧ r_prevNodeResults r ≠ r_nodeResults r
  ∧ map_Forall (λ _ v, closed h v) (read_values h (r_prevNodeResults r))
  ∧ map_Forall (λ _ v, closed h v) (read_values h (r_nodeResults r))
  ∧ map_Forall (λ _ o, from_option (closed h) True o) (read_edgeValues h (r_edgeResults r)).

(** The store of the value embedding that a heap stands for; a queue that
    has not been created yet reads as empty. *)
Definition store_of (r : Refs) (queue : loc) (h : heap) : Store :=
  mkStore (read_nodes h (r_nodes r)) (read_edges h (r_edges r))
    (deref h <$> read_values h (r_prevNodeResults r))
    (deref h <$> read_values h (r_nodeResults r))
    ((λ o : option hval, deref h <$> o) <$> read_edgeValues h (r_edgeResults r))
    (read_adjacency h (r_adjacency r)) (read_inDegree h (r_inDegree r))
    (read_queue h queue).

(** From [h] to [h'] every object has kept its kind and every array its
    elements. *)
Definition keeps (h h' : heap) : Prop :=
  ∀ l k, kind_of <$> (h !! l) = Some k →
    kind_of <$> (h' !! l) = Some k ∧ (k = KArray → h' !! l = h !! l).

(** [heap_ok] once the queue exists. *)
Definition loop_ok (r : Refs) (queue : loc) (h : heap) : Prop :=
  heap_ok r h ∧ kind_of <$> (h !! queue) = Some KQueue.

(** The outcome of the value embedding that an outcome on the heap stands
    for. *)
Definition outcome_of (r : Refs) (queue : loc) (o : outcome heap) : outcome Store :=
  match o with
  | Ok h => Ok (store_of r queue h)
  | Throw => Throw
  | Timeout => Timeout
  end.

(** The arguments of a call refer to objects of their kinds, and the arrays
    of the previous outputs are objects of the heap. *)
Definition arguments_ok (h : heap) (nodes edges prevNodeResults : loc) : Prop :=
  kind_of <$> (h !! nodes) = Some KNodes
  ∧ kind_of <$> (h !! edges) = Some KEdges
  ∧ kind_of <$> (h !! prevNodeResults) = Some KValues
  ∧ map_Forall (λ _ v, closed h v) (read_values h prevNodeResults).

(** The result that the outcome of a call on the heap stands for. *)
Definition result_of (o : outcome (heap * loc * loc)) : outcome FlowExecutionResult :=
  match o with
  | Ok (h, nodeResults, edgeResults) =>
      Ok {| nodeResults := deref h <$> read_values h nodeResults;
            edgeResults := (λ o : option hval, deref h <$> o) <$> read_edgeValues h edgeResults |}
  | Throw => Throw
  | Timeout => Timeout
  end.

(** * Properties *)

(** ** Strings *)

Module JsStringFacts.
Import JsString.

Lemma app_cons c s t : String c s +:+ t = String c (s +:+ t).
Proof. reflexivity. Qed.

Lemma app_empty_r s : s +:+ "" = s.
Proof. induction s as [|c s IH]; [done|]. by rewrite app_cons, IH. Qed.

Lemma app_assoc s t u : (s +:+ t) +:+ u = s +:+ (t +:+ u).
Proof. induction s as [|c s IH]; [done|]. by rewrite !app_cons, IH. Qed.

Lemma length_app s t :
  String.length (s +:+ t) = (String.length s + String.length t)%nat.
Proof.
  induction s as [|c s IH]; [done|]. rewrite app_cons. simpl. by rewrite IH.
Qed.

Lemma startsWith_app p t : startsWith (p +:+ t) p = true.
Proof.
  induction p as [|a p IH]; [by destruct t|].
  rewrite app_cons. simpl. rewrite IH. by rewrite bool_decide_eq_true_2.
Qed.

Lemma startsWith_app_long p x y :
  (String.length p ≤ String.length x)%nat →
  startsWith (x +:+ y) p = startsWith x p.
Proof.
  revert x. induction p as [|a p IH]; intros x Hlen.
  - by destruct x, y.
  - destruct x as [|b x]; simpl in Hlen; [lia|].
    rewrite app_cons. simpl. rewrite IH by lia. done.
Qed.

Lemma startsWith_empty p : startsWith "" p = true → p = "".
Proof. by destruct p. Qed.

Lemma startsWith_weaken p x y : startsWith x p = true → startsWith (x +:+ y) p = true.
Proof.
  revert x. induction p as [|a p IH]; intros x H.
  - by destruct (x +:+ y).
  - destruct x as [|b x]; [done|]. rewrite app_cons. simpl in *.
    apply andb_true_iff in H as [-> H]. simpl. by apply IH.
Qed.

Lemma split_scan_skip sep u rest cur :
  split_scan sep (String.length u) cur (u +:+ rest) = split_scan sep 0 cur rest.
Proof. induction u as [|c u IH]; [done|]. rewrite app_cons. simpl. apply IH. Qed.

(** A line followed by a separator is cut off where the separator starts. *)
Lemma split_scan_line sep l cur rest :
  sep ≠ "" → overlaps l sep = false →
  split_scan sep 0 cur (l +:+ sep +:+ rest) = (cur +:+ l) :: split_scan sep 0 "" rest.
Proof.
  intros Hsep. revert cur. induction l as [|c l IH]; intros cur Hov.
  - destruct sep as [|a sep]; [done|]. rewrite app_empty_r.
    change ("" +:+ String a sep +:+ rest) with (String a (sep +:+ rest)).
    cbn [split_scan].
    change (String a (sep +:+ rest)) with (String a sep +:+ rest).
    rewrite startsWith_app. f_equal.
    replace (String.length (String a sep) - 1)%nat with (String.length sep) by (simpl; lia).
    apply split_scan_skip.
  - cbn [overlaps] in Hov. apply orb_false_iff in Hov as [Hhere Hov].
    rewrite app_cons. cbn [split_scan].
    change (String c (l +:+ sep +:+ rest)) with (String c l +:+ sep +:+ rest).
    rewrite <- app_assoc, startsWith_app_long, Hhere
      by (rewrite length_app; lia).
    rewrite IH by done. by rewrite app_assoc.
Qed.

Lemma overlaps_includes sep l :
  sep ≠ "" → overlaps l sep = false → includes l sep = false.
Proof.
  intros Hsep. induction l as [|c l IH]; intros Hov.
  - destruct sep; done.
  - cbn [overlaps] in Hov. apply orb_false_iff in Hov as [Hhere Hov].
    cbn [includes]. rewrite IH by done. rewrite orb_false_r.
    destruct (startsWith (String c l) sep) eqn:E; [|done].
    by rewrite (startsWith_weaken _ _ sep E) in Hhere.
Qed.

(** A string without separator is one piece. *)
Lemma split_scan_last sep l cur :
  includes l sep = false → split_scan sep 0 cur l = [cur +:+ l].
Proof.
  revert cur. induction l as [|c l IH]; intros cur Hinc.
  - by rewrite app_empty_r.
  - cbn [includes] in Hinc. apply orb_false_iff in Hinc as [Hhere Hinc].
    cbn [split_scan]. rewrite Hhere, IH by done. by rewrite app_assoc.
Qed.

Lemma split_join sep lines :
  sep ≠ "" → lines ≠ [] → Forall (λ l, overlaps l sep = false) lines →
  split (join sep lines) sep = lines.
Proof.
  intros Hsep Hne Hall. unfold split. destruct sep as [|a sep]; [done|].
  induction Hall as [|l lines Hl Hall IH]; [done|].
  destruct lines as [|l' lines].
  - simpl. rewrite split_scan_last; [done|]. by apply overlaps_includes.
  - change (join (String a sep) (l :: l' :: lines))
      with (l +:+ String a sep +:+ join (String a sep) (l' :: lines)).
    rewrite split_scan_line by done. f_equal. by apply IH.
Qed.

End JsStringFacts.

(** ** Falsy parameters *)

Lemma str_or_Some s d : s ≠ "" → str_or (Some s) d = s.
Proof. by destruct s. Qed.

Lemma str_or_self o : str_or o "" = default "" o.
Proof. by destruct o as [[|]|]. Qed.

Lemma num_or_Some n d : n ≠ 0 → num_or (Some n) d = n.
Proof. intros. unfold num_or. by rewrite bool_decide_eq_false_2. Qed.

(** ** C7: join then split *)

Section JoinSplit.
Import JsString JsStringFacts.
Context (RE : RegExpEngine).

(** For a delimiter of one code unit, an occurrence cannot run over the end
    of a line: the condition of [split_join] is that no line contains it. *)
Lemma overlaps_single c l :
  overlaps l (String c "") = includes l (String c "").
Proof.
  induction l as [|b l IH]; [done|].
  cbn [overlaps includes]. rewrite IH, app_cons. simpl.
  by destruct (l +:+ String c ""), l.
Qed.

(** C7, as the specification states it, fails: an empty sequence comes back
    as one empty line, and a delimiter of several code units can match
    across the end of a line. *)
Lemma join_split_counterexample :
  (Forall (λ l, includes l "," = false) []
   ∧ join_then_split plain_engine (join_config ",") (split_config ",") []
     = Ok (VArr [""]))
  ∧ (Forall (λ l, includes l "aa" = false) ["a"; "b"]
     ∧ join_then_split plain_engine (join_config "aa") (split_config "aa") ["a"; "b"]
       = Ok (VArr [""; "ab"])).
Proof. split; (split; [repeat constructor | reflexivity]). Qed.

(** Joining and splitting, for lines free of the delimiter in the sense of
    [delimiter_free]. *)
Lemma split_join_free sep lines :
  sep ≠ "" → lines ≠ [] → delimiter_free sep lines →
  split (join sep lines) sep = lines.
Proof.
  intros Hsep Hne. unfold split. destruct sep as [|a sep]; [done|]. clear Hsep.
  induction lines as [|l lines IH]; [done|]. clear Hne.
  destruct lines as [|l' lines]; cbn [delimiter_free].
  - intros Hfree. simpl. by rewrite split_scan_last.
  - intros [Hl Hfree].
    change (join (String a sep) (l :: l' :: lines))
      with (l +:+ String a sep +:+ join (String a sep) (l' :: lines)).
    rewrite split_scan_line by done. f_equal. by apply IH.
Qed.

(** C7 (amended): for a non-empty delimiter [d] and a non-empty line
    sequence in which no occurrence of [d] begins inside a line (within the
    line or, for a line that a delimiter follows, running over its end into
    that delimiter), joining with [d] and then splitting with [d] restores
    the sequence. *)
Theorem join_split_round_trip (cj cs : NodeData) (d : string) (lines : list string) :
  processType cj = Some JOIN → param delimiter (params cj) = Some d →
  processType cs = Some SPLIT → param delimiter (params cs) = Some d →
  d ≠ "" → lines ≠ [] → delimiter_free d lines →
  join_then_split RE cj cs lines = Ok (VArr lines).
Proof.
  intros Hj Hdj Hs Hds Hd Hne Hall. unfold join_then_split, processData.
  rewrite Hj, Hdj. cbn [obind]. rewrite Hs, Hds.
  rewrite !str_or_Some by done. by rewrite split_join_free.
Qed.

(** In particular, the round trip holds for a non-empty sequence and a
    one-unit delimiter that no line contains. *)
Corollary join_split_round_trip_single (c : ascii) (lines : list string) :
  lines ≠ [] → Forall (λ l, includes l (String c "") = false) lines →
  join_then_split RE (join_config (String c "")) (split_config (String c "")) lines
  = Ok (VArr lines).
Proof.
  intros Hne Hall.
  change (Ok (VArr (split (join (String c "") lines) (String c ""))) = Ok (VArr lines)).
  rewrite split_join; try done.
  eapply Forall_impl; [exact Hall|]. intros l Hl. by rewrite overlaps_single.
Qed.

End JoinSplit.

Lemma join_split_round_trip_witness :
  join_then_split plain_engine (join_config "aa") (split_config "aa") ["x,"; ""; "a"]
  = Ok (VArr ["x,"; ""; "a"]).
Proof.
  apply (join_split_round_trip plain_engine (join_config "aa") (split_config "aa") "aa");
    try reflexivity; try discriminate.
  repeat split.
Defined.


(** ** C9: extract-field *)

Section ExtractField.
Import JsString.
Context (RE : RegExpEngine).

Lemma filter_truthy (a : list string) :
  filter (λ p, truthy p) a = filter (λ p, p ≠ "") a.
Proof. apply list_filter_iff. intros [|c s]; simpl; naive_solver. Qed.

Lemma awk_line_field_at (l delim : string) (index : Z) :
  awk_line (index - 1) delim l = field_at l delim index.
Proof.
  unfold awk_line, field_at, array_get, fields. rewrite filter_truthy.
  destruct (decide (1 ≤ index)) as [Hle|Hlt].
  - rewrite bool_decide_eq_false_2, bool_decide_eq_true_2 by lia.
    apply str_or_self.
  - by rewrite bool_decide_eq_true_2, bool_decide_eq_false_2 by lia.
Qed.

(** C9 (amended): the extract-field operation returns, for every line, the
    field at the 1-based index [k] among the non-empty fragments between
    occurrences of the delimiter [d], or the empty string when there is no
    such field; [d] is the configured delimiter, a single space when it is
    absent or empty, and [k] the configured index, 1 when it is absent or
    zero. *)
Theorem extract_field_spec (input : value) (config : NodeData) (d : string) (k : Z) :
  processType config = Some MAP →
  match param delimiter (params config) with
  | Some d' => if decide (d' = "") then d = " " else d = d'
  | None => d = " "
  end →
  match param fieldIndex (params config) with
  | Some k' => if decide (k' = 0) then k = 1 else k = k'
  | None => k = 1
  end →
  processData RE input config
  = Ok (VArr (map (λ l, field_at l d k) (data_lines input))).
Proof.
  intros Hty Hd Hk. unfold processData. rewrite Hty. do 2 f_equal.
  assert (str_or (param delimiter (params config)) " " = d) as ->.
  { destruct (param delimiter (params config)) as [d'|]; [|done].
    destruct (decide (d' = "")) as [->|]; [done|]. subst d. by apply str_or_Some. }
  assert (num_or (param fieldIndex (params config)) 1 = k) as ->.
  { destruct (param fieldIndex (params config)) as [k'|]; [|done].
    destruct (decide (k' = 0)) as [->|]; [done|]. subst k. by apply num_or_Some. }
  apply map_ext. intros l. apply awk_line_field_at.
Qed.

End ExtractField.

(** C9, as the specification states it, fails for a configured index 0:
    there is no field number 0, yet the first field is returned; and for a
    configured empty delimiter, which is replaced by a space. *)
Lemma extract_field_counterexample :
  processData plain_engine (VArr ["a b"]) (mkData PROCESS (Some MAP) (Some (with_field 0)))
  = Ok (VArr ["a"])
  ∧ field_at "a b" " " 0 = ""
  ∧ processData plain_engine (VArr ["ab"]) (mkData PROCESS (Some MAP) (Some (with_delimiter "")))
    = Ok (VArr ["ab"])
  ∧ field_at "ab" "" 1 = "a".
Proof. repeat split. Qed.

Lemma extract_field_spec_witness :
  processData plain_engine (VStr "GET  /index 200") (mkData PROCESS (Some MAP) (Some (with_field 2)))
  = Ok (VArr ["/index"]).
Proof.
  apply (extract_field_spec plain_engine (VStr "GET  /index 200")
           (mkData PROCESS (Some MAP) (Some (with_field 2))) " " 2); reflexivity.
Defined.

(** ** C6: filter and substitute *)

Section RegexpFallback.
Import JsString JsStringFacts.
Context (RE : RegExpEngine).

Lemma split_scan_nonempty sep k cur s : split_scan sep k cur s ≠ [].
Proof.
  revert k cur. induction s as [|c s IH]; intros k cur; [done|].
  cbn [split_scan]. destruct k; [|apply IH].
  destruct (startsWith _ _); [done|apply IH].
Qed.

Lemma join_cons sep x a : a ≠ [] → join sep (x :: a) = x +:+ sep +:+ join sep a.
Proof. by destruct a. Qed.

(** Splitting at a non-empty string and joining with another replaces the
    occurrences of the former. *)
Lemma join_split_scan sep repl k cur s :
  join repl (split_scan sep k cur s) = cur +:+ replace_scan sep repl k s.
Proof.
  revert k cur. induction s as [|c s IH]; intros k cur.
  - simpl. by rewrite app_empty_r.
  - cbn [split_scan replace_scan]. destruct k; [|apply IH].
    destruct (startsWith _ _).
    + rewrite join_cons by apply split_scan_nonempty. by rewrite IH.
    + rewrite IH. by rewrite app_assoc.
Qed.

Lemma join_split_replace l search repl :
  search ≠ "" → join repl (split l search) = replace_all_literal l search repl.
Proof.
  intros Hne. unfold split, replace_all_literal.
  destruct search; [done|]. by rewrite join_split_scan.
Qed.

(** C6: filter and substitute never let an error out.  With a pattern the
    engine accepts, filter keeps the lines that match it under the [i] flag
    and substitute replaces in every line under the [g] flag; with a pattern
    it rejects, filter keeps the lines that contain the pattern literally
    and substitute replaces its literal occurrences. *)
Theorem filter_substitute_fallback (input : value) (config : NodeData) (pat repl : string) :
  pat = str_or (param pattern (params config)) "" →
  repl = str_or (param replacement (params config)) "" →
  (processType config = Some GREP →
     processData RE input config =
       Ok (VArr match RegExp_new RE pat "i" with
                | Some regex => filter (λ l, regexp_test RE regex l) (data_lines input)
                | None => filter (λ l, includes l pat) (data_lines input)
                end))
  ∧ (processType config = Some REPLACE →
       processData RE input config =
         Ok (VArr match RegExp_new RE pat "g" with
                  | Some regex => map (λ l, regexp_replace RE regex l repl) (data_lines input)
                  | None => map (λ l, join repl (split l pat)) (data_lines input)
                  end)
       ∧ (pat ≠ "" →
          map (λ l, join repl (split l pat)) (data_lines input)
          = map (λ l, replace_all_literal l pat repl) (data_lines input))).
Proof.
  intros -> ->. split; [intros Hty|intros Hty; split].
  - unfold processData, new_RegExp. rewrite Hty.
    by destruct (RegExp_new RE _ "i").
  - unfold processData, new_RegExp. rewrite Hty.
    by destruct (RegExp_new RE _ "g").
  - intros Hne. apply map_ext. intros l. by apply join_split_replace.
Qed.

End RegexpFallback.

Lemma filter_substitute_fallback_witness :
  processData plain_engine (VArr ["Error (1)"; "ok"; "e(r)ror"])
    (mkData PROCESS (Some GREP) (Some (with_pattern "error")))
  = Ok (VArr ["Error (1)"])
  ∧ processData plain_engine (VArr ["Error (1)"; "ok"; "e(r)ror"])
      (mkData PROCESS (Some GREP) (Some (with_pattern "(r")))
    = Ok (VArr ["e(r)ror"])
  ∧ processData plain_engine (VArr ["a(b(c"])
      (mkData PROCESS (Some REPLACE)
         (Some {| pattern := Some "("; replacement := Some "-"; delimiter := None;
                  fieldIndex := None; batchSize := None |}))
    = Ok (VArr ["a-b-c"]).
Proof.
  split; [|split].
  - apply (filter_substitute_fallback plain_engine (VArr ["Error (1)"; "ok"; "e(r)ror"])
             (mkData PROCESS (Some GREP) (Some (with_pattern "error"))) "error" "");
      reflexivity.
  - apply (filter_substitute_fallback plain_engine (VArr ["Error (1)"; "ok"; "e(r)ror"])
             (mkData PROCESS (Some GREP) (Some (with_pattern "(r"))) "(r" "");
      reflexivity.
  - apply (filter_substitute_fallback plain_engine (VArr ["a(b(c"])
             (mkData PROCESS (Some REPLACE)
                (Some {| pattern := Some "("; replacement := Some "-"; delimiter := None;
                         fieldIndex := None; batchSize := None |})) "(" "-");
      reflexivity.
Defined.

(** ** C4: fan-in *)

Lemma flat_as_sequence (inputs : list value) :
  flat inputs = concat (as_sequence <$> inputs).
Proof. reflexivity. Qed.

Lemma flat_coerced (inputs : list value) :
  flat (map (λ i, if isArray i then i else VArr [String_of i]) inputs)
  = concat (as_sequence <$> inputs).
Proof.
  unfold flat. rewrite map_map. f_equal. apply map_ext. by intros [s|a].
Qed.

Lemma fan_in_spec (inputs : list value) :
  inputs ≠ [] →
  fan_in inputs
  = Some match inputs with
         | [v] => v
         | _ => VArr (concat (as_sequence <$> inputs))
         end.
Proof.
  intros Hne. destruct inputs as [|v [|w inputs]]; [done|done|].
  unfold fan_in. destruct (forallb _ _).
  - by rewrite flat_as_sequence.
  - by rewrite flat_coerced.
Qed.

(** The values [gather] collects are the upstream values. *)
Lemma upstream_resolved edges results n :
  upstream edges results n = resolved_inputs results (incoming_edges edges n).
Proof.
  unfold resolved_inputs, incoming_edges.
  induction edges as [|e edges IH]; [done|]. cbn [upstream]. rewrite filter_cons.
  destruct (decide (target e = n)); [|done]. cbn [omap list_omap]. rewrite IH.
  by destruct (results !! source e).
Qed.





(** ** The queue loop: what an iteration changes *)

Section Loop.
Context (RE : RegExpEngine).

Lemma trigger_inDegree st m :
  s_inDegree (trigger st m) = alter (λ n, n - 1) m (s_inDegree st).
Proof. unfold trigger. by case_bool_decide. Qed.

Lemma trigger_queue st m :
  s_queue (trigger st m)
  = if bool_decide (alter (λ n, n - 1) m (s_inDegree st) !! m = Some 0)
    then s_queue st ++ [m] else s_queue st.
Proof. unfold trigger. simpl. by case_bool_decide. Qed.

Lemma trigger_frame st m :
  s_nodes (trigger st m) = s_nodes st ∧ s_edges (trigger st m) = s_edges st
  ∧ s_prevNodeResults (trigger st m) = s_prevNodeResults st
  ∧ s_nodeResults (trigger st m) = s_nodeResults st
  ∧ s_edgeResults (trigger st m) = s_edgeResults st
  ∧ s_adjacency (trigger st m) = s_adjacency st.
Proof. unfold trigger. by case_bool_decide. Qed.

Lemma trigger_all_frame st ms :
  s_nodes (foldl trigger st ms) = s_nodes st ∧ s_edges (foldl trigger st ms) = s_edges st
  ∧ s_prevNodeResults (foldl trigger st ms) = s_prevNodeResults st
  ∧ s_nodeResults (foldl trigger st ms) = s_nodeResults st
  ∧ s_edgeResults (foldl trigger st ms) = s_edgeResults st
  ∧ s_adjacency (foldl trigger st ms) = s_adjacency st.
Proof.
  revert st. induction ms as [|m ms IH]; intros st; [done|]. simpl.
  destruct (IH (trigger st m)) as (-> & -> & -> & -> & -> & ->). apply trigger_frame.
Qed.

Lemma record_edges_frame st (es : list AppEdge) :
  let st' := foldl (λ st e, set_edgeResults <[edge_id e := s_nodeResults st !! source e]> st)
               st es in
  s_nodes st' = s_nodes st ∧ s_edges st' = s_edges st
  ∧ s_prevNodeResults st' = s_prevNodeResults st
  ∧ s_nodeResults st' = s_nodeResults st
  ∧ s_adjacency st' = s_adjacency st ∧ s_inDegree st' = s_inDegree st
  ∧ s_queue st' = s_queue st.
Proof.
  revert st. induction es as [|e es IH]; intros st; [done|]. simpl.
  by destruct (IH (set_edgeResults <[edge_id e := s_nodeResults st !! source e]> st))
    as (-> & -> & -> & -> & -> & -> & ->).
Qed.

Lemma gather_frame st node :
  let st' := (gather st node).2 in
  s_nodes st' = s_nodes st ∧ s_edges st' = s_edges st
  ∧ s_prevNodeResults st' = s_prevNodeResults st
  ∧ s_nodeResults st' = s_nodeResults st
  ∧ s_adjacency st' = s_adjacency st ∧ s_inDegree st' = s_inDegree st
  ∧ s_queue st' = s_queue st.
Proof.
  unfold gather. case_bool_decide; [apply record_edges_frame|].
  by destruct (isSource _).
Qed.

(** The input of the dequeued node, in terms of the upstream values. *)
Lemma gather_fst st node :
  (gather st node).1
  = match fan_in (upstream (s_edges st) (s_nodeResults st) (id node)) with
    | Some v => Some v
    | None =>
        if bool_decide (0 < length (incoming_edges (s_edges st) (id node)))%nat then None
        else if isSource (type (data node)) then s_nodeResults st !! id node
        else None
    end.
Proof.
  rewrite upstream_resolved. unfold gather. case_bool_decide as Hlen; simpl.
  - by destruct (fan_in _).
  - destruct (incoming_edges _ _); [|simpl in Hlen; lia]. simpl.
    by destruct (isSource _).
Qed.

(** An iteration, from a store whose queue starts with [nodeId]: the store
    [st1] before the neighbours are triggered, and the triggering. *)
Lemma step_Ok st st' nodeId q :
  s_queue st = nodeId :: q → step RE st = Ok st' →
  ∃ st1 neighbors,
    st' = foldl trigger st1 neighbors
    ∧ s_nodes st1 = s_nodes st ∧ s_edges st1 = s_edges st
    ∧ s_prevNodeResults st1 = s_prevNodeResults st
    ∧ s_adjacency st1 = s_adjacency st ∧ s_inDegree st1 = s_inDegree st
    ∧ s_queue st1 = q
    ∧ match List.find (λ n, bool_decide (id n = nodeId)) (s_nodes st) with
      | None => neighbors = [] ∧ s_nodeResults st1 = s_nodeResults st
      | Some node =>
          neighbors = default [] (s_adjacency st !! nodeId)
          ∧ match (gather st node).1 with
            | Some input =>
                ∃ out, process_node RE (s_prevNodeResults st) node input = Ok out
                       ∧ s_nodeResults st1 = <[id node := out]> (s_nodeResults st)
            | None => s_nodeResults st1 = s_nodeResults st
            end
      end.
Proof.
  intros Hq Hstep. unfold step in Hstep. rewrite Hq in Hstep.
  change (s_nodes (set_queue (drop 1) st)) with (s_nodes st) in Hstep.
  destruct (List.find _ (s_nodes st)) as [node|] eqn:Hfind.
  - pose proof (gather_frame (set_queue (drop 1) st) node) as Hfr.
    assert ((gather (set_queue (drop 1) st) node).1 = (gather st node).1) as Hfst
      by by rewrite !gather_fst.
    destruct (gather (set_queue (drop 1) st) node) as [inp st0]. simpl in Hfr, Hfst.
    destruct Hfr as (Hn & He & Hp & Hr & Ha & Hd & Hqu).
    rewrite <- Hfst. destruct inp as [input|].
    + rewrite Hp in Hstep.
      destruct (process_node RE _ node input) as [out| |] eqn:Hout; [|done..].
      cbn [obind] in Hstep. injection Hstep as <-.
      exists (set_nodeResults <[id node := out]> st0),
        (default [] (s_adjacency st !! nodeId)). split.
      { cbn [s_adjacency set_nodeResults]. rewrite Ha. cbn [s_adjacency set_queue].
        by destruct (s_adjacency st !! nodeId). }
      cbn [set_nodeResults s_nodes s_edges s_prevNodeResults s_adjacency s_inDegree
           s_queue s_nodeResults].
      rewrite Hn, He, Hp, Ha, Hd, Hqu, Hr. simpl. rewrite Hq. simpl.
      rewrite drop_0. repeat split; eauto.
    + cbn [obind] in Hstep. injection Hstep as <-.
      exists st0, (default [] (s_adjacency st !! nodeId)). split.
      { rewrite Ha. cbn [s_adjacency set_queue]. by destruct (s_adjacency st !! nodeId). }
      rewrite Hn, He, Hp, Ha, Hd, Hqu, Hr. simpl. rewrite Hq. simpl.
      rewrite drop_0. repeat split; eauto.
  - injection Hstep as <-. exists (set_queue (drop 1) st), []. simpl.
    rewrite Hq. simpl. by rewrite drop_0.
Qed.

End Loop.

(** ** The queue loop: invariants, exceptions, termination *)

Section Run.
Context (RE : RegExpEngine).

(** A property that every iteration preserves holds when the loop ends. *)
Lemma kahn_invariant (P : Store → Prop) :
  (∀ st st', P st → s_queue st ≠ [] → step RE st = Ok st' → P st') →
  ∀ fuel st st', P st → kahn RE fuel st = Ok st' → P st' ∧ s_queue st' = [].
Proof.
  intros Hstep. induction fuel as [|fuel IH]; intros st st' HP Hrun.
  - simpl in Hrun. destruct (s_queue st) eqn:Hq; [|done]. by injection Hrun as <-.
  - simpl in Hrun. destruct (s_queue st) eqn:Hq; [by injection Hrun as <-|].
    destruct (step RE st) as [st1| |] eqn:Hst; [|done..].
    apply (IH st1); [|done]. apply (Hstep st); [done| |done]. by rewrite Hq.
Qed.

Lemma init_node_frame st (ns : list AppNode) :
  s_nodes (foldl init_node st ns) = s_nodes st
  ∧ s_edges (foldl init_node st ns) = s_edges st
  ∧ s_prevNodeResults (foldl init_node st ns) = s_prevNodeResults st.
Proof.
  revert st. induction ns as [|n ns IH]; intros st; [done|]. simpl.
  destruct (IH (init_node st n)) as (-> & -> & ->).
  unfold init_node. by destruct (isSource _).
Qed.

Lemma init_edge_frame st (es : list AppEdge) :
  s_nodes (foldl init_edge st es) = s_nodes st
  ∧ s_edges (foldl init_edge st es) = s_edges st
  ∧ s_prevNodeResults (foldl init_edge st es) = s_prevNodeResults st
  ∧ s_nodeResults (foldl init_edge st es) = s_nodeResults st.
Proof.
  revert st. induction es as [|e es IH]; intros st; [done|]. simpl.
  destruct (IH (init_edge st e)) as (-> & -> & -> & ->).
  unfold init_edge. by destruct (s_adjacency st !! source e).
Qed.

Lemma setup_unfold nodes edges prev :
  setup nodes edges prev
  = set_queue
      (λ _, initial_queue
              (foldl init_edge (foldl init_node (mkStore nodes edges prev ∅ ∅ ∅ ∅ []) nodes)
                 edges))
      (foldl init_edge (foldl init_node (mkStore nodes edges prev ∅ ∅ ∅ ∅ []) nodes) edges).
Proof.
  unfold setup. cbv zeta. cbn [s_nodes].
  by destruct (init_node_frame (mkStore nodes edges prev ∅ ∅ ∅ ∅ []) nodes) as (_ & -> & _).
Qed.

Lemma setup_frame nodes edges prev :
  s_nodes (setup nodes edges prev) = nodes
  ∧ s_edges (setup nodes edges prev) = edges
  ∧ s_prevNodeResults (setup nodes edges prev) = prev.
Proof.
  rewrite setup_unfold. cbn [set_queue s_nodes s_edges s_prevNodeResults].
  destruct (init_edge_frame (foldl init_node (mkStore nodes edges prev ∅ ∅ ∅ ∅ []) nodes)
              edges) as (-> & -> & -> & _).
  by destruct (init_node_frame (mkStore nodes edges prev ∅ ∅ ∅ ∅ []) nodes)
    as (-> & -> & ->).
Qed.

Lemma step_frame st st' :
  step RE st = Ok st' →
  s_nodes st' = s_nodes st ∧ s_edges st' = s_edges st
  ∧ s_prevNodeResults st' = s_prevNodeResults st.
Proof.
  intros Hstep. destruct (s_queue st) as [|nodeId q] eqn:Hq.
  - unfold step in Hstep. rewrite Hq in Hstep. by injection Hstep as <-.
  - destruct (step_Ok RE st st' nodeId q Hq Hstep)
      as (st1 & ms & -> & Hn & He & Hp & _).
    destruct (trigger_all_frame st1 ms) as (-> & -> & -> & _). by rewrite Hn, He, Hp.
Qed.

(** *** Exceptions *)


Lemma processData_Ok input config : ∃ v, processData RE input config = Ok v.
Proof.
  unfold processData, new_RegExp.
  destruct (processType config) as [[]|]; try by eexists.
  - destruct input; by eexists.
  - destruct (RegExp_new RE _ "i"); by eexists.
  - destruct (RegExp_new RE _ "g"); by eexists.
Qed.





End Run.

(** ** Termination *)

Section Termination.
Context (RE : RegExpEngine).

(** *** The loop of processBatch *)

(** With a positive batch size the loop ends within one iteration per
    remaining line. *)
Lemma processBatch_for_enough fuel lines b i batches :
  0 < b → (Z.of_nat (length lines) - i ≤ Z.of_nat fuel) →
  ∃ r, processBatch_for fuel lines b i batches = Ok r.
Proof.
  intros Hb. revert i batches. induction fuel as [|fuel IH]; intros i batches Hfuel;
    simpl; case_bool_decide; eauto; [lia|].
  apply IH. lia.
Qed.

(** With a batch size that is not positive the loop never ends, unless
    there is no line at all. *)
Lemma processBatch_for_diverges fuel lines b i batches :
  b ≤ 0 → i ≤ 0 → lines ≠ [] →
  processBatch_for fuel lines b i batches = Timeout.
Proof.
  intros Hb Hi Hne. revert i batches Hi.
  assert (0 < Z.of_nat (length lines)) by (destruct lines; [done|simpl; lia]).
  induction fuel as [|fuel IH]; intros i batches Hi; simpl;
    rewrite bool_decide_eq_true_2 by lia; [done|].
  apply IH. lia.
Qed.

Lemma processBatch_for_mono fuel fuel' lines b i batches r :
  (fuel ≤ fuel')%nat →
  processBatch_for fuel lines b i batches = Ok r →
  processBatch_for fuel' lines b i batches = Ok r.
Proof.
  revert fuel' i batches. induction fuel as [|fuel IH]; intros fuel' i batches Hle;
    simpl; intros Hrun.
  - case_bool_decide as Hi; [done|]. destruct fuel'; simpl; by rewrite bool_decide_eq_false_2.
  - destruct fuel' as [|fuel']; [lia|]. simpl. case_bool_decide; [|done].
    apply IH; [lia|done].
Qed.

(** The fuel [processBatch] gives its loop decides nothing: a loop that
    ends for some fuel ends with the same result for that one. *)
Lemma processBatch_adequate fuel input b r :
  processBatch_for fuel (batch_lines input) b 0 [] = Ok r →
  processBatch input b = Ok r.
Proof.
  intros Hrun. unfold processBatch.
  destruct (decide (0 < b)) as [Hb|Hb].
  - destruct (processBatch_for_enough (length (batch_lines input)) (batch_lines input)
                b 0 [] Hb) as [r' Hr']; [lia|].
    rewrite Hr'. f_equal.
    apply (processBatch_for_mono _ (fuel + length (batch_lines input))%nat) in Hrun; [|lia].
    apply (processBatch_for_mono _ (fuel + length (batch_lines input))%nat) in Hr'; [|lia].
    congruence.
  - destruct (batch_lines input) as [|l lines] eqn:El.
    + destruct fuel; simpl in Hrun |- *; done.
    + rewrite processBatch_for_diverges in Hrun; [discriminate|lia|lia|done].
Qed.

Lemma process_node_total prev node input :
  batch_ok node → ∃ out, process_node RE prev node input = Ok out.
Proof.
  intros Hok. unfold process_node.
  destruct (type (data node)) eqn:Hty; try by eexists.
  - apply processData_Ok.
  - apply processData_Ok.
  - unfold processBatch.
    edestruct (processBatch_for_enough (length (batch_lines input))) as [r ->];
      [by apply Hok|lia|]. by eexists.
Qed.

(** *** The queue loop *)

Lemma positive_entries_alter (D : gmap string Z) m :
  positive_entries (alter (λ n, n - 1) m D)
  = match D !! m with
    | Some 1 => pred (positive_entries D)
    | _ => positive_entries D
    end.
Proof.
  unfold positive_entries. destruct (D !! m) as [c|] eqn:Hc.
  - assert (alter (λ n, n - 1) m D = <[m := c - 1]> D) as ->.
    { apply map_eq. intros j. rewrite lookup_alter, lookup_insert.
      case_decide; subst; by rewrite ?Hc. }
    rewrite map_filter_insert. case_decide as Hpos; simpl in Hpos.
    + rewrite map_size_insert_Some.
      * destruct c as [|[]|]; done || lia.
      * exists c. apply map_lookup_filter_Some. simpl. split; [done|lia].
    + rewrite map_filter_delete.
      destruct (decide (c = 1)) as [->|Hne].
      * rewrite map_size_delete_Some; [done|].
        exists 1. by apply map_lookup_filter_Some.
      * rewrite map_size_delete_None.
        { destruct c as [|[]|]; done. }
        apply map_lookup_filter_None. right. intros x. rewrite Hc.
        intros [= <-]. simpl. lia.
  - rewrite alter_id; [done|]. intros x. by rewrite Hc.
Qed.

Lemma trigger_iterations st m : iterations_left (trigger st m) = iterations_left st.
Proof.
  unfold iterations_left. rewrite trigger_queue, trigger_inDegree, positive_entries_alter.
  rewrite lookup_alter_eq. destruct (s_inDegree st !! m) as [c|] eqn:Hc; simpl.
  - case_bool_decide as Hz.
    + injection Hz as Hz. assert (c = 1) as -> by lia.
      rewrite length_app. simpl.
      assert (0 < positive_entries (s_inDegree st))%nat; [|lia].
      unfold positive_entries.
      assert (filter (λ kv : string * Z, 0 < kv.2) (s_inDegree st) !! m = Some 1) as Hin
        by by apply map_lookup_filter_Some.
      destruct (decide (size (filter (λ kv : string * Z, 0 < kv.2) (s_inDegree st)) = 0%nat))
        as [Hsz|]; [|lia].
      apply map_size_empty_inv in Hsz. by rewrite Hsz in Hin.
    + destruct (decide (c = 1)) as [->|Hne]; [by destruct Hz|].
      by destruct c as [|[]|].
  - done.
Qed.

Lemma trigger_all_iterations st ms :
  iterations_left (foldl trigger st ms) = iterations_left st.
Proof.
  revert st. induction ms as [|m ms IH]; intros st; [done|]. simpl.
  by rewrite IH, trigger_iterations.
Qed.

(** Every iteration uses up one of the iterations left. *)
Lemma step_iterations st st' :
  s_queue st ≠ [] → step RE st = Ok st' →
  S (iterations_left st') = iterations_left st.
Proof.
  intros Hne Hstep. destruct (s_queue st) as [|nodeId q] eqn:Hq; [done|].
  destruct (step_Ok RE st st' nodeId q Hq Hstep)
    as (st1 & ms & -> & _ & _ & _ & _ & Hd & Hq1 & _).
  rewrite trigger_all_iterations. unfold iterations_left. rewrite Hd, Hq1, Hq. done.
Qed.

Lemma step_total st :
  Forall batch_ok (s_nodes st) → ∃ st', step RE st = Ok st'.
Proof.
  intros Hok. unfold step. destruct (s_queue st) as [|nodeId q]; [by eexists|].
  cbn [s_nodes set_queue].
  destruct (List.find _ _) as [node|] eqn:Hfind; [|by eexists].
  apply find_some in Hfind as [Hin _]. apply list_elem_of_In in Hin.
  pose proof (gather_frame (set_queue (drop 1) st) node) as (_ & _ & Hp & _).
  destruct (gather _ node) as [[input|] st0]; [|by eexists].
  edestruct (process_node_total (s_prevNodeResults st0) node input) as [out ->].
  { by eapply Forall_forall in Hok. }
  by eexists.
Qed.

Lemma kahn_total fuel st :
  (iterations_left st ≤ fuel)%nat → Forall batch_ok (s_nodes st) →
  ∃ st', kahn RE fuel st = Ok st'.
Proof.
  revert st. induction fuel as [|fuel IH]; intros st Hfuel Hok; simpl.
  - destruct (s_queue st) eqn:Hq; [by eexists|].
    unfold iterations_left in Hfuel. rewrite Hq in Hfuel. simpl in Hfuel. lia.
  - destruct (s_queue st) eqn:Hq; [by eexists|].
    destruct (step_total st Hok) as [st1 Hst]. rewrite Hst. cbn [obind].
    apply IH.
    + apply step_iterations in Hst; [lia|by rewrite Hq].
    + apply step_frame in Hst as (-> & _). done.
Qed.

Lemma positive_entries_insert (D : gmap string Z) k v :
  (positive_entries (<[k := v]> D) ≤ S (positive_entries D))%nat.
Proof.
  unfold positive_entries. rewrite map_filter_insert. case_decide.
  - rewrite map_size_insert. destruct (_ !! k); simpl; lia.
  - rewrite map_filter_delete, map_size_delete. destruct (_ !! k); simpl; lia.
Qed.

Lemma positive_entries_insert_0 (D : gmap string Z) k :
  (positive_entries (<[k := 0%Z]> D) ≤ positive_entries D)%nat.
Proof.
  unfold positive_entries. rewrite map_filter_insert_False by (simpl; lia).
  rewrite map_filter_delete, map_size_delete. destruct (_ !! k); simpl; lia.
Qed.

Lemma init_node_positive st (ns : list AppNode) :
  (positive_entries (s_inDegree (foldl init_node st ns))
   ≤ positive_entries (s_inDegree st))%nat.
Proof.
  revert st. induction ns as [|n ns IH]; intros st; [done|]. simpl.
  etrans; [apply IH|]. unfold init_node.
  destruct (isSource _); cbn [s_inDegree set_inDegree set_adjacency set_nodeResults];
    apply positive_entries_insert_0.
Qed.

Lemma init_edge_positive st (es : list AppEdge) :
  (positive_entries (s_inDegree (foldl init_edge st es))
   ≤ length es + positive_entries (s_inDegree st))%nat.
Proof.
  revert st. induction es as [|e es IH]; intros st; [simpl; lia|]. simpl.
  etrans; [apply IH|]. unfold init_edge.
  pose proof (positive_entries_insert
    (s_inDegree (match s_adjacency st !! source e with
                 | Some targets => set_adjacency <[source e := targets ++ [target e]]> st
                 | None => st
                 end)) (target e)
    (default 0 (s_inDegree (match s_adjacency st !! source e with
                 | Some targets => set_adjacency <[source e := targets ++ [target e]]> st
                 | None => st
                 end) !! target e) + 1)) as Hle.
  cbn [s_inDegree set_inDegree].
  assert (s_inDegree (match s_adjacency st !! source e with
                 | Some targets => set_adjacency <[source e := targets ++ [target e]]> st
                 | None => st
                 end) = s_inDegree st) as Heq by by destruct (s_adjacency st !! source e).
  rewrite Heq in Hle |- *. lia.
Qed.

Lemma setup_iterations nodes edges prev :
  (iterations_left (setup nodes edges prev) ≤ length nodes + length edges)%nat.
Proof.
  rewrite setup_unfold. unfold iterations_left. cbn [set_queue s_queue s_inDegree].
  pose proof (init_edge_positive
                (foldl init_node (mkStore nodes edges prev ∅ ∅ ∅ ∅ []) nodes) edges) as Hpos.
  pose proof (init_node_positive (mkStore nodes edges prev ∅ ∅ ∅ ∅ []) nodes) as Hpos0.
  cbn [s_inDegree] in Hpos0.
  unfold positive_entries in Hpos0 at 2. rewrite map_filter_empty, map_size_empty in Hpos0.
  unfold initial_queue. rewrite length_fmap.
  destruct (init_edge_frame (foldl init_node (mkStore nodes edges prev ∅ ∅ ∅ ∅ []) nodes)
              edges) as (-> & _).
  destruct (init_node_frame (mkStore nodes edges prev ∅ ∅ ∅ ∅ []) nodes) as (-> & _).
  cbn [s_nodes].
  match goal with
  | |- context [length (filter ?P ?l)] => pose proof (length_filter P l) as Hf
  end.
  lia.
Qed.

(** The queue loop drains, and the run returns a result, whenever no BATCH
    node has a negative batch size. *)
Lemma executeFlow_store_total nodes edges prev :
  Forall batch_ok nodes → ∃ st, executeFlow_store RE nodes edges prev = Ok st.
Proof.
  intros Hok. apply kahn_total; [apply setup_iterations|].
  by destruct (setup_frame nodes edges prev) as (-> & _).
Qed.

End Termination.

(** ** C2: termination *)


(** C2 fails on the code: with a negative batch size the loop of
    [processBatch] never ends, whatever fuel it is given, and neither does
    the run of a graph that feeds a line to such a node. *)
Theorem negative_batch_size_diverges (RE : RegExpEngine) :
  (∀ fuel, processBatch_for fuel ["a"] (-1) 0 [] = Timeout)
  ∧ (∀ fuel, kahn RE fuel (setup negative_batch_nodes negative_batch_edges ∅) = Timeout)
  ∧ executeFlow RE negative_batch_nodes negative_batch_edges ∅ = Timeout.
Proof.
  split; [|split].
  - intros fuel. by apply processBatch_for_diverges.
  - intros [|[|fuel]]; vm_compute; reflexivity.
  - vm_compute. reflexivity.
Qed.

(** ** C5: dangling edges *)

(** C5 fails on the code for an edge whose source matches no node: the
    edge counts in the in-degree of its target, which is never dequeued;
    without the edge the target receives its input. *)
Theorem dangling_source_blocks_target (RE : RegExpEngine) :
  ∃ r r',
    executeFlow RE dangling_nodes dangling_edges ∅ = Ok r
    ∧ executeFlow RE dangling_nodes [mkEdge "eA-B" "A" "B"] ∅ = Ok r'
    ∧ nodeResults r !! "B" = None
    ∧ nodeResults r' !! "B" = Some (VStr "x").
Proof.
  eexists _, _. split; [vm_compute; reflexivity|].
  split; [vm_compute; reflexivity|]. split; vm_compute; reflexivity.
Qed.

(** ** The store when the loop is entered *)

Section Setup.

Lemma init_node_adjacency st (ns : list AppNode) k :
  s_adjacency (foldl init_node st ns) !! k
  = if decide (k ∈ node_ids ns) then Some [] else s_adjacency st !! k.
Proof.
  revert st. induction ns as [|n ns IH]; intros st; [done|]. simpl. rewrite IH.
  assert (s_adjacency (init_node st n) = <[id n := []]> (s_adjacency st)) as ->
    by (unfold init_node; by destruct (isSource _)).
  rewrite lookup_insert. destruct (decide (id n = k)) as [<-|Hne].
  - rewrite (decide_True (P := id n ∈ id n :: node_ids ns)) by left.
    by destruct (decide _).
  - destruct (decide (k ∈ node_ids ns)) as [Hin|Hout].
    + by rewrite decide_True by by right.
    + rewrite decide_False; [done|]. by intros [?|?]%elem_of_cons.
Qed.

Lemma init_node_inDegree st (ns : list AppNode) k :
  s_inDegree (foldl init_node st ns) !! k
  = if decide (k ∈ node_ids ns) then Some 0 else s_inDegree st !! k.
Proof.
  revert st. induction ns as [|n ns IH]; intros st; [done|]. simpl. rewrite IH.
  assert (s_inDegree (init_node st n) = <[id n := 0]> (s_inDegree st)) as ->
    by (unfold init_node; by destruct (isSource _)).
  rewrite lookup_insert. destruct (decide (id n = k)) as [<-|Hne].
  - rewrite (decide_True (P := id n ∈ id n :: node_ids ns)) by left.
    by destruct (decide _).
  - destruct (decide (k ∈ node_ids ns)) as [Hin|Hout].
    + by rewrite decide_True by by right.
    + rewrite decide_False; [done|]. by intros [?|?]%elem_of_cons.
Qed.

Lemma init_node_results_other st (ns : list AppNode) k :
  k ∉ node_ids ns → s_nodeResults (foldl init_node st ns) !! k = s_nodeResults st !! k.
Proof.
  revert st. induction ns as [|n ns IH]; intros st Hk; [done|]. simpl.
  unfold node_ids in Hk. rewrite fmap_cons in Hk. apply not_elem_of_cons in Hk as [Hne Hk].
  rewrite IH by done. unfold init_node.
  destruct (isSource _); [|done]. cbn [s_nodeResults set_nodeResults].
  by rewrite lookup_insert_ne.
Qed.

Lemma init_node_results st (ns : list AppNode) n :
  NoDup (node_ids ns) → n ∈ ns →
  s_nodeResults (foldl init_node st ns) !! id n
  = if isSource (type (data n)) then Some (seed n) else s_nodeResults st !! id n.
Proof.
  revert st. induction ns as [|n0 ns IH]; intros st Hnd Hin; [by apply elem_of_nil in Hin|].
  unfold node_ids in Hnd. rewrite fmap_cons in Hnd. apply NoDup_cons in Hnd as [Hn0 Hnd].
  simpl. apply elem_of_cons in Hin as [->|Hin].
  - rewrite init_node_results_other by done. unfold init_node.
    destruct (isSource _); [|done]. cbn [s_nodeResults set_nodeResults].
    by rewrite lookup_insert_eq.
  - rewrite IH by done. destruct (isSource (type (data n))); [done|].
    assert (id n ≠ id n0) as Hne.
    { intros Heq. apply Hn0. rewrite <- Heq. by apply list_elem_of_fmap_2. }
    unfold init_node. destruct (isSource _); [|done].
    cbn [s_nodeResults set_nodeResults]. by rewrite lookup_insert_ne.
Qed.


Lemma init_edge_adjacency st (es : list AppEdge) k :
  s_adjacency (foldl init_edge st es) !! k
  = (λ targets, targets ++ out_targets es k) <$> s_adjacency st !! k.
Proof.
  revert st. induction es as [|e es IH]; intros st.
  - simpl. unfold out_targets. simpl. destruct (s_adjacency st !! k); simpl; [|done].
    by rewrite app_nil_r.
  - simpl. rewrite IH. unfold out_targets. rewrite filter_cons.
    assert (s_adjacency (init_edge st e)
            = match s_adjacency st !! source e with
              | Some targets => <[source e := targets ++ [target e]]> (s_adjacency st)
              | None => s_adjacency st
              end) as ->
      by (unfold init_edge; by destruct (s_adjacency st !! source e)).
    destruct (decide (source e = k)) as [<-|Hne].
    + destruct (s_adjacency st !! source e) as [targets|] eqn:Hs.
      * rewrite lookup_insert_eq. simpl. by rewrite <- (assoc_L (++)).
      * by rewrite Hs.
    + destruct (s_adjacency st !! source e) as [targets|] eqn:Hs; [|done].
      by rewrite lookup_insert_ne.
Qed.

Lemma init_edge_inDegree st (es : list AppEdge) k c :
  s_inDegree st !! k = Some c →
  s_inDegree (foldl init_edge st es) !! k
  = Some (c + Z.of_nat (length (filter (λ e, target e = k) es))).
Proof.
  revert st c. induction es as [|e es IH]; intros st c Hc.
  - simpl. rewrite Hc. f_equal. lia.
  - simpl. rewrite filter_cons.
    assert (s_inDegree (init_edge st e)
            = <[target e := default 0 (s_inDegree st !! target e) + 1]> (s_inDegree st)) as Hd
      by (unfold init_edge; by destruct (s_adjacency st !! source e)).
    case_decide as Hk.
    + rewrite (IH _ (c + 1)).
      * f_equal. simpl. lia.
      * rewrite Hd. subst k. by rewrite lookup_insert_eq, Hc.
    + rewrite (IH _ c); [done|]. rewrite Hd. by rewrite lookup_insert_ne.
Qed.


End Setup.

(** ** The invariant of the queue loop on a well-formed graph *)

Section Invariant.
Context (RE : RegExpEngine) (nodes : list AppNode) (edges : list AppEdge)
  (prev : gmap string value).
Hypothesis Hwf : well_formed nodes edges.

Lemma find_node k n :
  List.find (λ n, bool_decide (id n = k)) nodes = Some n → n ∈ nodes ∧ id n = k.
Proof.
  intros [Hin Hid]%find_some. apply list_elem_of_In in Hin.
  by apply bool_decide_eq_true in Hid.
Qed.

Lemma node_unique n n' : n ∈ nodes → n' ∈ nodes → id n = id n' → n = n'.
Proof.
  destruct Hwf as [Hnd _]. unfold node_ids in Hnd. clear Hwf.
  induction nodes as [|n0 ns IH]; intros Hn Hn' Hid; [by apply elem_of_nil in Hn|].
  rewrite fmap_cons in Hnd. apply NoDup_cons in Hnd as [Hn0 Hnd].
  apply elem_of_cons in Hn as [->|Hn]; apply elem_of_cons in Hn' as [->|Hn']; try done.
  - exfalso. apply Hn0. rewrite Hid. by apply list_elem_of_fmap_2.
  - exfalso. apply Hn0. rewrite <- Hid. by apply list_elem_of_fmap_2.
  - by apply IH.
Qed.

Lemma find_node_id n :
  n ∈ nodes → List.find (λ n', bool_decide (id n' = id n)) nodes = Some n.
Proof.
  intros Hin. destruct (List.find _ nodes) as [n'|] eqn:Hfind.
  - apply find_node in Hfind as [Hin' Hid]. f_equal. by apply node_unique.
  - eapply find_none in Hfind; [|by apply list_elem_of_In].
    by rewrite bool_decide_eq_true_2 in Hfind.
Qed.

Lemma node_of_id k : k ∈ node_ids nodes → ∃ n, n ∈ nodes ∧ id n = k.
Proof. intros (n & -> & Hin)%list_elem_of_fmap. eauto. Qed.

Lemma NoDup_fmap_filter {A B} (f : A → B) (P : A → Prop) `{!∀ x, Decision (P x)}
    (l : list A) :
  NoDup (f <$> l) → NoDup (f <$> filter P l).
Proof.
  induction l as [|x l IH]; [done|]. rewrite fmap_cons, NoDup_cons. intros [Hx Hl].
  rewrite filter_cons. case_decide; [|by apply IH].
  rewrite fmap_cons, NoDup_cons. split; [|by apply IH].
  intros (y & Hy & [_ Hin]%list_elem_of_filter)%list_elem_of_fmap.
  apply Hx. rewrite Hy. by apply list_elem_of_fmap_2.
Qed.

Lemma pending_empty n : pending edges ∅ n = filter (λ e, target e = n) edges.
Proof. apply list_filter_iff. set_solver. Qed.

Lemma setup_inv : kahn_inv RE nodes edges prev ∅ (setup nodes edges prev).
Proof.
  destruct Hwf as [Hnd Hedges].
  destruct (setup_frame nodes edges prev) as (Hn & He & Hp).
  assert (∀ n, n ∈ node_ids nodes →
            s_inDegree (setup nodes edges prev) !! n
            = Some (Z.of_nat (length (pending edges ∅ n)))) as HD.
  { intros n Hin. rewrite setup_unfold. cbn [s_inDegree set_queue].
    rewrite (init_edge_inDegree _ _ _ 0).
    - by rewrite pending_empty.
    - by rewrite init_node_inDegree, decide_True. }
  assert (s_queue (setup nodes edges prev)
          = id <$> filter (λ n, s_inDegree (setup nodes edges prev) !! id n = Some 0) nodes)
    as HQ.
  { rewrite setup_unfold at 1. cbn [s_queue set_queue]. unfold initial_queue.
    rewrite setup_unfold. cbn [s_inDegree set_queue].
    destruct (init_edge_frame (foldl init_node (mkStore nodes edges prev ∅ ∅ ∅ ∅ []) nodes)
                edges) as (-> & _).
    by destruct (init_node_frame (mkStore nodes edges prev ∅ ∅ ∅ ∅ []) nodes) as (-> & _). }
  assert (s_nodeResults (setup nodes edges prev)
          = s_nodeResults (foldl init_node (mkStore nodes edges prev ∅ ∅ ∅ ∅ []) nodes))
    as HR.
  { rewrite setup_unfold. cbn [s_nodeResults set_queue].
    by destruct (init_edge_frame (foldl init_node (mkStore nodes edges prev ∅ ∅ ∅ ∅ []) nodes)
                   edges) as (_ & _ & _ & ->). }
  split; try done.
  - intros n. rewrite setup_unfold. cbn [s_adjacency set_queue].
    rewrite init_edge_adjacency, init_node_adjacency. by case_decide.
  - rewrite HQ. by apply NoDup_fmap_filter.
  - intros n. rewrite HQ. split.
    + intros (node & -> & [HD0 Hin]%list_elem_of_filter)%list_elem_of_fmap.
      split; [by apply list_elem_of_fmap_2|]. split; [set_solver|done].
    + intros (Hin & _ & HD0). apply node_of_id in Hin as (node & Hin & <-).
      apply list_elem_of_fmap_2. by apply list_elem_of_filter.
  - intros n [v Hv]. rewrite HR in Hv.
    destruct (decide (n ∈ node_ids nodes)) as [|Hout]; [done|].
    by rewrite init_node_results_other in Hv.
  - intros node Hin. rewrite decide_False by set_solver.
    rewrite HR, init_node_results by done. by destruct (isSource _).
Qed.

(** *** Triggering the neighbours *)

Lemma trigger_all_inDegree st (ms : list string) k :
  s_inDegree (foldl trigger st ms) !! k
  = (λ c, c - Z.of_nat (length (filter (λ m, m = k) ms))) <$> s_inDegree st !! k.
Proof.
  revert st. induction ms as [|m ms IH]; intros st.
  - simpl. destruct (s_inDegree st !! k); simpl; [f_equal; lia|done].
  - simpl. rewrite IH, trigger_inDegree, lookup_alter, filter_cons.
    case_decide; [|done]. subst m.
    destruct (s_inDegree st !! k); simpl; [f_equal; lia|done].
Qed.

Lemma filter_eq_absent (ms : list string) k :
  k ∉ ms → length (filter (λ m, m = k) ms) = 0%nat.
Proof.
  intros Hk. destruct (filter _ ms) as [|x l] eqn:E; [done|].
  assert (x ∈ filter (λ m, m = k) ms) as [-> ?]%list_elem_of_filter by (rewrite E; left).
  done.
Qed.

(** The neighbours whose counter reaches zero are pushed, each once. *)
Lemma trigger_all_queue st (ms : list string) :
  (∀ m, m ∈ ms → ∃ c, s_inDegree st !! m = Some c ∧ 0 < c) →
  ∃ pushed,
    s_queue (foldl trigger st ms) = s_queue st ++ pushed
    ∧ NoDup pushed
    ∧ ∀ x, x ∈ pushed ↔
        x ∈ ms ∧ ∃ c, s_inDegree (foldl trigger st ms) !! x = Some c ∧ c ≤ 0.
Proof.
  induction ms as [|m ms IH] using rev_ind; intros Hpos.
  - exists []. simpl. rewrite app_nil_r. split; [done|]. split; [constructor|].
    intros x. split; [by intros ?%elem_of_nil|by intros [?%elem_of_nil _]].
  - destruct IH as (pushed & Hq & Hnd & Hiff).
    { intros x Hx. apply Hpos, elem_of_app. by left. }
    destruct (Hpos m) as (c & Hc & Hc0); [apply elem_of_app; right; by left|].
    rewrite foldl_app. simpl. set (st1 := foldl trigger st ms) in *.
    pose proof (trigger_all_inDegree st ms m) as Hm. fold st1 in Hm.
    rewrite Hc in Hm. simpl in Hm.
    set (count := Z.of_nat (length (filter (λ m0, m0 = m) ms))) in *.
    assert (m ∉ ms → count = 0) as Hcount.
    { intros Hout. unfold count. by rewrite filter_eq_absent. }
    assert (∀ x, s_inDegree (trigger st1 m) !! x
                 = if decide (m = x) then Some (c - count - 1) else s_inDegree st1 !! x)
      as Hlook.
    { intros x. rewrite trigger_inDegree, lookup_alter. case_decide; [|done].
      subst x. by rewrite Hm. }
    rewrite trigger_queue, lookup_alter_eq, Hm. simpl. case_bool_decide as Hz.
    + injection Hz as Hz. exists (pushed ++ [m]). rewrite Hq, <- (assoc_L (++)).
      split; [done|].
      assert (m ∉ pushed) as Hfresh.
      { intros (_ & c' & Hc' & Hle)%Hiff. rewrite Hm in Hc'. injection Hc' as <-. lia. }
      split.
      { apply NoDup_app. split; [done|]. split; [|apply NoDup_singleton].
        intros x Hx ->%list_elem_of_singleton. done. }
      intros x. rewrite !elem_of_app, !list_elem_of_singleton, Hlook, Hiff.
      case_decide as Hx.
      * subst x. split; [|naive_solver]. intros _. split; [by right|].
        exists (c - count - 1). split; [done|lia].
      * naive_solver.
    + exists pushed. split; [done|]. split; [done|].
      intros x. rewrite elem_of_app, list_elem_of_singleton, Hlook, Hiff.
      case_decide as Hx; [|naive_solver].
      subst x. rewrite Hm. split.
      * intros (Hin & c' & [= <-] & Hle). split; [by left|].
        exists (c - count - 1). split; [done|lia].
      * intros (_ & c' & [= <-] & Hle).
        assert (c - count ≠ 1) by (intros Heq; apply Hz; f_equal; lia).
        destruct (decide (m ∈ ms)) as [Hin|Hout].
        -- split; [done|]. exists (c - count). split; [done|lia].
        -- apply Hcount in Hout. lia.
Qed.

(** *** Counting the pending edges *)

Lemma pending_split (done : gset string) nodeId n :
  nodeId ∉ done →
  length (pending edges done n)
  = (length (pending edges (done ∪ {[nodeId]}) n)
     + length (filter (λ m, m = n) (out_targets edges nodeId)))%nat.
Proof.
  intros Hfresh. unfold pending, out_targets. clear Hwf.
  induction edges as [|e es IH]; [done|].
  rewrite !filter_cons.
  destruct (decide (target e = n ∧ source e ∉ done)) as [[Ht Hs]|Hno];
    destruct (decide (target e = n ∧ source e ∉ done ∪ {[nodeId]})) as [[Ht' Hs']|Hno'];
    destruct (decide (source e = nodeId)) as [Hsrc|Hsrc];
    rewrite ?fmap_cons, ?filter_cons; try case_decide; simpl; rewrite ?IH;
    try lia; exfalso; set_solver.
Qed.

Lemma pending_pos (done : gset string) n e :
  e ∈ edges → target e = n → source e ∉ done →
  (0 < length (pending edges done n))%nat.
Proof.
  intros Hin Ht Hs. assert (e ∈ pending edges done n) as Hp
    by by apply list_elem_of_filter.
  destruct (pending edges done n); [by apply elem_of_nil in Hp|simpl; lia].
Qed.

Lemma pending_nil (done : gset string) n e :
  length (pending edges done n) = 0%nat → e ∈ edges → target e = n → source e ∈ done.
Proof.
  intros Hlen Hin Ht. destruct (decide (source e ∈ done)) as [|Hout]; [done|].
  pose proof (pending_pos done n e Hin Ht Hout). lia.
Qed.

Lemma elem_of_out_targets n m :
  m ∈ out_targets edges n ↔ ∃ e, e ∈ edges ∧ source e = n ∧ target e = m.
Proof.
  unfold out_targets. rewrite list_elem_of_fmap. split.
  - intros (e & -> & [Hs Hin]%list_elem_of_filter). eauto.
  - intros (e & Hin & Hs & <-). exists e. split; [done|]. by apply list_elem_of_filter.
Qed.

(** *** The upstream values *)

Lemma omap_ext_in {A B} (f g : A → option B) (l : list A) :
  (∀ x, x ∈ l → f x = g x) → omap f l = omap g l.
Proof.
  induction l as [|x l IH]; intros Hfg; [done|].
  cbn. rewrite (Hfg x) by left. rewrite IH; [done|].
  intros y Hy. apply Hfg. by right.
Qed.

Lemma upstream_agree (R R1 : gmap string value) k :
  (∀ e, e ∈ edges → target e = k → R1 !! source e = R !! source e) →
  upstream edges R1 k = upstream edges R k.
Proof.
  intros Hag. rewrite !upstream_resolved. unfold resolved_inputs, incoming_edges.
  apply omap_ext_in. intros e [Ht Hin]%list_elem_of_filter. by apply Hag.
Qed.

Lemma upstream_elem (R : gmap string value) k v :
  v ∈ upstream edges R k ↔ ∃ e, e ∈ edges ∧ target e = k ∧ R !! source e = Some v.
Proof.
  rewrite upstream_resolved. unfold resolved_inputs, incoming_edges.
  rewrite list_elem_of_omap. split.
  - intros (e & [Ht Hin]%list_elem_of_filter & Hv). eauto.
  - intros (e & Hin & Ht & Hv). exists e. split; [|done]. by apply list_elem_of_filter.
Qed.

Lemma fan_in_Some (inputs : list value) : is_Some (fan_in inputs) ↔ inputs ≠ [].
Proof.
  split.
  - by intros [v Hv] ->.
  - intros Hne. rewrite fan_in_spec by done. by eexists.
Qed.

Lemma node_equation_agree (R R1 : gmap string value) node :
  R1 !! id node = R !! id node →
  upstream edges R1 (id node) = upstream edges R (id node) →
  node_equation RE edges prev R node → node_equation RE edges prev R1 node.
Proof. unfold node_equation. by intros -> ->. Qed.

Lemma process_node_source node v :
  isSource (type (data node)) = true → process_node RE prev node v = Ok v.
Proof. unfold process_node. by destruct (type (data node)). Qed.

(** *** An iteration preserves the invariant *)

Lemma step_inv (done : gset string) st st' nodeId q :
  kahn_inv RE nodes edges prev done st →
  s_queue st = nodeId :: q → step RE st = Ok st' →
  kahn_inv RE nodes edges prev (done ∪ {[nodeId]}) st'.
Proof.
  intros [Hn He Hp Hadj HD Hqnd Hq Hdids Hdpreds Hrids Hres] Hqueue Hstep.
  destruct Hwf as [Hnd Hedges].
  (* the dequeued node *)
  destruct (proj1 (Hq nodeId)) as (Hid & Hfresh & HD0); [rewrite Hqueue; left|].
  destruct (node_of_id nodeId Hid) as (node & Hin & Hnode).
  assert (length (pending edges done nodeId) = 0%nat) as Hpend.
  { rewrite HD in HD0 by done. injection HD0 as HD0. lia. }
  assert (∀ e, e ∈ edges → target e = nodeId → source e ∈ done) as Hpreds
    by (intros e; by apply pending_nil).
  assert (∀ e, e ∈ edges → target e = nodeId → source e ≠ nodeId) as Hnoloop.
  { intros e H1 H2 H3. apply Hfresh. rewrite <- H3. by apply Hpreds. }
  (* the iteration *)
  destruct (step_Ok RE st st' nodeId q Hqueue Hstep)
    as (st1 & ms & -> & Hn1 & He1 & Hp1 & Ha1 & Hd1 & Hq1 & Hfind).
  rewrite Hn, <- Hnode, find_node_id in Hfind by done. rewrite Hnode in Hfind.
  destruct Hfind as [Hms HR1].
  rewrite Hadj, decide_True in Hms by done. simpl in Hms. subst ms.
  destruct (trigger_all_frame st1 (out_targets edges nodeId))
    as (Hn' & He' & Hp' & Hr' & _ & Ha').
  (* the neighbours have a positive counter *)
  assert (∀ m, m ∈ out_targets edges nodeId →
            m ∈ node_ids nodes ∧ m ≠ nodeId ∧ (m ∉ done)
            ∧ ∃ c, s_inDegree st1 !! m = Some c ∧ 0 < c) as Hneigh.
  { intros m (e & Hein & Hs & Ht)%elem_of_out_targets.
    destruct (Hedges e Hein) as [_ Htid]. rewrite Ht in Htid.
    split; [done|]. split; [intros ->; by eapply Hnoloop|]. split.
    - intros Hdone. apply Hfresh. rewrite <- Hs. apply Hdpreds; [done|by rewrite Ht].
    - rewrite Hd1, HD by done. eexists. split; [done|].
      assert (0 < length (pending edges done m))%nat; [|lia].
      apply (pending_pos done m e); [done..|]. by rewrite Hs. }
  (* the counters afterwards *)
  assert (∀ n, n ∈ node_ids nodes →
            s_inDegree (foldl trigger st1 (out_targets edges nodeId)) !! n
            = Some (Z.of_nat (length (pending edges (done ∪ {[nodeId]}) n)))) as HD'.
  { intros n Hnid. rewrite trigger_all_inDegree, Hd1, HD by done. simpl. f_equal.
    rewrite (pending_split done nodeId n) by done. lia. }
  (* the queue afterwards *)
  destruct (trigger_all_queue st1 (out_targets edges nodeId)) as (pushed & Hq' & Hpnd & Hpushed).
  { intros m Hm. by destruct (Hneigh m Hm) as (_ & _ & _ & ?). }
  rewrite Hq1 in Hq'.
  rewrite Hqueue in Hqnd, Hq. apply NoDup_cons in Hqnd as [Hnq Hqnd].
  (* the results afterwards *)
  assert (∀ k, k ≠ nodeId → s_nodeResults st1 !! k = s_nodeResults st !! k) as Hother.
  { intros k Hk. destruct ((gather st node).1).
    - destruct HR1 as (out & _ & ->). by rewrite lookup_insert_ne.
    - by rewrite HR1. }
  assert (upstream edges (s_nodeResults st1) nodeId
          = upstream edges (s_nodeResults st) nodeId) as Hup.
  { apply upstream_agree. intros e H1 H2. apply Hother. by apply Hnoloop. }
  split.
  - by rewrite Hn', Hn1.
  - by rewrite He', He1.
  - by rewrite Hp', Hp1.
  - intros n. by rewrite Ha', Ha1.
  - done.
  - rewrite Hq'. apply NoDup_app. split; [done|]. split; [|done].
    intros x Hx (Hxm & _)%Hpushed.
    destruct (Hneigh x Hxm) as (_ & _ & _ & c & Hc & Hc0).
    destruct (proj1 (Hq x)) as (_ & _ & Hx0); [by right|].
    rewrite Hd1, Hx0 in Hc. injection Hc as <-. lia.
  - intros n. rewrite Hq', elem_of_app. split.
    + intros [Hnq'|(Hnm & c & Hc & Hc0)%Hpushed].
      * destruct (proj1 (Hq n)) as (Hnid & Hnd' & Hn0); [by right|].
        split; [done|]. split.
        { apply not_elem_of_union. split; [done|]. apply not_elem_of_singleton.
          intros ->. done. }
        rewrite trigger_all_inDegree, Hd1, Hn0. simpl. f_equal.
        rewrite filter_eq_absent; [done|].
        intros Hnm. destruct (Hneigh n Hnm) as (_ & _ & _ & c & Hc & Hc0).
        rewrite Hd1, Hn0 in Hc. injection Hc as <-. lia.
      * destruct (Hneigh n Hnm) as (Hnid & Hne & Hnd' & _).
        split; [done|]. split.
        { apply not_elem_of_union. split; [done|]. by apply not_elem_of_singleton. }
        rewrite HD' in Hc |- * by done. injection Hc as <-. f_equal. lia.
    + intros (Hnid & Hnd' & Hn0).
      apply not_elem_of_union in Hnd' as [Hnd' Hne%not_elem_of_singleton].
      destruct (decide (n ∈ out_targets edges nodeId)) as [Hnm|Hnm].
      * right. apply Hpushed. split; [done|]. exists 0. by split.
      * left. rewrite trigger_all_inDegree, Hd1 in Hn0.
        rewrite filter_eq_absent in Hn0 by done.
        assert (n ∈ nodeId :: q) as [ -> | Hnq']%elem_of_cons; [|done|done].
        apply Hq. split; [done|]. split; [done|].
        destruct (s_inDegree st !! n); simpl in Hn0; [|done].
        injection Hn0 as Hn0. f_equal. lia.
  - intros n [Hnd'| ->%elem_of_singleton]%elem_of_union; [by apply Hdids|done].
  - intros e Hein [Ht|Ht%elem_of_singleton]%elem_of_union.
    + apply elem_of_union. left. by apply Hdpreds.
    + apply elem_of_union. left. by apply Hpreds.
  - intros n. rewrite Hr'. destruct (decide (n = nodeId)) as [->|Hne]; [done|].
    rewrite Hother by done. apply Hrids.
  - intros node' Hin'. rewrite Hr'.
    destruct (decide (id node' = nodeId)) as [Heq|Hne].
    + assert (node' = node) as -> by (apply node_unique; [done..|by rewrite Hnode]).
      rewrite decide_True by (rewrite Hnode; set_solver).
      pose proof (Hres node Hin) as Hold. rewrite decide_False in Hold by by rewrite Hnode.
      unfold node_equation. rewrite Hnode, Hup.
      rewrite gather_fst, He, Hnode in HR1.
      destruct (fan_in (upstream edges (s_nodeResults st) nodeId)) as [input|].
      * destruct HR1 as (out & Hout & ->). exists out.
        rewrite Hp in Hout. split; [done|]. by rewrite lookup_insert_eq.
      * case_bool_decide.
        { rewrite HR1. by rewrite <- Hnode. }
        destruct (isSource (type (data node))) eqn:Hsrc.
        -- rewrite <- Hnode, Hold in HR1. destruct HR1 as (out & Hout & ->).
           rewrite Hp, process_node_source in Hout by done. injection Hout as <-.
           by rewrite Hnode, lookup_insert_eq.
        -- rewrite HR1. by rewrite <- Hnode.
    + pose proof (Hres node' Hin') as Hold.
      destruct (decide (id node' ∈ done)) as [Hdone|Hnot].
      * rewrite decide_True by set_solver.
        apply (node_equation_agree (s_nodeResults st)); [by apply Hother| |done].
        apply upstream_agree. intros e H1 H2. apply Hother.
        intros Hs. apply Hfresh. rewrite <- Hs. apply Hdpreds; [done|]. by rewrite H2.
      * rewrite decide_False by set_solver. by rewrite Hother.
Qed.

(** *** The loop as a whole *)

Lemma kahn_inv_run fuel st st' (done : gset string) :
  kahn_inv RE nodes edges prev done st → kahn RE fuel st = Ok st' →
  (∃ done', kahn_inv RE nodes edges prev done' st') ∧ s_queue st' = [].
Proof.
  intros Hinv Hrun.
  apply (kahn_invariant RE (λ st, ∃ done, kahn_inv RE nodes edges prev done st))
    with (fuel := fuel) (st := st); [|by exists done|done].
  intros st0 st1 [done0 Hinv0] Hne Hstep.
  destruct (s_queue st0) as [|nodeId q] eqn:Hq; [done|].
  exists (done0 ∪ {[nodeId]}). by eapply step_inv.
Qed.

(** *** Acyclic graphs: every node is dequeued *)

Lemma tc_flip_edge a b : tc (flip (edge_rel edges)) a b → tc (edge_rel edges) b a.
Proof.
  induction 1 as [x y Hxy|x y z Hxy _ IH]; [by apply tc_once|].
  eapply tc_r; [exact IH|exact Hxy].
Qed.

(** Without cycles, induction along the edges is available. *)
Lemma acyclic_Acc : acyclic edges → ∀ n, Acc (edge_rel edges) n.
Proof.
  intros Hacyc n. apply (tc_finite_sn (R := flip (edge_rel edges)) n).
  - intros a Ha%tc_flip_edge. by apply (Hacyc a).
  - exists (source <$> edges). intros y Hy.
    induction Hy as [x y (e & Hin & <- & _)|x y z _ _ IH]; [|done].
    by apply list_elem_of_fmap_2.
Qed.

Lemma all_done (done : gset string) st :
  kahn_inv RE nodes edges prev done st → s_queue st = [] → acyclic edges →
  ∀ n, n ∈ node_ids nodes → n ∈ done.
Proof.
  intros [_ _ _ _ HD _ Hq _ _ _ _] Hempty Hacyc n.
  destruct Hwf as [_ Hedges].
  induction (acyclic_Acc Hacyc n) as [n _ IH]. intros Hid.
  destruct (decide (n ∈ done)) as [|Hnot]; [done|]. exfalso.
  assert (pending edges done n = []) as Hpend.
  { unfold pending. destruct (filter _ edges) as [|e l] eqn:E; [done|].
    assert (e ∈ filter (λ e, target e = n ∧ source e ∉ done) edges)
      as [[Ht Hs] Hin]%list_elem_of_filter by (rewrite E; left).
    destruct Hs. apply IH; [by exists e|]. by apply Hedges. }
  assert (n ∈ s_queue st) as Hin; [|rewrite Hempty in Hin; by apply elem_of_nil in Hin].
  apply Hq. split; [done|]. split; [done|]. by rewrite HD, Hpend.
Qed.

End Invariant.

(** ** The result map of a well-formed acyclic graph *)

Section Equations.
Context (RE : RegExpEngine) (nodes : list AppNode) (edges : list AppEdge)
  (prev : gmap string value).

(** On a well-formed acyclic graph without negative batch size, the run
    returns, the entries of the node-output map belong to nodes, and the
    map satisfies the equation of every node. *)
Lemma executeFlow_equations :
  well_formed nodes edges → acyclic edges → Forall batch_ok nodes →
  ∃ r, executeFlow RE nodes edges prev = Ok r
       ∧ (∀ n, is_Some (nodeResults r !! n) → n ∈ node_ids nodes)
       ∧ ∀ node, node ∈ nodes → node_equation RE edges prev (nodeResults r) node.
Proof.
  intros Hwf Hacyc Hok.
  destruct (executeFlow_store_total RE nodes edges prev Hok) as [st Hrun].
  unfold executeFlow. rewrite Hrun. cbn [obind]. eexists. split; [done|].
  cbn [nodeResults]. unfold executeFlow_store in Hrun.
  apply (kahn_inv_run RE nodes edges prev Hwf _ _ _ ∅) in Hrun as [[done Hinv] Hempty];
    [|by apply setup_inv].
  split; [apply Hinv|].
  intros node Hin. pose proof (inv_results _ _ _ _ _ _ Hinv node Hin) as Hres.
  rewrite decide_True in Hres; [done|].
  eapply all_done; [done..|]. by apply list_elem_of_fmap_2.
Qed.

End Equations.

(** ** C1: which nodes receive an output *)

(** A numbering that increases along every edge rules out cycles. *)
Lemma acyclic_rank (edges : list AppEdge) (rank : string → nat) :
  (∀ e, e ∈ edges → (rank (source e) < rank (target e))%nat) → acyclic edges.
Proof.
  intros Hrank a Ha.
  assert (∀ x y, tc (edge_rel edges) x y → (rank x < rank y)%nat) as Hlt.
  { induction 1 as [x y (e & Hin & <- & <-)|x y z (e & Hin & <- & <-) _ IH].
    - by apply Hrank.
    - etrans; [by apply Hrank|done]. }
  apply Hlt in Ha. lia.
Qed.

Section Outputs.
Context (RE : RegExpEngine) (nodes : list AppNode) (edges : list AppEdge)
  (prev : gmap string value).

(** C1 (amended): on an acyclic graph (unique node ids, every edge joining
    two nodes, no directed cycle) without negative batch size and whose ids
    are not names of members of [Object.prototype], for every
    previous-output map, the run returns and a node has an entry in the
    node-output map exactly when it is reachable from a Source node (INPUT
    or EMITTER); a map holding one entry per key, that entry is the only
    one. *)
Theorem outputs_reachable_from_source :
  plain_graph nodes edges →
  well_formed nodes edges → acyclic edges → Forall batch_ok nodes →
  ∃ r, executeFlow RE nodes edges prev = Ok r
       ∧ ∀ n, is_Some (nodeResults r !! n) ↔ reachable_from_source nodes edges n.
Proof.
  intros _ Hwf Hacyc Hok.
  destruct (executeFlow_equations RE nodes edges prev Hwf Hacyc Hok)
    as (r & Hrun & Hids & Heq).
  exists r. split; [done|]. intros n. split.
  - induction (acyclic_Acc edges Hacyc n) as [n _ IH]. intros Hsome.
    destruct (node_of_id nodes n (Hids n Hsome)) as (node & Hin & <-).
    specialize (Heq node Hin). unfold node_equation in Heq.
    destruct (fan_in (upstream edges (nodeResults r) (id node))) as [input|] eqn:Hfan.
    + assert (upstream edges (nodeResults r) (id node) ≠ []) as Hne
        by (apply fan_in_Some; by eexists).
      destruct (upstream edges (nodeResults r) (id node)) as [|v l] eqn:Hup; [done|].
      assert (v ∈ upstream edges (nodeResults r) (id node)) as Hv by (rewrite Hup; left).
      apply upstream_elem in Hv as (e & Hein & Ht & Hv).
      destruct (IH (source e)) as (s & Hs & Hsrc & Hpath); [by exists e|by eexists|].
      exists s. split; [done|]. split; [done|].
      eapply rtc_r; [exact Hpath|]. by exists e.
    + rewrite Heq in Hsome. destruct (isSource (type (data node))) eqn:Hsrc.
      * by exists node.
      * by destruct Hsome.
  - intros (s & Hs & Hsrc & Hpath). revert n Hpath. apply rtc_ind_r.
    + specialize (Heq s Hs). unfold node_equation in Heq. rewrite Hsrc in Heq.
      destruct (fan_in _) as [input|]; [|by eexists].
      destruct Heq as (out & _ & ->). by eexists.
    + intros m n Hpath (e & Hein & <- & <-) [v Hv].
      destruct Hwf as [_ Hedges]. destruct (Hedges e Hein) as [_ Ht].
      destruct (node_of_id nodes (target e) Ht) as (node & Hin & Hid).
      specialize (Heq node Hin). unfold node_equation in Heq. rewrite Hid in Heq.
      assert (v ∈ upstream edges (nodeResults r) (target e)) as Hup
        by (apply upstream_elem; by exists e).
      destruct (fan_in (upstream edges (nodeResults r) (target e))) as [input|] eqn:Hfan.
      * destruct Heq as (out & _ & ->). by eexists.
      * assert (is_Some (fan_in (upstream edges (nodeResults r) (target e)))) as [? Hf].
        { apply fan_in_Some. intros Hnil. rewrite Hnil in Hup. by apply elem_of_nil in Hup. }
        by rewrite Hfan in Hf.
Qed.

(** C10 (amended): on an acyclic graph as above (its ids not naming
    members of [Object.prototype]), the output of a Source
    node is the aggregation of its upstream values when at least one of
    its incoming edges comes from a node that has an output, and the value
    seeded from its pattern parameter (the empty string when that is absent)
    otherwise: when it has no incoming edge, or none whose source has an
    output. *)
Theorem source_node_output (node : AppNode) :
  plain_graph nodes edges →
  well_formed nodes edges → acyclic edges → Forall batch_ok nodes →
  node ∈ nodes → isSource (type (data node)) = true →
  ∃ r, executeFlow RE nodes edges prev = Ok r
       ∧ nodeResults r !! id node
         = Some (default (seed node) (fan_in (upstream edges (nodeResults r) (id node))))
       ∧ (is_Some (fan_in (upstream edges (nodeResults r) (id node)))
          ↔ ∃ e, e ∈ edges ∧ target e = id node ∧ is_Some (nodeResults r !! source e))
       ∧ seed node = VStr (default "" (param pattern (params (data node)))).
Proof.
  intros _ Hwf Hacyc Hok Hin Hsrc.
  destruct (executeFlow_equations RE nodes edges prev Hwf Hacyc Hok)
    as (r & Hrun & Hids & Heq).
  exists r. split; [done|]. specialize (Heq node Hin). unfold node_equation in Heq.
  rewrite Hsrc in Heq. split; [|split].
  - destruct (fan_in _) as [input|]; [|done]. destruct Heq as (out & Hout & ->).
    rewrite process_node_source in Hout by done. by injection Hout as <-.
  - rewrite fan_in_Some. split.
    + intros Hne. destruct (upstream edges (nodeResults r) (id node)) as [|v l] eqn:Hup;
        [done|].
      assert (v ∈ upstream edges (nodeResults r) (id node)) as Hv by (rewrite Hup; left).
      apply upstream_elem in Hv as (e & Hein & Ht & Hv). exists e. eauto.
    + intros (e & Hein & Ht & [v Hv]) Hnil.
      assert (v ∈ upstream edges (nodeResults r) (id node)) as Hup
        by (apply upstream_elem; by exists e).
      rewrite Hnil in Hup. by apply elem_of_nil in Hup.
  - unfold seed. by rewrite str_or_self.
Qed.

End Outputs.

Lemma outputs_reachable_from_source_witness :
  ∃ r, executeFlow plain_engine diamond_nodes diamond_edges ∅ = Ok r
       ∧ ∀ n, is_Some (nodeResults r !! n)
              ↔ reachable_from_source diamond_nodes diamond_edges n.
Proof.
  apply (outputs_reachable_from_source plain_engine diamond_nodes diamond_edges ∅).
  - compute_done.
  - split; [compute_done|].
    apply Forall_forall. repeat constructor; compute_done.
  - apply (acyclic_rank _ diamond_rank). apply Forall_forall.
    repeat constructor; vm_compute; lia.
  - compute_done.
Defined.

(** C1, as the specification states it, fails: a node without incoming
    edge that is not a Source node has no input, so that neither it nor
    the nodes reached from it alone receive an entry. *)
Lemma outputs_counterexample :
  well_formed unfed_nodes unfed_edges ∧ acyclic unfed_edges
  ∧ reachable_from_root unfed_nodes unfed_edges "p"
  ∧ reachable_from_root unfed_nodes unfed_edges "o"
  ∧ ∃ r, executeFlow plain_engine unfed_nodes unfed_edges ∅ = Ok r
         ∧ nodeResults r !! "p" = None ∧ nodeResults r !! "o" = None.
Proof.
  assert (zero_in_degree unfed_edges "p") as Hroot.
  { intros e ->%list_elem_of_singleton. discriminate. }
  split; [|split; [|split; [|split]]].
  - split; [compute_done|].
    apply Forall_forall. repeat constructor; compute_done.
  - apply (acyclic_rank _ (λ n, if bool_decide (n = "p") then 0%nat else 1%nat)).
    apply Forall_forall. repeat constructor; vm_compute; lia.
  - exists "p". split; [left|]. split; [done|]. apply rtc_refl.
  - exists "p". split; [left|]. split; [done|]. apply rtc_once.
    exists (mkEdge "ep-o" "p" "o"). split; [left|done].
  - eexists. split; [vm_compute; reflexivity|]. split; vm_compute; reflexivity.
Qed.

Lemma source_node_output_witness :
  ∃ r, executeFlow plain_engine chained_source_nodes chained_source_edges ∅ = Ok r
       ∧ nodeResults r !! "B"
         = Some (default (VStr "b") (fan_in (upstream chained_source_edges (nodeResults r) "B")))
       ∧ (is_Some (fan_in (upstream chained_source_edges (nodeResults r) "B"))
          ↔ ∃ e, e ∈ chained_source_edges ∧ target e = "B"
                 ∧ is_Some (nodeResults r !! source e))
       ∧ VStr "b" = VStr "b".
Proof.
  apply (source_node_output plain_engine chained_source_nodes chained_source_edges ∅
           (mkNode "B" INPUT None (Some (with_pattern "b")))).
  - compute_done.
  - split; [compute_done|].
    apply Forall_forall. repeat constructor; compute_done.
  - apply (acyclic_rank _ chained_source_rank). apply Forall_forall.
    repeat constructor; vm_compute; lia.
  - compute_done.
  - right. left.
  - reflexivity.
Defined.

(** C10, as stated, fails in two ways.  A Source node whose only incoming
    edge comes from a node without output keeps its seed although it has an
    incoming edge; and a Source node on a cycle is never dequeued, so that
    it keeps its seed although the source of its incoming edge has an
    output. *)
Lemma source_node_counterexample :
  (∃ r, executeFlow plain_engine unfed_source_nodes unfed_source_edges ∅ = Ok r
        ∧ incoming_edges unfed_source_edges "S" = [mkEdge "eP-S" "P" "S"]
        ∧ nodeResults r !! "S" = Some (VStr "x"))
  ∧ (∃ r, executeFlow plain_engine cycle_nodes cycle_edges ∅ = Ok r
          ∧ incoming_edges cycle_edges "A" = [mkEdge "eB-A" "B" "A"]
          ∧ nodeResults r !! "B" = Some (VStr "b")
          ∧ fan_in (upstream cycle_edges (nodeResults r) "A") = Some (VStr "b")
          ∧ nodeResults r !! "A" = Some (VStr "a")).
Proof.
  split.
  - eexists. split; [vm_compute; reflexivity|]. split; vm_compute; reflexivity.
  - eexists. split; [vm_compute; reflexivity|].
    repeat split; vm_compute; reflexivity.
Qed.

(** ** C3: the sequence matcher *)

Section Sequence.
Import JsString JsStringFacts.

Lemma get_lt (s : string) (i : nat) :
  (i < String.length s)%nat → ∃ c, get s i = Some c.
Proof.
  revert i. induction s as [|c s IH]; intros i Hi; simpl in Hi; [lia|].
  destruct i as [|i]; simpl; [by eexists|]. apply IH. lia.
Qed.

(** One step of the matcher from a progress string: the progress stays, or
    grows by the next code unit of the target. *)
Lemma sequence_step_spec (target p : string) (input : value) :
  ∃ out, sequence_step target (VStr p) input = VStr out
    ∧ (out = p
       ∨ (String.length p < String.length target)%nat
         ∧ ∃ c, get target (String.length p) = Some c ∧ out = p +:+ String c "").
Proof.
  unfold sequence_step. cbn [value_length String_of]. case_bool_decide as Hlt.
  - destruct (get_lt target (String.length p) Hlt) as [c ->].
    destruct (includes _ _); eexists; (split; [done|]); [right|by left].
    split; [done|]. by exists c.
  - eexists. split; [done|]. by left.
Qed.

Lemma setup_nodeResults nodes edges prev :
  s_nodeResults (setup nodes edges prev)
  = s_nodeResults (foldl init_node (mkStore nodes edges prev ∅ ∅ ∅ ∅ []) nodes).
Proof.
  rewrite setup_unfold. cbn [s_nodeResults set_queue].
  by destruct (init_edge_frame (foldl init_node (mkStore nodes edges prev ∅ ∅ ∅ ∅ []) nodes)
                 edges) as (_ & _ & _ & ->).
Qed.

Context (RE : RegExpEngine) (nodes : list AppNode) (edges : list AppEdge)
  (prev : gmap string value) (node : AppNode).
Hypothesis Hnd : NoDup (node_ids nodes).
Hypothesis Hin : node ∈ nodes.
Hypothesis Hty : type (data node) = SEQUENCE.

(** The entry of a SEQUENCE node, when there is one, is a step of the
    matcher from the previous output. *)
Lemma sequence_entry r v :
  executeFlow RE nodes edges prev = Ok r → nodeResults r !! id node = Some v →
  ∃ input,
    v = sequence_step (str_or (param pattern (params (data node))) "")
          (prev_output prev (id node)) input.
Proof.
  unfold executeFlow. destruct (executeFlow_store RE nodes edges prev) as [st| |] eqn:Hrun;
    [|done..].
  cbn [obind]. intros [= <-]. cbn [nodeResults]. unfold executeFlow_store in Hrun.
  apply (kahn_invariant RE
           (λ st, s_nodes st = nodes ∧ s_prevNodeResults st = prev
                  ∧ ∀ v, s_nodeResults st !! id node = Some v →
                      ∃ input,
                        v = sequence_step (str_or (param pattern (params (data node))) "")
                              (prev_output prev (id node)) input))
    in Hrun as [(_ & _ & Hres) _]; [by apply Hres| |].
  - intros st0 st1 (Hn0 & Hp0 & Hres) Hne Hstep.
    destruct (step_frame RE st0 st1 Hstep) as (Hn1 & _ & Hp1).
    split; [by rewrite Hn1|]. split; [by rewrite Hp1|].
    destruct (s_queue st0) as [|nodeId q] eqn:Hq; [done|].
    destruct (step_Ok RE st0 st1 nodeId q Hq Hstep)
      as (st2 & ms & -> & _ & _ & _ & _ & _ & _ & Hfind).
    destruct (trigger_all_frame st2 ms) as (_ & _ & _ & -> & _).
    destruct (List.find _ (s_nodes st0)) as [node'|] eqn:Hf.
    + destruct Hfind as [_ HR]. rewrite Hn0 in Hf. apply find_node in Hf as [Hin' Hid].
      destruct ((gather st0 node').1) as [input|]; [|by rewrite HR].
      destruct HR as (out & Hout & ->). intros w.
      destruct (decide (id node' = id node)) as [Heq|Hneq].
      * assert (node' = node) as ->.
        { apply (node_unique nodes []); [|done..]. split; [done|].
          by intros e ?%elem_of_nil. }
        rewrite lookup_insert_eq. intros [= <-]. exists input.
        unfold process_node in Hout. rewrite Hty, Hp0 in Hout. by injection Hout as <-.
      * rewrite lookup_insert_ne by done. apply Hres.
    + destruct Hfind as [_ ->]. done.
  - destruct (setup_frame nodes edges prev) as (-> & _ & ->). split; [done|]. split; [done|].
    intros w. rewrite setup_nodeResults, init_node_results by done.
    rewrite Hty. simpl. by rewrite lookup_empty.
Qed.


End Sequence.


(** * Further properties of the engine *)

(** ** Exceptions and termination on arbitrary graphs *)





(** X3: the loop of [processBatch] ends exactly when the batch size is
    positive or there is no line to group: for a batch size of zero or
    less and at least one line, no number of iterations suffices. *)
Theorem batch_loop_ends_iff (lines : list string) (batchSize : Z) :
  (∃ fuel r, processBatch_for fuel lines batchSize 0 [] = Ok r)
  ↔ 0 < batchSize ∨ lines = [].
Proof.
  split.
  - intros (fuel & r & Hrun). destruct (decide (0 < batchSize)) as [|Hb]; [by left|].
    right. destruct lines as [|l lines]; [done|].
    rewrite processBatch_for_diverges in Hrun; [done|lia|lia|done].
  - intros [Hb| ->].
    + exists (length lines).
      by apply processBatch_for_enough; [|lia].
    + by exists 0%nat, [].
Qed.

(** ** The keys of the result maps, on arbitrary graphs *)

Section Keys.
Context (RE : RegExpEngine).


Lemma init_node_results_mono st (ns : list AppNode) k :
  is_Some (s_nodeResults st !! k) → is_Some (s_nodeResults (foldl init_node st ns) !! k).
Proof.
  revert st. induction ns as [|n ns IH]; intros st Hk; [done|]. simpl. apply IH.
  unfold init_node. destruct (isSource _); [|done].
  cbn [s_nodeResults set_nodeResults set_inDegree set_adjacency].
  rewrite lookup_insert. by case_decide.
Qed.

Lemma init_node_results_source st (ns : list AppNode) n :
  n ∈ ns → isSource (type (data n)) = true →
  is_Some (s_nodeResults (foldl init_node st ns) !! id n).
Proof.
  revert st. induction ns as [|n0 ns IH]; intros st Hin Hsrc; [by apply elem_of_nil in Hin|].
  simpl. apply elem_of_cons in Hin as [<-|Hin]; [|by apply IH].
  apply init_node_results_mono. unfold init_node. rewrite Hsrc.
  cbn [s_nodeResults set_nodeResults]. by rewrite lookup_insert_eq.
Qed.




(** X5: every Source node (INPUT or EMITTER) has an output after a pass,
    on every graph whose ids are not names of members of
    [Object.prototype]: it is seeded before the loop and entries are never
    removed, so this holds also for a source on a cycle or behind a
    dangling edge. *)
Theorem sources_always_have_output nodes edges prev r node :
  plain_graph nodes edges →
  executeFlow RE nodes edges prev = Ok r →
  node ∈ nodes → isSource (type (data node)) = true →
  is_Some (nodeResults r !! id node).
Proof.
  intros _. unfold executeFlow. destruct (executeFlow_store RE nodes edges prev) as [st| |] eqn:Hrun;
    [|done..].
  cbn [obind]. intros [= <-] Hin Hsrc. cbn [nodeResults]. unfold executeFlow_store in Hrun.
  apply (kahn_invariant RE (λ st, is_Some (s_nodeResults st !! id node)))
    in Hrun as [Hres _]; [done| |].
  - intros st0 st1 HR Hne Hstep.
    destruct (s_queue st0) as [|nodeId q] eqn:Hq; [done|].
    destruct (step_Ok RE st0 st1 nodeId q Hq Hstep)
      as (st2 & ms & -> & _ & _ & _ & _ & _ & _ & Hfind).
    destruct (trigger_all_frame st2 ms) as (_ & _ & _ & -> & _).
    destruct (List.find _ (s_nodes st0)) as [node'|].
    + destruct Hfind as [_ Hres].
      destruct ((gather st0 node').1) as [input|]; [|by rewrite Hres].
      destruct Hres as (out & _ & ->). rewrite lookup_insert. by case_decide.
    + destruct Hfind as [_ ->]. done.
  - rewrite setup_nodeResults. by apply init_node_results_source.
Qed.

End Keys.


Lemma sources_always_have_output_witness :
  ∃ r, executeFlow plain_engine tangled_nodes tangled_edges ∅ = Ok r
       ∧ is_Some (nodeResults r !! "A").
Proof.
  eexists. split; [vm_compute; reflexivity|].
  apply (sources_always_have_output plain_engine tangled_nodes tangled_edges ∅ _
           (mkNode "A" INPUT None (Some (with_pattern "a")))).
  - compute_done.
  - vm_compute. reflexivity.
  - left.
  - reflexivity.
Defined.

(** ** Cycles *)

Section Cycles.
Context (RE : RegExpEngine) (nodes : list AppNode) (edges : list AppEdge)
  (prev : gmap string value).

Lemma tc_last {A} (R : relation A) x z : tc R x z → ∃ y, rtc R x y ∧ R y z.
Proof.
  revert z. apply tc_ind_r.
  - intros z Hxz. exists x. split; [apply rtc_refl|done].
  - intros y z Hxy Hyz _. exists y. split; [by apply tc_rtc|done].
Qed.

(** A node whose predecessors are all clear of cycles is clear of them. *)
Lemma behind_cycle_pred n :
  behind_cycle edges n → ∃ e, e ∈ edges ∧ target e = n ∧ behind_cycle edges (source e).
Proof.
  intros (c & Hc & Hcn). apply rtc_inv_r in Hcn as [->|(p & Hcp & e & Hin & <- & <-)].
  - destruct (tc_last _ _ _ Hc) as (p & Hnp & e & Hin & <- & Ht).
    exists e. split; [done|]. split; [done|]. exists n. by split.
  - exists e. split; [done|]. split; [done|]. by exists c.
Qed.

(** X6: on a graph with unique node ids whose edges join existing nodes
    and whose ids are not names of members of [Object.prototype], a node that lies on a directed cycle, or is reached from one that
    does, is never dequeued: after the pass a Source node has kept its
    seed and any other node has no entry. *)
Theorem cycle_nodes_keep_initial_output r node :
  plain_graph nodes edges → well_formed nodes edges → node ∈ nodes → behind_cycle edges (id node) →
  executeFlow RE nodes edges prev = Ok r →
  nodeResults r !! id node
  = if isSource (type (data node)) then Some (seed node) else None.
Proof.
  intros _ Hwf Hin Hcyc. unfold executeFlow.
  destruct (executeFlow_store RE nodes edges prev) as [st| |] eqn:Hrun; [|done..].
  cbn [obind]. intros [= <-]. cbn [nodeResults]. unfold executeFlow_store in Hrun.
  apply (kahn_invariant RE
           (λ st, ∃ done : gset string,
                    kahn_inv RE nodes edges prev done st
                    ∧ ∀ n, n ∈ done → ¬ behind_cycle edges n))
    in Hrun as [(done & Hinv & Hclear) _].
  - pose proof (inv_results _ _ _ _ _ _ Hinv node Hin) as Hres.
    rewrite decide_False in Hres; [done|]. intros Hdone. by apply (Hclear (id node)).
  - intros st0 st1 (done & Hinv & Hclear) Hne Hstep.
    destruct (s_queue st0) as [|nodeId q] eqn:Hq; [done|].
    exists (done ∪ {[nodeId]}). split; [by eapply step_inv|].
    intros n [Hn|Hn%elem_of_singleton]%elem_of_union; [by apply Hclear|]. subst n.
    intros (e & Hein & Ht & Hsrc)%behind_cycle_pred.
    apply (Hclear (source e)); [|done].
    destruct (proj1 (inv_queue _ _ _ _ _ _ Hinv nodeId)) as (Hid & _ & HD0);
      [rewrite Hq; left|].
    rewrite (inv_inDegree _ _ _ _ _ _ Hinv) in HD0 by done. injection HD0 as HD0.
    apply (pending_nil edges done nodeId); [lia|done..].
  - exists ∅. split; [by apply setup_inv|]. set_solver.
Qed.

End Cycles.

Lemma cycle_nodes_keep_initial_output_witness :
  ∃ r, executeFlow plain_engine cycle_nodes cycle_edges ∅ = Ok r
       ∧ nodeResults r !! "A" = Some (VStr "a").
Proof.
  eexists. split; [vm_compute; reflexivity|].
  apply (cycle_nodes_keep_initial_output plain_engine cycle_nodes cycle_edges ∅ _
           (mkNode "A" INPUT None (Some (with_pattern "a")))).
  - compute_done.
  - split; [compute_done|]. apply Forall_forall. repeat constructor; compute_done.
  - left.
  - exists "A". split; [|apply rtc_refl].
    eapply tc_l; [|apply tc_once].
    + exists (mkEdge "eA-B" "A" "B"). split; [left|done].
    + exists (mkEdge "eB-A" "B" "A"). split; [right; left|done].
  - vm_compute. reflexivity.
Defined.

(** ** The outputs of the nodes of an acyclic graph, by kind *)

Section Kinds.
Context (RE : RegExpEngine) (nodes : list AppNode) (edges : list AppEdge)
  (prev : gmap string value).

(** X7: on a well-formed acyclic graph whose ids are not names of members
    of [Object.prototype], the output of a MERGE or OUTPUT
    node is the aggregation of the outputs of the sources of its incoming
    edges, taken in edge order from the same result map; without any such
    output the node has no entry. *)
Theorem pass_through_output (node : AppNode) :
  plain_graph nodes edges →
  well_formed nodes edges → acyclic edges → Forall batch_ok nodes →
  node ∈ nodes → type (data node) = MERGE ∨ type (data node) = OUTPUT →
  ∃ r, executeFlow RE nodes edges prev = Ok r
       ∧ nodeResults r !! id node = fan_in (upstream edges (nodeResults r) (id node)).
Proof.
  intros _ Hwf Hacyc Hok Hin Hty.
  destruct (executeFlow_equations RE nodes edges prev Hwf Hacyc Hok)
    as (r & Hrun & _ & Heq).
  exists r. split; [done|]. specialize (Heq node Hin). unfold node_equation in Heq.
  destruct (fan_in _) as [input|].
  - destruct Heq as (out & Hout & ->). unfold process_node in Hout.
    by destruct Hty as [Hty|Hty]; rewrite Hty in Hout; injection Hout as <-.
  - by destruct Hty as [Hty|Hty]; rewrite Hty in Heq.
Qed.

(** X8: on a well-formed acyclic graph whose ids are not names of members
    of [Object.prototype], the output of a PROCESS or BRANCH
    node is what [processData] makes of the aggregated upstream outputs,
    with the filter operation when the node selects none, and the output
    of a BATCH node what [processBatch] makes of them with the configured
    batch size, 3 when it is absent or zero; without upstream output the
    node has no entry. *)
Theorem operator_output (node : AppNode) :
  plain_graph nodes edges →
  well_formed nodes edges → acyclic edges → Forall batch_ok nodes → node ∈ nodes →
  ∃ r, executeFlow RE nodes edges prev = Ok r
       ∧ match fan_in (upstream edges (nodeResults r) (id node)) with
         | Some input =>
             match type (data node) with
             | PROCESS | BRANCH =>
                 ∃ out, processData RE input (effective_config (data node)) = Ok out
                        ∧ nodeResults r !! id node = Some out
             | BATCH =>
                 ∃ batches,
                   processBatch input (num_or (param batchSize (params (data node))) 3)
                   = Ok batches
                   ∧ nodeResults r !! id node = Some (VArr batches)
             | _ => True
             end
         | None =>
             isSource (type (data node)) = false → nodeResults r !! id node = None
         end.
Proof.
  intros _ Hwf Hacyc Hok Hin.
  destruct (executeFlow_equations RE nodes edges prev Hwf Hacyc Hok)
    as (r & Hrun & _ & Heq).
  exists r. split; [done|]. specialize (Heq node Hin). unfold node_equation in Heq.
  destruct (fan_in _) as [input|]; [|intros Hs; by rewrite Hs in Heq].
  destruct Heq as (out & Hout & ->). unfold process_node in Hout.
  destruct (type (data node)); try done.
  - by exists out.
  - by exists out.
  - destruct (processBatch _ _) as [batches| |]; cbn [obind] in Hout; [|done..].
    injection Hout as <-. by exists batches.
Qed.

End Kinds.

Lemma pass_through_output_witness :
  ∃ r, executeFlow plain_engine diamond_nodes diamond_edges ∅ = Ok r
       ∧ nodeResults r !! "3" = fan_in (upstream diamond_edges (nodeResults r) "3").
Proof.
  apply (pass_through_output plain_engine diamond_nodes diamond_edges ∅
           (mkNode "3" MERGE None None)).
  - compute_done.
  - split; [compute_done|]. apply Forall_forall. repeat constructor; compute_done.
  - apply (acyclic_rank _ diamond_rank). apply Forall_forall.
    repeat constructor; vm_compute; lia.
  - compute_done.
  - do 2 right. left.
  - by left.
Defined.

Lemma operator_output_witness :
  ∃ r, executeFlow plain_engine diamond_nodes diamond_edges ∅ = Ok r
       ∧ match fan_in (upstream diamond_edges (nodeResults r) "2") with
         | Some input =>
             ∃ out, processData plain_engine input
                      (effective_config (mkData PROCESS (Some UPPER) None)) = Ok out
                    ∧ nodeResults r !! "2" = Some out
         | None => false = false → nodeResults r !! "2" = None
         end.
Proof.
  apply (operator_output plain_engine diamond_nodes diamond_edges ∅
           (mkNode "2" PROCESS (Some UPPER) None)).
  - compute_done.
  - split; [compute_done|]. apply Forall_forall. repeat constructor; compute_done.
  - apply (acyclic_rank _ diamond_rank). apply Forall_forall.
    repeat constructor; vm_compute; lia.
  - compute_done.
  - right. left.
Defined.

(** ** The transform library *)

Section Transforms.
Import JsString JsStringFacts.
Context (RE : RegExpEngine).

(** *** sort *)

(** X9: the sort operation returns the lines in ascending order of their
    code units, as a rearrangement of the input lines (none lost, none
    added, repetitions kept), and sorting its output again changes
    nothing. *)
Theorem sort_sorted_permutation (input : value) (config : NodeData) :
  processType config = Some SORT →
  ∃ out, processData RE input config = Ok (VArr out)
         ∧ Sorted String.le out
         ∧ out ≡ₚ data_lines input
         ∧ processData RE (VArr out) config = Ok (VArr out).
Proof.
  intros Hty. unfold processData. rewrite Hty. eexists. split; [done|].
  unfold JsArray.sort. split; [apply Sorted_merge_sort, _|].
  split; [apply merge_sort_Permutation|].
  cbn [data_lines]. do 2 f_equal. apply (Sorted_unique String.le).
  - apply Sorted_merge_sort, _.
  - apply Sorted_merge_sort, _.
  - apply merge_sort_Permutation.
Qed.

(** *** uniq *)

Lemma filter_all {A} (P : A → Prop) `{!∀ x, Decision (P x)} (l : list A) :
  (∀ x, x ∈ l → P x) → filter P l = l.
Proof.
  induction l as [|x l IH]; intros HP; [done|].
  rewrite filter_cons_True by (apply HP; left). f_equal. apply IH.
  intros y Hy. apply HP. by right.
Qed.

Lemma set_add_all_dedupe (seen a : list string) :
  JsArray.set_add_all seen a = seen ++ filter (λ y, y ∉ seen) (dedupe a).
Proof.
  revert seen. induction a as [|x a IH]; intros seen; [by rewrite app_nil_r|].
  cbn [JsArray.set_add_all dedupe]. case_bool_decide as Hx.
  - rewrite IH, filter_cons_False by (intros Hn; by apply Hn). f_equal.
    rewrite list_filter_filter. apply list_filter_iff. intros y. split; [|tauto].
    intros Hy. split; [done|]. by intros ->.
  - rewrite IH, filter_cons_True, <- (assoc_L (++)) by done. simpl. do 2 f_equal.
    rewrite list_filter_filter. apply list_filter_iff. intros y.
    rewrite elem_of_app, list_elem_of_singleton. tauto.
Qed.

Lemma uniq_dedupe (a : list string) : JsArray.uniq a = dedupe a.
Proof.
  unfold JsArray.uniq. rewrite set_add_all_dedupe. simpl.
  apply filter_all. intros y _ Hy. by apply elem_of_nil in Hy.
Qed.

Lemma elem_of_dedupe (l : list string) x : x ∈ dedupe l ↔ x ∈ l.
Proof.
  induction l as [|y l IH]; [done|]. cbn [dedupe].
  rewrite !elem_of_cons, list_elem_of_filter, IH.
  destruct (decide (x = y)); tauto.
Qed.

Lemma NoDup_dedupe (l : list string) : NoDup (dedupe l).
Proof.
  induction l as [|y l IH]; [constructor|]. cbn [dedupe]. apply NoDup_cons. split.
  - by intros [? _]%list_elem_of_filter.
  - by apply NoDup_filter.
Qed.

Lemma dedupe_NoDup (l : list string) : NoDup l → dedupe l = l.
Proof.
  induction l as [|y l IH]; [done|]. intros [Hy Hl]%NoDup_cons. cbn [dedupe].
  rewrite IH by done. f_equal. apply filter_all. by intros x Hx ->.
Qed.

(** X10: the uniq operation keeps the first occurrence of every line, in
    the order of the input: its output has no line twice, holds exactly the
    lines of the input, and is left unchanged by the operation. *)
Theorem uniq_first_occurrences (input : value) (config : NodeData) :
  processType config = Some UNIQ →
  ∃ out, processData RE input config = Ok (VArr out)
         ∧ out = dedupe (data_lines input)
         ∧ NoDup out
         ∧ (∀ x, x ∈ out ↔ x ∈ data_lines input)
         ∧ processData RE (VArr out) config = Ok (VArr out).
Proof.
  intros Hty. unfold processData. rewrite Hty. eexists. split; [done|].
  rewrite uniq_dedupe. split; [done|]. split; [apply NoDup_dedupe|].
  split; [apply elem_of_dedupe|].
  cbn [data_lines]. rewrite uniq_dedupe, dedupe_NoDup; [done|apply NoDup_dedupe].
Qed.

(** *** split, then join *)

Lemma startsWith_app_inv p s : startsWith s p = true → ∃ rest, s = p +:+ rest.
Proof.
  revert s. induction p as [|a p IH]; intros s Hs; [by exists s|].
  destruct s as [|b s]; [done|]. simpl in Hs.
  apply andb_true_iff in Hs as [Hab Hs]. apply bool_decide_eq_true in Hab as ->.
  destruct (IH s Hs) as [rest ->]. by exists rest.
Qed.

Lemma join_split_scan_id sep n s cur :
  sep ≠ "" → (String.length s ≤ n)%nat →
  join sep (split_scan sep 0 cur s) = cur +:+ s.
Proof.
  intros Hsep. revert s cur. induction n as [|n IH]; intros s cur Hlen.
  - destruct s; [|simpl in Hlen; lia]. simpl. by rewrite app_empty_r.
  - destruct s as [|c s]; [simpl; by rewrite app_empty_r|].
    cbn [split_scan]. destruct (startsWith (String c s) sep) eqn:Hst.
    + apply startsWith_app_inv in Hst as [rest Hrest].
      destruct sep as [|a sep]; [done|]. rewrite app_cons in Hrest.
      injection Hrest as -> ->.
      replace (String.length (String a sep) - 1)%nat with (String.length sep)
        by (simpl; lia).
      rewrite split_scan_skip, join_cons by apply split_scan_nonempty.
      rewrite IH; [done|]. simpl in Hlen. rewrite length_app in Hlen. lia.
    + rewrite IH by (simpl in Hlen; lia). by rewrite app_assoc.
Qed.

Lemma join_split_id sep s : sep ≠ "" → join sep (split s sep) = s.
Proof.
  intros Hsep. unfold split. destruct sep as [|a p]; [done|].
  by apply (join_split_scan_id (String a p) (String.length s) s "").
Qed.

(** X11: for every non-empty delimiter [d] and every string, splitting the
    string at [d] and joining the pieces with [d] restores the string; no
    condition on the string is needed in this direction. *)
Theorem split_join_round_trip (cs cj : NodeData) (d s : string) :
  processType cs = Some SPLIT → param delimiter (params cs) = Some d →
  processType cj = Some JOIN → param delimiter (params cj) = Some d →
  d ≠ "" →
  split_then_join RE cs cj s = Ok (VStr s).
Proof.
  intros Hs Hds Hj Hdj Hd. unfold split_then_join, processData.
  rewrite Hs, Hds. cbn [obind]. rewrite Hj, Hdj. cbn [data_lines].
  rewrite !str_or_Some by done. by rewrite join_split_id.
Qed.

End Transforms.

Lemma sort_sorted_permutation_witness :
  ∃ out, processData plain_engine (VStr "b a") (mkData PROCESS (Some SORT) None)
         = Ok (VArr out)
         ∧ Sorted String.le out
         ∧ out ≡ₚ data_lines (VStr "b a")
         ∧ processData plain_engine (VArr out) (mkData PROCESS (Some SORT) None)
           = Ok (VArr out).
Proof.
  apply (sort_sorted_permutation plain_engine (VStr "b a")
           (mkData PROCESS (Some SORT) None)).
  reflexivity.
Defined.

Lemma uniq_first_occurrences_witness :
  ∃ out, processData plain_engine (VArr ["b"; "a"; "b"; "c"; "a"])
           (mkData PROCESS (Some UNIQ) None) = Ok (VArr out)
         ∧ out = dedupe (data_lines (VArr ["b"; "a"; "b"; "c"; "a"]))
         ∧ NoDup out
         ∧ (∀ x, x ∈ out ↔ x ∈ data_lines (VArr ["b"; "a"; "b"; "c"; "a"]))
         ∧ processData plain_engine (VArr out) (mkData PROCESS (Some UNIQ) None)
           = Ok (VArr out).
Proof.
  apply (uniq_first_occurrences plain_engine (VArr ["b"; "a"; "b"; "c"; "a"])
           (mkData PROCESS (Some UNIQ) None)).
  reflexivity.
Defined.

Lemma split_join_round_trip_witness :
  split_then_join plain_engine (split_config "aa") (join_config "aa") "aaab" = Ok (VStr "aaab").
Proof.
  apply (split_join_round_trip plain_engine (split_config "aa") (join_config "aa") "aa" "aaab");
    try reflexivity.
  discriminate.
Defined.

(** *** Lines *)

Section Lines.
Import JsString JsStringFacts.
Context (RE : RegExpEngine).

(** The scan of [split(/\r?\n/)], one code unit at a time. *)
Lemma splitLines_scan_cons cur c s :
  splitLines_scan cur (String c s)
  = if decide (c = "010"%char) then cur :: splitLines_scan "" s
    else if decide (c = "013"%char) then
      match s with
      | String c' s' =>
          if decide (c' = "010"%char) then cur :: splitLines_scan "" s'
          else splitLines_scan (cur +:+ String c "") s
      | EmptyString => splitLines_scan (cur +:+ String c "") s
      end
    else splitLines_scan (cur +:+ String c "") s.
Proof.
  destruct c as [[] [] [] [] [] [] [] []]; try reflexivity.
  destruct s as [|[[] [] [] [] [] [] [] []] s']; reflexivity.
Qed.

Lemma splitLines_scan_nonempty cur s : splitLines_scan cur s ≠ [].
Proof.
  remember (String.length s) as n eqn:Hn. revert cur s Hn.
  induction (lt_wf n) as [n _ IH]; intros cur s ->.
  destruct s as [|c s]; [done|]. rewrite splitLines_scan_cons.
  destruct (decide (c = "010"%char)); [done|].
  destruct (decide (c = "013"%char)).
  - destruct s as [|c' s']; [by eapply IH; [|reflexivity]; simpl; lia|].
    destruct (decide (c' = "010"%char)); [done|].
    eapply IH; [|reflexivity]. simpl. lia.
  - eapply IH; [|reflexivity]. simpl. lia.
Qed.

Lemma replace_crlf_cons c s :
  replace_scan CRLF LF 0 (String c s)
  = if decide (c = "010"%char) then String c (replace_scan CRLF LF 0 s)
    else if decide (c = "013"%char) then
      match s with
      | String c' s' =>
          if decide (c' = "010"%char) then LF +:+ replace_scan CRLF LF 0 s'
          else String c (replace_scan CRLF LF 0 s)
      | EmptyString => String c (replace_scan CRLF LF 0 s)
      end
    else String c (replace_scan CRLF LF 0 s).
Proof.
  destruct c as [[] [] [] [] [] [] [] []]; try reflexivity.
  destruct s as [|[[] [] [] [] [] [] [] []] s']; try reflexivity.
  by destruct s'.
Qed.

Lemma join_splitLines_scan n cur s :
  (String.length s ≤ n)%nat →
  join LF (splitLines_scan cur s) = cur +:+ replace_scan CRLF LF 0 s.
Proof.
  revert cur s. induction n as [|n IH]; intros cur s Hlen.
  - destruct s; [|simpl in Hlen; lia]. simpl. by rewrite app_empty_r.
  - destruct s as [|c s]; [simpl; by rewrite app_empty_r|]. simpl in Hlen.
    rewrite splitLines_scan_cons, replace_crlf_cons.
    destruct (decide (c = "010"%char)) as [->|Hlf].
    { rewrite join_cons, IH by (apply splitLines_scan_nonempty || lia). done. }
    destruct (decide (c = "013"%char)) as [->|Hcr].
    + destruct s as [|c' s'].
      { rewrite IH by (simpl; lia). by rewrite app_assoc. }
      destruct (decide (c' = "010"%char)) as [->|Hlf'].
      * rewrite join_cons, IH by (apply splitLines_scan_nonempty || (simpl in Hlen; lia)).
        done.
      * rewrite IH by lia. by rewrite app_assoc.
    + rewrite IH by lia. by rewrite app_assoc.
Qed.

Lemma replace_scan_absent search repl s :
  includes s search = false → replace_scan search repl 0 s = s.
Proof.
  induction s as [|c s IH]; [done|]. cbn [includes replace_scan].
  intros [Hhere Hrest]%orb_false_iff. by rewrite Hhere, IH.
Qed.

(** X12: the join operation with its default delimiter, applied to a raw
    string, returns the string with every carriage return followed by a
    line feed replaced by the line feed alone (the lines are cut at
    [\r?\n] and put together with [\n]); a string without that pair comes
    back unchanged. *)
Theorem join_normalises_line_breaks (config : NodeData) (s : string) :
  processType config = Some JOIN →
  param delimiter (params config) = None ∨ param delimiter (params config) = Some "" →
  processData RE (VStr s) config = Ok (VStr (replace_all_literal s CRLF LF))
  ∧ (includes s CRLF = false → processData RE (VStr s) config = Ok (VStr s)).
Proof.
  intros Hty Hd.
  assert (processData RE (VStr s) config = Ok (VStr (replace_all_literal s CRLF LF))) as Heq.
  { unfold processData. rewrite Hty. do 2 f_equal.
    assert (str_or (param delimiter (params config)) (String "010"%char "") = LF) as ->
      by by destruct Hd as [-> | ->].
    cbn [data_lines]. unfold splitLines.
    by rewrite (join_splitLines_scan (String.length s)). }
  split; [done|]. intros Habs. rewrite Heq. unfold replace_all_literal.
  by rewrite replace_scan_absent.
Qed.

End Lines.

Lemma join_normalises_line_breaks_witness :
  processData plain_engine (VStr ("a" +:+ CRLF +:+ "b" +:+ LF +:+ "c"))
    (mkData PROCESS (Some JOIN) None)
  = Ok (VStr (replace_all_literal ("a" +:+ CRLF +:+ "b" +:+ LF +:+ "c") CRLF LF))
  ∧ (JsString.includes ("a" +:+ CRLF +:+ "b" +:+ LF +:+ "c") CRLF = false →
     processData plain_engine (VStr ("a" +:+ CRLF +:+ "b" +:+ LF +:+ "c"))
       (mkData PROCESS (Some JOIN) None)
     = Ok (VStr ("a" +:+ CRLF +:+ "b" +:+ LF +:+ "c"))).
Proof.
  apply (join_normalises_line_breaks plain_engine (mkData PROCESS (Some JOIN) None)
           ("a" +:+ CRLF +:+ "b" +:+ LF +:+ "c")).
  - reflexivity.
  - by left.
Defined.

(** *** Batches *)

Section Batches.

Lemma slice_chunk (l : list string) (j n : nat) :
  (j < length l)%nat →
  JsArray.slice l (Z.of_nat j) (Z.of_nat j + Z.of_nat n) = take n (drop j l).
Proof.
  intros Hj. unfold JsArray.slice, JsArray.clamp_index.
  rewrite !bool_decide_eq_false_2 by lia.
  rewrite (Z.min_l (Z.of_nat j)) by lia. rewrite Nat2Z.id.
  destruct (decide (j + n ≤ length l)%nat) as [Hle|Hgt].
  - rewrite Z.min_l by lia. f_equal. lia.
  - rewrite Z.min_r by lia. rewrite !take_ge; [done|rewrite length_drop; lia..].
Qed.

Lemma processBatch_for_chunks fuel (lines : list string) (n j : nat) batches :
  (0 < n)%nat → (length lines - j ≤ fuel)%nat →
  processBatch_for fuel lines (Z.of_nat n) (Z.of_nat j) batches
  = Ok (batches ++ (batch_line <$> chunks_of fuel n (drop j lines))).
Proof.
  intros Hn. revert j batches. induction fuel as [|fuel IH]; intros j batches Hfuel.
  - simpl. rewrite bool_decide_eq_false_2 by lia. by rewrite app_nil_r.
  - cbn [processBatch_for chunks_of]. case_bool_decide as Hj.
    + rewrite slice_chunk by lia.
      replace (Z.of_nat j + Z.of_nat n) with (Z.of_nat (j + n)) by lia.
      rewrite IH by lia. rewrite <- (assoc_L (++)). simpl.
      destruct (drop j lines) as [|x rest] eqn:Hdrop.
      { apply (f_equal length) in Hdrop. rewrite length_drop in Hdrop. simpl in Hdrop. lia. }
      rewrite <- Hdrop, drop_drop. done.
    + rewrite drop_ge by lia. by rewrite app_nil_r.
Qed.

Lemma chunks_of_concat fuel n (l : list string) :
  (0 < n)%nat → (length l ≤ fuel)%nat → concat (chunks_of fuel n l) = l.
Proof.
  intros Hn. revert l. induction fuel as [|fuel IH]; intros l Hfuel.
  - by destruct l; [|simpl in Hfuel; lia].
  - destruct l as [|x l]; [done|]. cbn [chunks_of concat].
    rewrite IH; [apply take_drop|]. rewrite length_drop. simpl in *. lia.
Qed.

Lemma chunks_of_sizes fuel n (l : list string) :
  (0 < n)%nat → Forall (λ c, (0 < length c ≤ n)%nat) (chunks_of fuel n l).
Proof.
  intros Hn. revert l. induction fuel as [|fuel IH]; intros l; [constructor|].
  destruct l as [|x l]; [constructor|]. cbn [chunks_of]. constructor; [|apply IH].
  rewrite length_take. simpl. lia.
Qed.

Lemma chunks_of_full fuel n (l : list string) i c :
  (0 < n)%nat → chunks_of fuel n l !! i = Some c →
  (S i < length (chunks_of fuel n l))%nat → length c = n.
Proof.
  intros Hn. revert l i. induction fuel as [|fuel IH]; intros l i; [done|].
  destruct l as [|x l]; [done|]. cbn [chunks_of]. destruct i as [|i]; simpl.
  - intros [= <-] Hlen. rewrite length_take.
    destruct (decide (n ≤ length (x :: l))%nat) as [|Hshort]; [lia|].
    rewrite drop_ge in Hlen by lia. destruct fuel; simpl in Hlen; lia.
  - intros Hc Hlen. apply (IH (drop n (x :: l)) i); [done|lia].
Qed.

(** X13: with a positive batch size [b], the batch operator partitions
    its lines into consecutive groups: one output line per group, the groups
    put one after the other give back the lines in order, every group has
    between 1 and [b] lines and every group but the last has exactly [b]. *)
Theorem batch_partition (input : value) (b : Z) :
  0 < b →
  ∃ groups,
    processBatch input b = Ok (batch_line <$> groups)
    ∧ concat groups = batch_lines input
    ∧ Forall (λ c, (0 < length c ≤ Z.to_nat b)%nat) groups
    ∧ ∀ i c, groups !! i = Some c → (S i < length groups)%nat → length c = Z.to_nat b.
Proof.
  intros Hb. exists (chunks_of (length (batch_lines input)) (Z.to_nat b) (batch_lines input)).
  split; [|split; [|split]].
  - unfold processBatch.
    replace b with (Z.of_nat (Z.to_nat b)) at 1 by lia.
    change 0 with (Z.of_nat 0).
    rewrite processBatch_for_chunks by lia. done.
  - apply chunks_of_concat; lia.
  - apply chunks_of_sizes. lia.
  - intros i c. apply chunks_of_full. lia.
Qed.

End Batches.

Lemma batch_partition_witness :
  ∃ groups,
    processBatch (VArr ["a"; "b"; "c"]) 2 = Ok (batch_line <$> groups)
    ∧ concat groups = batch_lines (VArr ["a"; "b"; "c"])
    ∧ Forall (λ c, (0 < length c ≤ Z.to_nat 2)%nat) groups
    ∧ ∀ i c, groups !! i = Some c → (S i < length groups)%nat → length c = Z.to_nat 2.
Proof. apply (batch_partition (VArr ["a"; "b"; "c"]) 2). lia. Defined.

(** ** The sequence matcher across passes *)

Section Matcher.
Import JsString JsStringFacts.

Lemma startsWith_refl p : startsWith p p = true.
Proof. rewrite <- (app_empty_r p) at 1. apply startsWith_app. Qed.

Lemma startsWith_snoc target p c :
  startsWith target p = true → get target (String.length p) = Some c →
  startsWith target (p +:+ String c "") = true.
Proof.
  revert target. induction p as [|a p IH]; intros target Hp Hc.
  - destruct target as [|b target]; [done|]. simpl in Hc. injection Hc as ->.
    simpl. rewrite bool_decide_eq_true_2 by done. by destruct target.
  - destruct target as [|b target]; [done|]. simpl in Hp, Hc.
    apply andb_true_iff in Hp as [Hab Hp]. rewrite app_cons. simpl.
    rewrite Hab. simpl. by apply IH.
Qed.

Lemma startsWith_length p s :
  startsWith s p = true → (String.length p ≤ String.length s)%nat.
Proof.
  revert s. induction p as [|a p IH]; intros s Hs; [simpl; lia|].
  destruct s as [|b s]; [done|]. simpl in Hs.
  apply andb_true_iff in Hs as [_ Hs]. apply IH in Hs. simpl. lia.
Qed.

Lemma startsWith_same_length p s :
  startsWith s p = true → String.length p = String.length s → p = s.
Proof.
  intros [rest ->]%startsWith_app_inv. rewrite length_app. intros Hlen.
  destruct rest; [by rewrite app_empty_r|simpl in Hlen; lia].
Qed.

Context (RE : RegExpEngine).

Lemma sequence_progress_extends_aux nodes edges prev (node : AppNode) (p : string) r v :
  NoDup (node_ids nodes) → node ∈ nodes → type (data node) = SEQUENCE →
  prev !! id node = Some (VStr p) ∨ (prev !! id node = None ∧ p = "") →
  executeFlow RE nodes edges prev = Ok r → nodeResults r !! id node = Some v →
  ∃ out, v = VStr out ∧ startsWith out p = true
         ∧ (String.length out ≤ S (String.length p))%nat.
Proof.
  intros Hnd Hin Hty Hprev Hrun Hv.
  destruct (sequence_entry RE nodes edges prev node Hnd Hin Hty r v Hrun Hv) as [input ->].
  assert (prev_output prev (id node) = VStr p) as ->.
  { unfold prev_output. destruct Hprev as [->|[-> ->]]; [|done]. by rewrite str_or_self. }
  destruct (sequence_step_spec (str_or (param pattern (params (data node))) "") p input)
    as (out & -> & Hout).
  exists out. split; [done|]. destruct Hout as [->|(Hlt & c & Hc & ->)].
  - split; [apply startsWith_refl|lia].
  - split; [apply startsWith_app|]. rewrite length_app. simpl. lia.
Qed.

(** X14: in one pass on a graph whose ids are not names of members of
    [Object.prototype], the progress of a matcher extends its previous
    progress [p] by at most one code unit, the next one of the target: [p]
    is a prefix of the new progress, and when [p] is a prefix of the target
    so is the new progress. *)
Theorem sequence_progress_extends nodes edges prev (node : AppNode) (p target : string) r v :
  plain_graph nodes edges → NoDup (node_ids nodes) → node ∈ nodes → type (data node) = SEQUENCE →
  target = default "" (param pattern (params (data node))) →
  prev !! id node = Some (VStr p) ∨ (prev !! id node = None ∧ p = "") →
  executeFlow RE nodes edges prev = Ok r → nodeResults r !! id node = Some v →
  ∃ out, v = VStr out
    ∧ (out = p
       ∨ ∃ c, get target (String.length p) = Some c ∧ out = p +:+ String c "")
    ∧ startsWith out p = true
    ∧ (startsWith target p = true → startsWith target out = true).
Proof.
  intros _ Hnd Hin Hty Htarget Hprev Hrun Hv.
  destruct (sequence_entry RE nodes edges prev node Hnd Hin Hty r v Hrun Hv) as [input ->].
  assert (prev_output prev (id node) = VStr p) as ->.
  { unfold prev_output. destruct Hprev as [->|[-> ->]]; [|done]. by rewrite str_or_self. }
  rewrite str_or_self, <- Htarget.
  destruct (sequence_step_spec target p input) as (out & -> & Hout).
  exists out. split; [done|]. destruct Hout as [->|(Hlt & c & Hc & ->)].
  - split; [by left|]. split; [apply startsWith_refl|done].
  - split; [right; by exists c|]. split; [apply startsWith_app|].
    intros Hp. by apply startsWith_snoc.
Qed.

(** X15: the caller hands the node outputs of a pass to the next pass.  A
    matcher present in two consecutive passes on graphs whose ids are not
    names of members of [Object.prototype], with progress [p0] before
    the first: if it has an entry after the first pass, that is a progress
    [p1] extending [p0], and its progress after the second pass, when it has
    one, extends [p1] by at most one code unit; if it has no entry after the
    first pass (it received no input), the second pass starts it again from
    the empty progress.  The progress of the second pass is what the
    reference holds afterwards. *)
Theorem progress_across_passes nodes1 edges1 nodes2 edges2 prev0 (node : AppNode)
    (p0 : string) results1 ref1 results2 ref2 v :
  plain_graph nodes1 edges1 → plain_graph nodes2 edges2 →
  NoDup (node_ids nodes1) → node ∈ nodes1 →
  NoDup (node_ids nodes2) → node ∈ nodes2 → type (data node) = SEQUENCE →
  prev0 !! id node = Some (VStr p0) ∨ (prev0 !! id node = None ∧ p0 = "") →
  run_pass RE nodes1 edges1 prev0 = Ok (results1, ref1) →
  run_pass RE nodes2 edges2 ref1 = Ok (results2, ref2) →
  nodeResults results2 !! id node = Some v →
  ∃ p1 out,
    v = VStr out ∧ ref2 !! id node = Some (VStr out)
    ∧ (nodeResults results1 !! id node = Some (VStr p1) ∧ startsWith p1 p0 = true
       ∨ nodeResults results1 !! id node = None ∧ p1 = "")
    ∧ startsWith out p1 = true
    ∧ (String.length out ≤ S (String.length p1))%nat.
Proof.
  intros _ _ Hnd1 Hin1 Hnd2 Hin2 Hty Hprev0 Hpass1 Hpass2 Hv.
  unfold run_pass in Hpass1, Hpass2.
  destruct (executeFlow RE nodes1 edges1 prev0) as [r1| |] eqn:Hrun1; [|done..].
  cbn [obind] in Hpass1. injection Hpass1 as <- <-.
  destruct (executeFlow RE nodes2 edges2 (nodeResults r1)) as [r2| |] eqn:Hrun2; [|done..].
  cbn [obind] in Hpass2. injection Hpass2 as <- <-.
  destruct (nodeResults r1 !! id node) as [v1|] eqn:Hprev.
  - destruct (sequence_progress_extends_aux nodes1 edges1 prev0 node p0 r1 v1)
      as (p1 & -> & Hpre1 & _); [done..|].
    destruct (sequence_progress_extends_aux nodes2 edges2 (nodeResults r1) node p1 r2 v)
      as (out & -> & Hpre & Hlen); [done..|by left|done|done|].
    exists p1, out. rewrite Hv. repeat split; try done. by left.
  - destruct (sequence_progress_extends_aux nodes2 edges2 (nodeResults r1) node "" r2 v)
      as (out & -> & Hpre & Hlen); [done..|by right|done|done|].
    exists "", out. rewrite Hv. repeat split; try done. by right.
Qed.

Lemma covers_get buffer target i c :
  covers buffer target = true → get target i = Some c →
  includes buffer (String c "") = true.
Proof.
  revert i. induction target as [|a target IH]; intros i Hcov Hget; [done|].
  cbn [covers] in Hcov. apply andb_true_iff in Hcov as [Ha Hcov].
  destruct i as [|i]; simpl in Hget; [by injection Hget as <-|by eapply IH].
Qed.

Lemma sequence_step_covered target p input :
  startsWith target p = true → covers (input_buffer input) target = true →
  ∃ out, sequence_step target (VStr p) input = VStr out
         ∧ startsWith target out = true
         ∧ String.length out = (S (String.length p) `min` String.length target)%nat.
Proof.
  intros Hp Hcov. pose proof (startsWith_length _ _ Hp) as Hlen.
  unfold sequence_step. cbn [value_length String_of]. case_bool_decide as Hlt.
  - destruct (get_lt target (String.length p) Hlt) as [c Hc]. rewrite Hc.
    change (match input with VArr a => join "" a | VStr s => s end)
      with (input_buffer input).
    rewrite (covers_get _ _ _ _ Hcov Hc). eexists. split; [done|].
    split; [by apply startsWith_snoc|]. rewrite length_app. cbn [String.length]. lia.
  - eexists. split; [done|]. split; [done|]. lia.
Qed.

(** X16: a matcher that receives, pass after pass, buffers in which every
    code unit of the target occurs gains one code unit per pass: starting
    from the empty progress, after [k] passes its progress is the prefix of
    the target of length [k], and from the pass that completes the target
    on it is the target. *)
Theorem matcher_completes (target : string) (buffers : list value) :
  Forall (λ b, covers (input_buffer b) target = true) buffers →
  ∃ p, matcher_run target (VStr "") buffers = VStr p
       ∧ startsWith target p = true
       ∧ String.length p = (length buffers `min` String.length target)%nat
       ∧ ((String.length target ≤ length buffers)%nat → p = target).
Proof.
  intros Hall.
  assert (∀ p0, startsWith target p0 = true →
            ∃ p, matcher_run target (VStr p0) buffers = VStr p
                 ∧ startsWith target p = true
                 ∧ String.length p
                   = ((String.length p0 + length buffers) `min` String.length target)%nat)
    as Hgen.
  { unfold matcher_run. induction Hall as [|b buffers Hb _ IH]; intros p0 Hp0.
    - exists p0. split; [done|]. split; [done|].
      apply startsWith_length in Hp0. cbn [length]. lia.
    - destruct (sequence_step_covered target p0 b Hp0 Hb) as (p1 & Hstep & Hp1 & Hlen1).
      cbn [foldl]. rewrite Hstep. destruct (IH p1 Hp1) as (p & Hrun & Hp & Hlen).
      exists p. split; [done|]. split; [done|]. cbn [length]. lia. }
  destruct (Hgen "") as (p & Hrun & Hp & Hlen); [by destruct target|].
  cbn [String.length] in Hlen.
  exists p. split; [done|]. split; [done|]. split; [lia|].
  intros Hk. apply startsWith_same_length; [done|]. lia.
Qed.

End Matcher.

Lemma sequence_progress_extends_witness :
  ∃ r v,
    executeFlow plain_engine (matcher_nodes "XBYA" "AB") matcher_edges {["2" := VStr "A"]}
    = Ok r
    ∧ nodeResults r !! "2" = Some v
    ∧ ∃ out, v = VStr out
        ∧ (out = "A"
           ∨ ∃ c, JsString.get "AB" (String.length "A") = Some c ∧ out = "A" +:+ String c "")
        ∧ JsString.startsWith out "A" = true
        ∧ (JsString.startsWith "AB" "A" = true → JsString.startsWith "AB" out = true).
Proof.
  eexists _, _. split; [vm_compute; reflexivity|]. split; [vm_compute; reflexivity|].
  eapply (sequence_progress_extends plain_engine (matcher_nodes "XBYA" "AB") matcher_edges
           {["2" := VStr "A"]} (mkNode "2" SEQUENCE None (Some (with_pattern "AB"))) "A" "AB").
  - compute_done.
  - compute_done.
  - right. left.
  - reflexivity.
  - reflexivity.
  - by left.
  - vm_compute. reflexivity.
  - vm_compute. reflexivity.
Defined.

Lemma progress_across_passes_witness :
  ∃ results1 ref1 results2 ref2 v,
    run_pass plain_engine (matcher_nodes "XBYA" "AB") matcher_edges ∅ = Ok (results1, ref1)
    ∧ run_pass plain_engine (matcher_nodes "XBYA" "AB") matcher_edges ref1
      = Ok (results2, ref2)
    ∧ nodeResults results2 !! "2" = Some v
    ∧ ∃ p1 out,
        v = VStr out ∧ ref2 !! "2" = Some (VStr out)
        ∧ (nodeResults results1 !! "2" = Some (VStr p1)
           ∧ JsString.startsWith p1 "" = true
           ∨ nodeResults results1 !! "2" = None ∧ p1 = "")
        ∧ JsString.startsWith out p1 = true
        ∧ (String.length out ≤ S (String.length p1))%nat.
Proof.
  eexists _, _, _, _, _. split; [vm_compute; reflexivity|].
  split; [vm_compute; reflexivity|]. split; [vm_compute; reflexivity|].
  eapply (progress_across_passes plain_engine (matcher_nodes "XBYA" "AB") matcher_edges
            (matcher_nodes "XBYA" "AB") matcher_edges ∅
            (mkNode "2" SEQUENCE None (Some (with_pattern "AB"))) "").
  - compute_done.
  - compute_done.
  - compute_done.
  - right. left.
  - compute_done.
  - right. left.
  - reflexivity.
  - right. by split.
  - vm_compute. reflexivity.
  - vm_compute. reflexivity.
  - vm_compute. reflexivity.
Defined.

Lemma matcher_completes_witness :
  ∃ p, matcher_run "AB" (VStr "") [VStr "XBYA"; VArr ["B"; "A"]; VStr "AB"] = VStr p
       ∧ JsString.startsWith "AB" p = true
       ∧ String.length p
         = (length [VStr "XBYA"; VArr ["B"; "A"]; VStr "AB"] `min` String.length "AB")%nat
       ∧ ((String.length "AB" ≤ length [VStr "XBYA"; VArr ["B"; "A"]; VStr "AB"])%nat →
          p = "AB").
Proof.
  apply (matcher_completes "AB" [VStr "XBYA"; VArr ["B"; "A"]; VStr "AB"]).
  repeat constructor.
Defined.

(** ** The values recorded on the edges *)

Lemma record_edges_edgeResults st (es : list AppEdge) :
  s_edgeResults
    (foldl (λ st e, set_edgeResults <[edge_id e := s_nodeResults st !! source e]> st) st es)
  = foldl (λ m e, <[edge_id e := s_nodeResults st !! source e]> m) (s_edgeResults st) es.
Proof.
  revert st. induction es as [|e es IH]; intros st; [done|]. simpl. by rewrite IH.
Qed.

Lemma record_lookup_notin (f : AppEdge → option value) (m : gmap string (option value))
    (es : list AppEdge) k :
  k ∉ edge_id <$> es → foldl (λ m e, <[edge_id e := f e]> m) m es !! k = m !! k.
Proof.
  revert m. induction es as [|e es IH]; intros m Hk; [done|]. simpl.
  rewrite fmap_cons in Hk. apply not_elem_of_cons in Hk as [Hne Hk].
  rewrite IH by done. by rewrite lookup_insert_ne.
Qed.

Lemma record_lookup_in (f : AppEdge → option value) (m : gmap string (option value))
    (es : list AppEdge) e :
  NoDup (edge_id <$> es) → e ∈ es →
  foldl (λ m e, <[edge_id e := f e]> m) m es !! edge_id e = Some (f e).
Proof.
  revert m. induction es as [|e0 es IH]; intros m Hnd Hin; [by apply elem_of_nil in Hin|].
  rewrite fmap_cons in Hnd. apply NoDup_cons in Hnd as [Hfresh Hnd]. simpl.
  apply elem_of_cons in Hin as [->|Hin]; [|by apply IH].
  rewrite record_lookup_notin by done. by rewrite lookup_insert_eq.
Qed.

Lemma edge_unique (edges : list AppEdge) e e' :
  NoDup (edge_id <$> edges) → e ∈ edges → e' ∈ edges → edge_id e = edge_id e' → e = e'.
Proof.
  induction edges as [|e0 es IH]; intros Hnd He He' Hid; [by apply elem_of_nil in He|].
  rewrite fmap_cons in Hnd. apply NoDup_cons in Hnd as [Hfresh Hnd].
  apply elem_of_cons in He as [->|He]; apply elem_of_cons in He' as [->|He']; try done.
  - exfalso. apply Hfresh. rewrite Hid. by apply list_elem_of_fmap_2.
  - exfalso. apply Hfresh. rewrite <- Hid. by apply list_elem_of_fmap_2.
  - by apply IH.
Qed.

Section Pipes.
Context (RE : RegExpEngine) (nodes : list AppNode) (edges : list AppEdge)
  (prev : gmap string value).
Hypothesis Hwf : well_formed nodes edges.
Hypothesis Hids : NoDup (edge_id <$> edges).

Lemma step_edgeResults st st' nodeId q node :
  s_queue st = nodeId :: q →
  List.find (λ n, bool_decide (id n = nodeId)) (s_nodes st) = Some node →
  step RE st = Ok st' →
  s_edgeResults st'
  = foldl (λ m e, <[edge_id e := s_nodeResults st !! source e]> m) (s_edgeResults st)
      (incoming_edges (s_edges st) (id node)).
Proof.
  intros Hq Hfind. unfold step. rewrite Hq. cbn [s_nodes set_queue]. rewrite Hfind.
  assert (s_edgeResults (gather (set_queue (drop 1) st) node).2
          = foldl (λ m e, <[edge_id e := s_nodeResults st !! source e]> m) (s_edgeResults st)
              (incoming_edges (s_edges st) (id node))) as Hg.
  { unfold gather. cbn [s_edges set_queue]. case_bool_decide as Hlen.
    - cbn [snd]. by rewrite record_edges_edgeResults.
    - destruct (incoming_edges _ _); [|simpl in Hlen; lia]. by destruct (isSource _). }
  destruct (gather (set_queue (drop 1) st) node) as [inp st0]. cbn [snd] in Hg.
  assert (∀ st1, (Ok match s_adjacency st1 !! nodeId with
                     | Some neighbors => foldl trigger st1 neighbors
                     | None => st1
                     end = Ok st') →
            s_edgeResults st1 = s_edgeResults st0 →
            s_edgeResults st'
            = foldl (λ m e, <[edge_id e := s_nodeResults st !! source e]> m)
                (s_edgeResults st) (incoming_edges (s_edges st) (id node))) as Hend.
  { intros st1 [= <-] Heq. rewrite <- Hg, <- Heq.
    destruct (s_adjacency st1 !! nodeId) as [ms|]; [|done].
    by destruct (trigger_all_frame st1 ms) as (_ & _ & _ & _ & -> & _). }
  destruct inp as [input|]; cbn [obind].
  - destruct (process_node RE _ node input) as [out| |]; cbn [obind]; [|done..].
    intros Hst. by apply (Hend _ Hst).
  - intros Hst. by apply (Hend _ Hst).
Qed.

Lemma step_edge_inv (done : gset string) st st' nodeId q :
  kahn_inv RE nodes edges prev done st → edge_inv edges done st →
  s_queue st = nodeId :: q → step RE st = Ok st' →
  edge_inv edges (done ∪ {[nodeId]}) st'.
Proof.
  intros [Hn He Hp Hadj HD Hqnd Hq Hdids Hdpreds Hrids Hres] Hedge Hqueue Hstep.
  destruct (proj1 (Hq nodeId)) as (Hid & Hfresh & HD0); [rewrite Hqueue; left|].
  destruct (node_of_id _ _ Hid) as (node & Hin & Hnode).
  assert (length (pending edges done nodeId) = 0%nat) as Hpend.
  { rewrite HD in HD0 by done. injection HD0 as HD0. lia. }
  assert (∀ e, e ∈ edges → target e = nodeId → source e ∈ done) as Hpreds
    by (intros e; by apply pending_nil).
  assert (List.find (λ n, bool_decide (id n = nodeId)) (s_nodes st) = Some node) as Hfind.
  { rewrite Hn, <- Hnode. by apply (find_node_id nodes edges Hwf). }
  pose proof (step_edgeResults st st' nodeId q node Hqueue Hfind Hstep) as Her.
  rewrite He, Hnode in Her.
  destruct (step_Ok RE st st' nodeId q Hqueue Hstep)
    as (st1 & ms & -> & _ & _ & _ & _ & _ & _ & HR1).
  rewrite Hfind in HR1. destruct HR1 as [_ HR1].
  destruct (trigger_all_frame st1 ms) as (_ & _ & _ & Hr' & _ & _).
  assert (∀ k, k ≠ nodeId →
            s_nodeResults (foldl trigger st1 ms) !! k = s_nodeResults st !! k) as Hother.
  { intros k Hk. rewrite Hr'. destruct ((gather st node).1).
    - destruct HR1 as (out & _ & ->). rewrite lookup_insert_ne; [done|]. by rewrite Hnode.
    - by rewrite HR1. }
  intros e Hein [Ht|Ht%elem_of_singleton]%elem_of_union.
  - rewrite Her, record_lookup_notin.
    + rewrite Hedge by done. f_equal. symmetry. apply Hother.
      intros Hs. apply Hfresh. rewrite <- Hs. by apply Hdpreds.
    + intros (e' & Hid' & [Ht' Hin']%list_elem_of_filter)%list_elem_of_fmap.
      apply (edge_unique edges e e') in Hid'; [|done..]. subst e'.
      apply Hfresh. by rewrite <- Ht'.
  - rewrite Her, (record_lookup_in (λ e, s_nodeResults st !! source e)).
    + f_equal. symmetry. apply Hother. intros Hs. apply Hfresh. rewrite <- Hs.
      by apply Hpreds.
    + by apply NoDup_fmap_filter.
    + by apply list_elem_of_filter.
Qed.

(** X17: what a pipe shows.  On a well-formed acyclic graph without
    negative batch size whose edge ids are unique and whose ids are not
    names of members of [Object.prototype], the run returns and the
    value recorded for every edge is the final output of the edge's source
    node: the entry of the source in the node-output map if it has one, the
    recorded absence of a value if it has none. *)
Theorem pipes_carry_source_output :
  plain_graph nodes edges → acyclic edges → Forall batch_ok nodes →
  ∃ r, executeFlow RE nodes edges prev = Ok r
       ∧ ∀ e, e ∈ edges → edgeResults r !! edge_id e = Some (nodeResults r !! source e).
Proof.
  intros _ Hacyc Hok.
  destruct (executeFlow_store_total RE nodes edges prev Hok) as [st Hrun].
  unfold executeFlow. rewrite Hrun. cbn [obind]. eexists. split; [done|].
  cbn [nodeResults edgeResults]. unfold executeFlow_store in Hrun.
  apply (kahn_invariant RE
           (λ st, ∃ done, kahn_inv RE nodes edges prev done st ∧ edge_inv edges done st))
    in Hrun as [(done & Hinv & Hedge) Hempty].
  - intros e Hein. apply Hedge; [done|].
    eapply (all_done RE nodes edges prev Hwf); [done..|].
    destruct Hwf as [_ Hedges]. by apply Hedges.
  - intros st0 st1 (done0 & Hinv0 & Hedge0) Hne Hstep.
    destruct (s_queue st0) as [|nodeId q] eqn:Hq; [done|].
    exists (done0 ∪ {[nodeId]}). split.
    + by eapply (step_inv RE nodes edges prev Hwf).
    + by eapply step_edge_inv.
  - exists ∅. split; [by apply setup_inv|]. intros e _ Hdone. set_solver.
Qed.

End Pipes.

Lemma pipes_carry_source_output_witness :
  ∃ r, executeFlow plain_engine diamond_nodes diamond_edges ∅ = Ok r
       ∧ ∀ e, e ∈ diamond_edges →
           edgeResults r !! edge_id e = Some (nodeResults r !! source e).
Proof.
  apply (pipes_carry_source_output plain_engine diamond_nodes diamond_edges ∅).
  - split; [compute_done|]. apply Forall_forall. repeat constructor; compute_done.
  - compute_done.
  - compute_done.
  - apply (acyclic_rank _ diamond_rank). apply Forall_forall.
    repeat constructor; vm_compute; lia.
  - compute_done.
Defined.

(** ** The previous outputs and the nodes that read them *)

Section Memory.
Context (RE : RegExpEngine).

Lemma foldl_with_prev {X} (f : Store → X → Store) p :
  (∀ st x, f (with_prev p st) x = with_prev p (f st x)) →
  ∀ l st, foldl f (with_prev p st) l = with_prev p (foldl f st l).
Proof.
  intros Hf l. induction l as [|x l IH]; intros st; [done|]. simpl. by rewrite Hf, IH.
Qed.

Lemma init_node_with_prev p st n : init_node (with_prev p st) n = with_prev p (init_node st n).
Proof. unfold init_node. by destruct (isSource _). Qed.

Lemma init_edge_with_prev p st e : init_edge (with_prev p st) e = with_prev p (init_edge st e).
Proof.
  unfold init_edge. cbn [s_adjacency with_prev]. by destruct (s_adjacency st !! source e).
Qed.

Lemma trigger_with_prev p st m : trigger (with_prev p st) m = with_prev p (trigger st m).
Proof.
  unfold trigger. cbn [s_inDegree set_inDegree with_prev]. by case_bool_decide.
Qed.

Lemma setup_with_prev nodes edges p1 p2 :
  setup nodes edges p2 = with_prev p2 (setup nodes edges p1).
Proof.
  unfold setup. cbn [s_nodes s_edges].
  change (mkStore nodes edges p2 ∅ ∅ ∅ ∅ [])
    with (with_prev p2 (mkStore nodes edges p1 ∅ ∅ ∅ ∅ [])).
  rewrite (foldl_with_prev init_node p2 (init_node_with_prev p2)).
  by rewrite (foldl_with_prev init_edge p2 (init_edge_with_prev p2)).
Qed.

Lemma gather_with_prev p st node :
  gather (with_prev p st) node = ((gather st node).1, with_prev p (gather st node).2).
Proof.
  unfold gather. cbn [s_edges s_nodeResults with_prev]. case_bool_decide.
  - cbn [fst snd]. f_equal.
    by apply (foldl_with_prev
                (λ st e, set_edgeResults <[edge_id e := s_nodeResults st !! source e]> st)).
  - by destruct (isSource _).
Qed.

Lemma process_node_prev p1 p2 node input :
  (type (data node) = SEQUENCE → p1 !! id node = p2 !! id node) →
  process_node RE p1 node input = process_node RE p2 node input.
Proof.
  intros Hagree. unfold process_node. destruct (type (data node)); try done.
  unfold prev_output. by rewrite Hagree.
Qed.

Lemma step_with_prev p st :
  (∀ n, n ∈ s_nodes st → type (data n) = SEQUENCE →
        s_prevNodeResults st !! id n = p !! id n) →
  step RE (with_prev p st) = outcome_map (with_prev p) (step RE st).
Proof.
  intros Hagree. unfold step. cbn [s_queue with_prev].
  destruct (s_queue st) as [|nodeId q]; [done|]. cbn [s_nodes set_queue with_prev].
  destruct (List.find _ (s_nodes st)) as [node|] eqn:Hfind; [|done].
  apply find_some in Hfind as [Hin%list_elem_of_In _].
  change (set_queue (drop 1) (with_prev p st)) with (with_prev p (set_queue (drop 1) st)).
  rewrite gather_with_prev.
  destruct (gather_frame (set_queue (drop 1) st) node) as (_ & _ & Hp & _).
  destruct (gather (set_queue (drop 1) st) node) as [inp st0]. cbn [fst snd] in *.
  assert (∀ st1,
            Ok match s_adjacency (with_prev p st1) !! nodeId with
               | Some neighbors => foldl trigger (with_prev p st1) neighbors
               | None => with_prev p st1
               end
            = outcome_map (with_prev p)
                (Ok match s_adjacency st1 !! nodeId with
                    | Some neighbors => foldl trigger st1 neighbors
                    | None => st1
                    end)) as Hend.
  { intros st1. cbn [s_adjacency with_prev outcome_map].
    destruct (s_adjacency st1 !! nodeId) as [ms|]; [|done].
    by rewrite (foldl_with_prev trigger p (trigger_with_prev p)). }
  destruct inp as [input|]; cbn [obind]; [|apply Hend].
  cbn [s_prevNodeResults with_prev].
  rewrite (process_node_prev p (s_prevNodeResults st0) node input).
  - destruct (process_node RE _ node input) as [out| |]; cbn [obind]; [|done..].
    exact (Hend (set_nodeResults <[id node := out]> st0)).
  - intros Hty. rewrite Hp. cbn [s_prevNodeResults set_queue]. symmetry. by apply Hagree.
Qed.

Lemma kahn_with_prev p fuel st :
  (∀ n, n ∈ s_nodes st → type (data n) = SEQUENCE →
        s_prevNodeResults st !! id n = p !! id n) →
  kahn RE fuel (with_prev p st) = outcome_map (with_prev p) (kahn RE fuel st).
Proof.
  revert st. induction fuel as [|fuel IH]; intros st Hagree.
  - simpl. by destruct (s_queue st).
  - simpl. destruct (s_queue st) as [|nodeId q] eqn:Hq; [done|].
    rewrite step_with_prev by done.
    destruct (step RE st) as [st1| |] eqn:Hstep; cbn [outcome_map obind]; [|done..].
    apply IH. by destruct (step_frame RE st st1 Hstep) as (-> & _ & ->).
Qed.

(** X18: only the matchers remember.  On every graph, the result of a
    pass depends on the previous outputs through the entries of the
    SEQUENCE nodes alone: two previous-output maps that agree at the id of
    every SEQUENCE node give the same result, whatever else they hold. *)
Theorem only_matchers_remember nodes edges prev1 prev2 :
  (∀ n, n ∈ nodes → type (data n) = SEQUENCE → prev1 !! id n = prev2 !! id n) →
  executeFlow RE nodes edges prev1 = executeFlow RE nodes edges prev2.
Proof.
  intros Hagree. unfold executeFlow, executeFlow_store.
  rewrite (setup_with_prev nodes edges prev1 prev2), kahn_with_prev.
  - by destruct (kahn RE _ (setup nodes edges prev1)).
  - destruct (setup_frame nodes edges prev1) as (-> & _ & ->). done.
Qed.

End Memory.

Lemma only_matchers_remember_witness :
  executeFlow plain_engine (matcher_nodes "XBYA" "AB") matcher_edges {["2" := VStr "A"]}
  = executeFlow plain_engine (matcher_nodes "XBYA" "AB") matcher_edges
      {["2" := VStr "A"; "1" := VStr "old"]}.
Proof.
  apply (only_matchers_remember plain_engine (matcher_nodes "XBYA" "AB") matcher_edges).
  intros n Hin Hty. repeat (apply elem_of_cons in Hin as [->|Hin]); try done.
  by apply elem_of_nil in Hin.
Defined.

(** ** The filter operation *)

Section Grep.
Context (RE : RegExpEngine).

Lemma filter_filter_same {A} (P : A → Prop) `{!∀ x, Decision (P x)} (l : list A) :
  filter P (filter P l) = filter P l.
Proof. apply filter_all. by intros x [HP _]%list_elem_of_filter. Qed.

(** X19: the filter operation selects: whatever the pattern, valid or
    not, and whatever the engine answers, its output is the input lines
    with some of them left out, the others in their order and as often as
    they occurred; filtering the output again with the same configuration
    leaves it as it is. *)
Theorem grep_selects (input : value) (config : NodeData) :
  processType config = Some GREP →
  ∃ out, processData RE input config = Ok (VArr out)
         ∧ out `sublist_of` data_lines input
         ∧ processData RE (VArr out) config = Ok (VArr out).
Proof.
  intros Hty. unfold processData. rewrite Hty. unfold new_RegExp.
  destruct (RegExp_new RE _ "i") as [regex|]; cbn [obind try_catch].
  - eexists. split; [done|]. split; [apply sublist_filter|].
    cbn [data_lines]. by rewrite filter_filter_same.
  - eexists. split; [done|]. split; [apply sublist_filter|].
    cbn [data_lines]. by rewrite filter_filter_same.
Qed.

End Grep.

Lemma grep_selects_witness :
  ∃ out, processData plain_engine (VStr ("Error 1" +:+ LF +:+ "ok" +:+ LF +:+ "error 2"))
           (mkData PROCESS (Some GREP) (Some (with_pattern "error"))) = Ok (VArr out)
         ∧ out `sublist_of`
             data_lines (VStr ("Error 1" +:+ LF +:+ "ok" +:+ LF +:+ "error 2"))
         ∧ processData plain_engine (VArr out)
             (mkData PROCESS (Some GREP) (Some (with_pattern "error"))) = Ok (VArr out).
Proof.
  apply (grep_selects plain_engine
           (VStr ("Error 1" +:+ LF +:+ "ok" +:+ LF +:+ "error 2"))
           (mkData PROCESS (Some GREP) (Some (with_pattern "error")))).
  reflexivity.
Defined.

(** * App.tsx: the node list between the passes *)

(** ** The stream buffer *)

Lemma string_drop_length n s :
  String.length (string_drop n s) = (String.length s - n)%nat.
Proof.
  revert s. induction n as [|n IH]; intros s; [simpl; lia|].
  destruct s as [|c s]; [done|]. simpl. apply IH.
Qed.

Lemma string_drop_suffix n s : ∃ dropped, s = dropped +:+ string_drop n s.
Proof.
  revert s. induction n as [|n IH]; intros s; [by exists ""|].
  destruct s as [|c s]; [by exists ""|].
  destruct (IH s) as [d Hd]. exists (String c d).
  rewrite JsStringFacts.app_cons. cbn [string_drop]. by f_equal.
Qed.

Lemma slice_from_end_length s n :
  String.length (slice_from_end s n) = (n `min` String.length s)%nat.
Proof. unfold slice_from_end. rewrite string_drop_length. lia. Qed.

Lemma slice_from_end_short s n : (String.length s ≤ n)%nat → slice_from_end s n = s.
Proof.
  intros Hlen. unfold slice_from_end. by replace (String.length s - n)%nat with 0%nat by lia.
Qed.

Lemma seed_set_pattern text node : seed (set_pattern text node) = VStr text.
Proof. unfold seed. cbn. by destruct text. Qed.

(** ** One node in a tick *)

Lemma tick_node_idle s node : streaming node = false → tick_node s node = node.
Proof.
  unfold streaming, tick_node. destruct (type (data node)); try done.
  by case_bool_decide.
Qed.

Lemma tick_node_streaming s node :
  streaming node = true →
  tick_node s node
  = set_pattern
      (slice_from_end (str_or (param pattern (params (data node))) "" +:+ s) 80) node.
Proof.
  unfold streaming, tick_node. destruct (type (data node)); try done.
  by case_bool_decide.
Qed.

Lemma tick_node_frame s node :
  id (tick_node s node) = id node
  ∧ type (data (tick_node s node)) = type (data node)
  ∧ isActive (data (tick_node s node)) = isActive (data node)
  ∧ param batchSize (params (data (tick_node s node)))
    = param batchSize (params (data node)).
Proof.
  unfold tick_node. destruct (type (data node)) eqn:Hty; try done.
  by case_bool_decide.
Qed.

Lemma tick_node_streaming_eq s node : streaming (tick_node s node) = streaming node.
Proof.
  destruct (tick_node_frame s node) as (_ & Hty & Hact & _).
  unfold streaming. by rewrite Hty, Hact.
Qed.

Lemma tick_node_batch_ok s node : batch_ok node → batch_ok (tick_node s node).
Proof.
  destruct (tick_node_frame s node) as (_ & Hty & _ & Hb).
  unfold batch_ok. rewrite Hty, Hb. done.
Qed.

(** ** A tick *)

Lemma emitter_tick_lookup seg nodes i :
  emitter_tick seg nodes !! i = tick_node (seg i) <$> nodes !! i.
Proof.
  unfold emitter_tick. destruct (existsb streaming nodes) eqn:Hex.
  - exact (list_lookup_imap (λ i node, tick_node (seg i) node) nodes i).
  - destruct (nodes !! i) as [node|] eqn:Hi; [|done]. simpl. f_equal. symmetry.
    apply tick_node_idle. destruct (streaming node) eqn:Hs; [|done].
    assert (existsb streaming nodes = true) as Hex'; [|congruence].
    apply existsb_exists. exists node. split; [|done].
    apply list_elem_of_In. by eapply list_elem_of_lookup_2.
Qed.

Lemma emitter_tick_ids seg nodes : node_ids (emitter_tick seg nodes) = node_ids nodes.
Proof.
  unfold node_ids. apply list_eq. intros i.
  rewrite !list_lookup_fmap, emitter_tick_lookup.
  destruct (nodes !! i) as [node|]; [|done]. simpl. f_equal. apply tick_node_frame.
Qed.

Lemma emitter_tick_batch_ok seg nodes :
  Forall batch_ok nodes → Forall batch_ok (emitter_tick seg nodes).
Proof.
  rewrite !Forall_lookup. intros Hok i node' Hi. rewrite emitter_tick_lookup in Hi.
  destruct (nodes !! i) as [node|] eqn:Hn; [|done]. injection Hi as <-.
  apply tick_node_batch_ok. by eapply Hok.
Qed.

(** X20: the buffer of a stream.  In a tick, an emitter that is not
    paused gets as its new buffer the last 80 code units of its buffer
    followed by the new segment (all of them when there are fewer); nothing
    else of the node changes, and the buffer is what the next pass seeds
    the node with. *)
Theorem emitter_tick_buffer (newSegment : nat → string) nodes i (node : AppNode) :
  nodes !! i = Some node → streaming node = true →
  let fed := str_or (param pattern (params (data node))) "" +:+ newSegment i in
  ∃ buffer dropped,
    emitter_tick newSegment nodes !! i = Some (set_pattern buffer node)
    ∧ fed = dropped +:+ buffer
    ∧ String.length buffer = (80 `min` String.length fed)%nat
    ∧ seed (set_pattern buffer node) = VStr buffer.
Proof.
  intros Hi Hs fed.
  destruct (string_drop_suffix (String.length fed - 80) fed) as [dropped Hd].
  exists (slice_from_end fed 80), dropped.
  rewrite emitter_tick_lookup, Hi. simpl. rewrite tick_node_streaming by done.
  split; [done|]. split; [exact Hd|]. split; [apply slice_from_end_length|].
  apply seed_set_pattern.
Qed.

(** ** A run of ticks *)

Lemma ticks_cons seg segs nodes :
  ticks (seg :: segs) nodes = ticks segs (emitter_tick seg nodes).
Proof. done. Qed.

Lemma ticks_ids segs nodes : node_ids (ticks segs nodes) = node_ids nodes.
Proof.
  revert nodes. induction segs as [|seg segs IH]; intros nodes; [done|].
  by rewrite ticks_cons, IH, emitter_tick_ids.
Qed.

Lemma ticks_batch_ok segs nodes : Forall batch_ok nodes → Forall batch_ok (ticks segs nodes).
Proof.
  revert nodes. induction segs as [|seg segs IH]; intros nodes Hok; [done|].
  rewrite ticks_cons. by apply IH, emitter_tick_batch_ok.
Qed.

Lemma ticks_idle segs nodes i node :
  nodes !! i = Some node → streaming node = false → ticks segs nodes !! i = Some node.
Proof.
  revert nodes. induction segs as [|seg segs IH]; intros nodes Hi Hs; [done|].
  rewrite ticks_cons. apply IH; [|done].
  rewrite emitter_tick_lookup, Hi. simpl. by rewrite tick_node_idle.
Qed.

Lemma ticks_streaming segs nodes i node :
  nodes !! i = Some node → streaming node = true →
  ∃ node', ticks segs nodes !! i = Some node' ∧ streaming node' = true
    ∧ (segs ≠ [] →
       ∃ buffer, param pattern (params (data node')) = Some buffer
                 ∧ (String.length buffer ≤ 80)%nat).
Proof.
  revert nodes node. induction segs as [|seg segs IH]; intros nodes node Hi Hs.
  - exists node. by split.
  - rewrite ticks_cons.
    destruct (IH (emitter_tick seg nodes) (tick_node (seg i) node))
      as (node' & Hi' & Hs' & Hbuf).
    { by rewrite emitter_tick_lookup, Hi. }
    { by rewrite tick_node_streaming_eq. }
    exists node'. split; [done|]. split; [done|]. intros _.
    destruct segs as [|seg' segs]; [|by apply Hbuf].
    cbn in Hi'. rewrite emitter_tick_lookup, Hi in Hi'. injection Hi' as <-.
    rewrite tick_node_streaming by done. eexists. split; [done|].
    rewrite slice_from_end_length. lia.
Qed.

(** X21: the stream leaves the graph alone.  After any number of ticks on
    a well-formed graph without negative batch size, the graph is still
    well-formed and without negative batch size, with the same node ids in
    the same order, so the pass on it returns; every node that is not a
    streaming emitter (another kind of node, or a paused emitter) is as it
    was; and after at least one tick the buffer of every streaming emitter
    has at most 80 code units. *)
Theorem ticks_keep_graph (RE : RegExpEngine) segments nodes edges prev :
  well_formed nodes edges → Forall batch_ok nodes →
  well_formed (ticks segments nodes) edges
  ∧ Forall batch_ok (ticks segments nodes)
  ∧ node_ids (ticks segments nodes) = node_ids nodes
  ∧ (∃ r, executeFlow RE (ticks segments nodes) edges prev = Ok r)
  ∧ (∀ i node, nodes !! i = Some node → streaming node = false →
       ticks segments nodes !! i = Some node)
  ∧ (segments ≠ [] → ∀ i node, ticks segments nodes !! i = Some node →
       streaming node = true →
       ∃ buffer, param pattern (params (data node)) = Some buffer
                 ∧ (String.length buffer ≤ 80)%nat).
Proof.
  intros Hwf Hok. pose proof (ticks_batch_ok segments nodes Hok) as Hok'.
  split; [|split; [done|split; [apply ticks_ids|split; [|split]]]].
  - unfold well_formed. by rewrite ticks_ids.
  - destruct (executeFlow_store_total RE (ticks segments nodes) edges prev Hok') as [st Hst].
    unfold executeFlow. rewrite Hst. by eexists.
  - intros i node. apply ticks_idle.
  - intros Hne i node' Hi' Hs'.
    destruct (nodes !! i) as [node|] eqn:Hi.
    + destruct (streaming node) eqn:Hs.
      * destruct (ticks_streaming segments nodes i node Hi Hs) as (node'' & Hi'' & _ & Hbuf).
        rewrite Hi' in Hi''. injection Hi'' as <-. by apply Hbuf.
      * rewrite (ticks_idle segments nodes i node Hi Hs) in Hi'. injection Hi' as <-.
        congruence.
    + apply lookup_ge_None in Hi.
      assert (length (ticks segments nodes) = length nodes) as Hlen.
      { rewrite <- (length_fmap id (ticks segments nodes)), <- (length_fmap id nodes).
        fold (node_ids (ticks segments nodes)). fold (node_ids nodes). by rewrite ticks_ids. }
      apply lookup_lt_Some in Hi'. lia.
Qed.

Lemma emitter_tick_buffer_witness :
  ∃ buffer dropped,
    emitter_tick (λ _, "cd") (matcher_nodes "ab" "AB") !! 0%nat
    = Some (set_pattern buffer (mkNode "1" EMITTER None (Some (with_pattern "ab"))))
    ∧ "abcd" = dropped +:+ buffer
    ∧ String.length buffer = (80 `min` String.length "abcd")%nat
    ∧ seed (set_pattern buffer (mkNode "1" EMITTER None (Some (with_pattern "ab"))))
      = VStr buffer.
Proof.
  apply (emitter_tick_buffer (λ _, "cd") (matcher_nodes "ab" "AB") 0
           (mkNode "1" EMITTER None (Some (with_pattern "ab")))); reflexivity.
Defined.

Lemma ticks_keep_graph_witness :
  let nodes' := ticks [λ _, "cd"; λ _, "ef"] (matcher_nodes "ab" "AB") in
  well_formed nodes' matcher_edges
  ∧ Forall batch_ok nodes'
  ∧ node_ids nodes' = node_ids (matcher_nodes "ab" "AB")
  ∧ (∃ r, executeFlow plain_engine nodes' matcher_edges ∅ = Ok r)
  ∧ (∀ i node, matcher_nodes "ab" "AB" !! i = Some node → streaming node = false →
       nodes' !! i = Some node)
  ∧ ([λ _ : nat, "cd"; λ _ : nat, "ef"] ≠ [] → ∀ i node, nodes' !! i = Some node →
       streaming node = true →
       ∃ buffer, param pattern (params (data node)) = Some buffer
                 ∧ (String.length buffer ≤ 80)%nat).
Proof.
  apply (ticks_keep_graph plain_engine [λ _, "cd"; λ _, "ef"] (matcher_nodes "ab" "AB")
           matcher_edges ∅).
  - split; [compute_done|]. apply Forall_forall. repeat constructor; compute_done.
  - compute_done.
Defined.

(** ** The editing handlers *)

Section Handlers.
Context (RE : RegExpEngine).

Lemma well_formed_ids nodes nodes' edges :
  node_ids nodes' = node_ids nodes → well_formed nodes edges → well_formed nodes' edges.
Proof. intros Hids. unfold well_formed. by rewrite Hids. Qed.

Lemma upstream_zero_in_degree edges results n :
  zero_in_degree edges n → upstream edges results n = [].
Proof.
  intros Hz. induction edges as [|e es IH]; [done|]. cbn [upstream].
  rewrite decide_False by (apply Hz; left). apply IH.
  intros e' He'. apply Hz. by right.
Qed.

(** The output of a source on a well-formed acyclic graph. *)
Lemma source_output_seed nodes edges prev node :
  well_formed nodes edges → acyclic edges → Forall batch_ok nodes →
  node ∈ nodes → isSource (type (data node)) = true →
  ∃ r, executeFlow RE nodes edges prev = Ok r
       ∧ nodeResults r !! id node
         = Some (default (seed node) (fan_in (upstream edges (nodeResults r) (id node)))).
Proof.
  intros Hwf Hacyc Hok Hin Hsrc.
  destruct (executeFlow_equations RE nodes edges prev Hwf Hacyc Hok) as (r & Hrun & _ & Heq).
  exists r. split; [done|]. specialize (Heq node Hin). unfold node_equation in Heq.
  destruct (fan_in _) as [input|].
  - destruct Heq as (out & Hout & ->). rewrite process_node_source in Hout by done.
    by injection Hout as <-.
  - by rewrite Hsrc in Heq.
Qed.

Lemma set_pattern_frame text node :
  id (set_pattern text node) = id node
  ∧ type (data (set_pattern text node)) = type (data node)
  ∧ param batchSize (params (data (set_pattern text node)))
    = param batchSize (params (data node)).
Proof. done. Qed.

Lemma handleUpdateInput_ids sel text nodes :
  node_ids (handleUpdateInput sel text nodes) = node_ids nodes.
Proof.
  unfold handleUpdateInput. destruct sel as [sel|]; [|done].
  destruct (JsString.truthy sel); [|done]. unfold node_ids.
  rewrite <- list_fmap_compose. apply list_fmap_ext. intros _ node _. simpl.
  by destruct (_ && _).
Qed.

Lemma handleUpdateInput_batch_ok sel text nodes :
  Forall batch_ok nodes → Forall batch_ok (handleUpdateInput sel text nodes).
Proof.
  intros Hok. unfold handleUpdateInput. destruct sel as [sel|]; [|done].
  destruct (JsString.truthy sel); [|done]. apply Forall_fmap.
  eapply Forall_impl; [exact Hok|]. intros node Hb. simpl. by destruct (_ && _).
Qed.

(** X22: what is typed is what flows.  On a well-formed acyclic graph
    without negative batch size whose ids are not names of members of
    [Object.prototype], once the text of the selected INPUT or
    EMITTER node has been edited the graph is still well-formed, and the
    next pass gives the node the typed text as its output: verbatim when
    no incoming edge brings a value (in particular when the node has no
    incoming edge), the aggregation of the incoming values otherwise.  The
    empty text gives the empty output. *)
Theorem edited_text_is_output nodes edges prev (sel text : string) (node : AppNode) :
  plain_graph nodes edges →
  well_formed nodes edges → acyclic edges → Forall batch_ok nodes →
  sel ≠ "" → node ∈ nodes → id node = sel → isSource (type (data node)) = true →
  well_formed (handleUpdateInput (Some sel) text nodes) edges
  ∧ ∃ r, executeFlow RE (handleUpdateInput (Some sel) text nodes) edges prev = Ok r
       ∧ nodeResults r !! sel
         = Some (default (VStr text) (fan_in (upstream edges (nodeResults r) sel)))
       ∧ (zero_in_degree edges sel → nodeResults r !! sel = Some (VStr text)).
Proof.
  intros _ Hwf Hacyc Hok Hsel Hin Hid Hsrc.
  assert (well_formed (handleUpdateInput (Some sel) text nodes) edges) as Hwf'.
  { eapply well_formed_ids; [apply handleUpdateInput_ids|done]. }
  split; [done|].
  destruct (source_output_seed (handleUpdateInput (Some sel) text nodes) edges prev
              (set_pattern text node)) as (r & Hrun & Hout); [done|done| | | |].
  - by apply handleUpdateInput_batch_ok.
  - unfold handleUpdateInput. destruct sel as [|c sel]; [done|]. cbn [JsString.truthy].
    apply list_elem_of_fmap. exists node. split; [|done].
    by rewrite bool_decide_eq_true_2, Hsrc.
  - done.
  - exists r. split; [done|]. rewrite seed_set_pattern in Hout. cbn [id set_pattern] in Hout.
    rewrite Hid in Hout. split; [done|]. intros Hz.
    by rewrite Hout, upstream_zero_in_degree.
Qed.

(** ** Pausing an emitter *)

Lemma handleToggleActive_lookup sel nodes i :
  sel ≠ "" →
  handleToggleActive (Some sel) nodes !! i
  = (λ node, if bool_decide (id node = sel)
             then set_isActive (negb (default true (isActive (data node)))) node
             else node) <$> nodes !! i.
Proof.
  intros Hsel. unfold handleToggleActive. destruct sel as [|c sel]; [done|].
  cbn [JsString.truthy]. apply list_lookup_fmap.
Qed.

(** X23: a paused emitter is frozen.  Toggling the selected emitter while
    it streams pauses it: from then on no number of ticks changes the node,
    so every pass is seeded with the buffer it had when it was paused;
    toggling it once more makes it stream again, with the same buffer. *)
Theorem paused_emitter_is_frozen (sel : string) nodes i (node : AppNode) segments :
  sel ≠ "" → nodes !! i = Some node → id node = sel → streaming node = true →
  ticks segments (handleToggleActive (Some sel) nodes) !! i = Some (set_isActive false node)
  ∧ seed (set_isActive false node) = seed node
  ∧ handleToggleActive (Some sel) (handleToggleActive (Some sel) nodes) !! i
    = Some (set_isActive true node)
  ∧ streaming (set_isActive true node) = true
  ∧ seed (set_isActive true node) = seed node.
Proof.
  intros Hsel Hi Hid Hs.
  assert (default true (isActive (data node)) = true) as Hact.
  { unfold streaming in Hs. destruct (type (data node)); try done.
    by destruct (isActive (data node)) as [[]|]. }
  assert (type (data node) = EMITTER) as Hty.
  { unfold streaming in Hs. by destruct (type (data node)). }
  assert (handleToggleActive (Some sel) nodes !! i = Some (set_isActive false node)) as Hi'.
  { rewrite handleToggleActive_lookup, Hi by done. simpl.
    by rewrite bool_decide_eq_true_2, Hact. }
  split; [|split; [done|split; [|split; [|done]]]].
  - apply ticks_idle; [done|]. unfold streaming. cbn. by rewrite Hty.
  - rewrite handleToggleActive_lookup, Hi' by done. simpl.
    by rewrite bool_decide_eq_true_2.
  - unfold streaming. cbn. by rewrite Hty.
Qed.

(** ** The first pass on a generated flow *)

Lemma prepare_nodes_ids nodes : node_ids (prepare_node <$> nodes) = node_ids nodes.
Proof. unfold node_ids. rewrite <- list_fmap_compose. by apply list_fmap_ext. Qed.

Lemma prepare_node_batch_ok node : batch_ok node → batch_ok (prepare_node node).
Proof.
  unfold batch_ok. cbn. intros Hb Hty. rewrite Hty in *.
  rewrite bool_decide_eq_false_2 by done. by apply Hb.
Qed.

(** X24: a generated flow shows something.  On a well-formed acyclic
    generated graph without negative batch size whose ids are not names of
    members of [Object.prototype], the first pass returns,
    starts every matcher from the empty progress whatever was shown before,
    and every INPUT node without incoming edge has a non-empty output: its
    own pattern when the response gave it one, the sample lines otherwise. *)
Theorem generated_inputs_show_data aiNodes aiEdges (n : AppNode) :
  plain_graph aiNodes aiEdges →
  well_formed aiNodes aiEdges → acyclic aiEdges → Forall batch_ok aiNodes →
  n ∈ aiNodes → type (data n) = INPUT → zero_in_degree aiEdges (id n) →
  ∃ results ref s,
    first_pass RE aiNodes aiEdges = Ok (results, ref)
    ∧ ref = nodeResults results
    ∧ nodeResults results !! id n = Some (VStr s)
    ∧ s ≠ ""
    ∧ (param pattern (params (data n)) = Some s
       ∨ default "" (param pattern (params (data n))) = "" ∧ s = sample_input).
Proof.
  intros _ Hwf Hacyc Hok Hin Hty Hz.
  destruct (source_output_seed (prepare_node <$> aiNodes) aiEdges ∅ (prepare_node n))
    as (r & Hrun & Hout).
  - eapply well_formed_ids; [apply prepare_nodes_ids|done].
  - done.
  - apply Forall_fmap. eapply Forall_impl; [exact Hok|]. apply prepare_node_batch_ok.
  - by apply list_elem_of_fmap_2.
  - cbn. by rewrite Hty.
  - cbn [id prepare_node] in Hout. rewrite upstream_zero_in_degree in Hout by done.
    cbn [fan_in default] in Hout. unfold first_pass, run_pass. rewrite Hrun. cbn [obind].
    unfold seed in Hout. cbn [data prepare_node params] in Hout.
    rewrite Hty, bool_decide_eq_true_2 in Hout by done. cbn [andb] in Hout.
    destruct (param pattern (params (data n))) as [[|c p]|] eqn:Hp;
      cbn -[param str_or sample_input] in Hout.
    + exists r, (nodeResults r), sample_input. repeat split; try done. by right.
    + rewrite Hp in Hout. exists r, (nodeResults r), (String c p).
      repeat split; try done. by left.
    + exists r, (nodeResults r), sample_input. repeat split; try done. by right.
Qed.

End Handlers.

Lemma edited_text_is_output_witness :
  well_formed (handleUpdateInput (Some "1") "hello" diamond_nodes) diamond_edges
  ∧ ∃ r, executeFlow plain_engine (handleUpdateInput (Some "1") "hello" diamond_nodes)
           diamond_edges ∅ = Ok r
       ∧ nodeResults r !! "1"
         = Some (default (VStr "hello") (fan_in (upstream diamond_edges (nodeResults r) "1")))
       ∧ (zero_in_degree diamond_edges "1" → nodeResults r !! "1" = Some (VStr "hello")).
Proof.
  apply (edited_text_is_output plain_engine diamond_nodes diamond_edges ∅ "1" "hello"
           (mkNode "1" INPUT None (Some (with_pattern "b a")))).
  - compute_done.
  - split; [compute_done|]. apply Forall_forall. repeat constructor; compute_done.
  - apply (acyclic_rank _ diamond_rank). apply Forall_forall.
    repeat constructor; vm_compute; lia.
  - compute_done.
  - done.
  - by left.
  - reflexivity.
  - reflexivity.
Defined.

Lemma paused_emitter_is_frozen_witness :
  ticks [λ _, "cd"; λ _, "ef"] (handleToggleActive (Some "1") (matcher_nodes "ab" "AB"))
    !! 0%nat
  = Some (set_isActive false (mkNode "1" EMITTER None (Some (with_pattern "ab"))))
  ∧ seed (set_isActive false (mkNode "1" EMITTER None (Some (with_pattern "ab"))))
    = seed (mkNode "1" EMITTER None (Some (with_pattern "ab")))
  ∧ handleToggleActive (Some "1") (handleToggleActive (Some "1") (matcher_nodes "ab" "AB"))
      !! 0%nat
    = Some (set_isActive true (mkNode "1" EMITTER None (Some (with_pattern "ab"))))
  ∧ streaming (set_isActive true (mkNode "1" EMITTER None (Some (with_pattern "ab")))) = true
  ∧ seed (set_isActive true (mkNode "1" EMITTER None (Some (with_pattern "ab"))))
    = seed (mkNode "1" EMITTER None (Some (with_pattern "ab"))).
Proof.
  apply (paused_emitter_is_frozen "1" (matcher_nodes "ab" "AB") 0
           (mkNode "1" EMITTER None (Some (with_pattern "ab"))) [λ _, "cd"; λ _, "ef"]);
    [done|reflexivity..].
Defined.

Lemma generated_inputs_show_data_witness :
  ∃ results ref s,
    first_pass plain_engine [mkNode "1" INPUT None None; mkNode "2" OUTPUT None None]
      [mkEdge "e1-2" "1" "2"] = Ok (results, ref)
    ∧ ref = nodeResults results
    ∧ nodeResults results !! "1" = Some (VStr s)
    ∧ s ≠ ""
    ∧ (param pattern (params (data (mkNode "1" INPUT None None))) = Some s
       ∨ default "" (param pattern (params (data (mkNode "1" INPUT None None)))) = ""
         ∧ s = sample_input).
Proof.
  apply (generated_inputs_show_data plain_engine
           [mkNode "1" INPUT None None; mkNode "2" OUTPUT None None]
           [mkEdge "e1-2" "1" "2"] (mkNode "1" INPUT None None)).
  - compute_done.
  - split; [compute_done|]. apply Forall_forall. repeat constructor; compute_done.
  - apply (acyclic_rank _ (λ n, if bool_decide (n = "1") then 0%nat else 1%nat)).
    apply Forall_forall. repeat constructor; vm_compute; lia.
  - compute_done.
  - by left.
  - reflexivity.
  - intros e He. repeat (apply elem_of_cons in He as [->|He]); [done|].
    by apply elem_of_nil in He.
Defined.

(** ** The count operation *)

Section Count.
Context (RE : RegExpEngine).
Import JsString JsStringFacts.

Lemma join_empty_length (a : list string) :
  String.length (join "" a) = sum_list (String.length <$> a).
Proof.
  induction a as [|x a IH]; [done|]. destruct a as [|y a]; [simpl; lia|].
  rewrite join_cons by done. rewrite !JsStringFacts.length_app, IH. simpl. lia.
Qed.

Lemma splitLines_scan_count cur s :
  length (splitLines_scan cur s) = S (count_LF s)
  ∧ (String.length (join "" (splitLines_scan cur s)) + count_LF s + count_CRLF s
     = String.length cur + String.length s)%nat.
Proof.
  remember (String.length s) as n eqn:Hn. revert cur s Hn.
  induction (lt_wf n) as [n _ IH]; intros cur s ->.
  destruct s as [|c s]; [simpl; lia|]. rewrite splitLines_scan_cons.
  assert (∀ cur' s', (String.length s' < String.length (String c s))%nat →
            String.length (join "" (cur :: splitLines_scan cur' s'))
            = (String.length cur + String.length (join "" (splitLines_scan cur' s')))%nat)
    as Hjoin.
  { intros cur' s' _. rewrite join_cons by apply splitLines_scan_nonempty.
    rewrite !JsStringFacts.length_app. simpl. lia. }
  cbn [count_LF count_CRLF]. destruct (decide (c = "010"%char)) as [->|Hlf].
  - destruct (IH (String.length s) ltac:(simpl; lia) "" s eq_refl) as [H1 H2].
    rewrite Hjoin by (simpl; lia). cbn [length]. rewrite H1.
    rewrite decide_False by done. simpl in *. lia.
  - destruct (decide (c = "013"%char)) as [->|Hcr].
    + destruct s as [|c' s'].
      * destruct (IH 0%nat ltac:(simpl; lia) (cur +:+ String "013"%char "") "" eq_refl)
          as [H1 H2].
        rewrite JsStringFacts.length_app in H2. simpl in *. lia.
      * cbn [count_LF count_CRLF]. destruct (decide (c' = "010"%char)) as [->|Hlf'].
        -- destruct (IH (String.length s') ltac:(simpl; lia) "" s' eq_refl) as [H1 H2].
           rewrite Hjoin by (simpl; lia). cbn [length]. rewrite H1.
           rewrite (decide_False (P := "010"%char = "013"%char)) by done. simpl in *. lia.
        -- destruct (IH (String.length (String c' s')) ltac:(simpl; lia)
                       (cur +:+ String "013"%char "") (String c' s') eq_refl) as [H1 H2].
           rewrite JsStringFacts.length_app in H2. cbn [count_LF count_CRLF] in H1, H2.
           rewrite decide_False in H1, H2 by done. simpl in *. lia.
    + destruct (IH (String.length s) ltac:(simpl; lia) (cur +:+ String c "") s eq_refl)
        as [H1 H2].
      rewrite JsStringFacts.length_app in H2. simpl in *. lia.
Qed.

(** X25: what the count operation counts.  For a raw string it reports
    one line more than the string has line feeds (so one line for the empty
    string, and an extra line after a trailing line break) and, as
    characters, the code units of the string that are not line breaks: its
    length less one for every line feed and one for every carriage return
    that a line feed follows.  For an array it reports the number of
    elements and the sum of their lengths. *)
Theorem count_reports (input : value) (config : NodeData) :
  processType config = Some COUNT →
  ∃ n_lines n_chars : nat,
    processData RE input config
    = Ok (VStr ("Lines: " +:+ pretty n_lines +:+ LF +:+ "Characters: " +:+ pretty n_chars))
    ∧ match input with
      | VStr s =>
          n_lines = S (count_LF s)
          ∧ (n_chars + count_LF s + count_CRLF s = String.length s)%nat
      | VArr a => n_lines = length a ∧ n_chars = sum_list (String.length <$> a)
      end.
Proof.
  intros Hty. unfold processData. rewrite Hty. unfold count_summary.
  eexists _, _. split; [reflexivity|]. destruct input as [s|a]; cbn [data_lines].
  - unfold splitLines. destruct (splitLines_scan_count "" s) as [H1 H2].
    split; [done|]. simpl in H2. lia.
  - split; [done|]. apply join_empty_length.
Qed.

End Count.

Lemma count_reports_witness :
  ∃ n_lines n_chars : nat,
    processData plain_engine (VStr ("a" +:+ CRLF +:+ "bc" +:+ LF))
      (mkData PROCESS (Some COUNT) None)
    = Ok (VStr ("Lines: " +:+ pretty n_lines +:+ LF +:+ "Characters: " +:+ pretty n_chars))
    ∧ n_lines = S (count_LF ("a" +:+ CRLF +:+ "bc" +:+ LF))
    ∧ (n_chars + count_LF ("a" +:+ CRLF +:+ "bc" +:+ LF)
       + count_CRLF ("a" +:+ CRLF +:+ "bc" +:+ LF)
       = String.length ("a" +:+ CRLF +:+ "bc" +:+ LF))%nat.
Proof.
  apply (count_reports plain_engine (VStr ("a" +:+ CRLF +:+ "bc" +:+ LF))
           (mkData PROCESS (Some COUNT) None)).
  reflexivity.
Defined.

(** ** The result of a pass as the solution of the node equations *)

Section Solution.
Context (RE : RegExpEngine).

(** On a well-formed acyclic graph the node equations have at most one
    solution among the maps whose keys are node ids. *)
Lemma equations_unique nodes edges prev (R1 R2 : gmap string value) :
  well_formed nodes edges → acyclic edges →
  (∀ n, is_Some (R1 !! n) → n ∈ node_ids nodes) →
  (∀ n, is_Some (R2 !! n) → n ∈ node_ids nodes) →
  (∀ node, node ∈ nodes → node_equation RE edges prev R1 node) →
  (∀ node, node ∈ nodes → node_equation RE edges prev R2 node) →
  R1 = R2.
Proof.
  intros Hwf Hacyc Hk1 Hk2 He1 He2. apply map_eq. intros n.
  destruct (decide (n ∈ node_ids nodes)) as [Hin|Hout].
  - induction (acyclic_Acc edges Hacyc n) as [n _ IH].
    destruct (node_of_id _ _ Hin) as (node & Hnode & <-).
    assert (upstream edges R1 (id node) = upstream edges R2 (id node)) as Hup.
    { apply upstream_agree. intros e He Ht. apply IH; [by exists e|].
      destruct Hwf as [_ Hedges]. by apply Hedges. }
    pose proof (He1 node Hnode) as H1. pose proof (He2 node Hnode) as H2.
    unfold node_equation in H1, H2. rewrite Hup in H1.
    destruct (fan_in (upstream edges R2 (id node))) as [input|].
    + destruct H1 as (out1 & Ho1 & ->). destruct H2 as (out2 & Ho2 & ->). congruence.
    + by rewrite H1, H2.
  - destruct (R1 !! n) eqn:E1; [destruct Hout; by apply Hk1|].
    destruct (R2 !! n) eqn:E2; [destruct Hout; by apply Hk2|]. done.
Qed.

(** X26: the node outputs solve the node equations, and nothing else
    does.  On a well-formed acyclic graph without negative batch size whose
    ids are not names of members of [Object.prototype], the
    pass returns the one map, with node ids as keys, in which the entry of
    every node is what the node makes of the aggregated entries of its
    upstream nodes; hence the order of the node list is irrelevant: listing
    the same nodes in another order gives the same node outputs. *)
Theorem node_outputs_unique_solution nodes nodes' edges prev :
  plain_graph nodes edges →
  well_formed nodes edges → acyclic edges → Forall batch_ok nodes → nodes' ≡ₚ nodes →
  ∃ r r',
    executeFlow RE nodes edges prev = Ok r
    ∧ executeFlow RE nodes' edges prev = Ok r'
    ∧ nodeResults r' = nodeResults r
    ∧ (∀ node, node ∈ nodes → node_equation RE edges prev (nodeResults r) node)
    ∧ ∀ R : gmap string value,
        (∀ n, is_Some (R !! n) → n ∈ node_ids nodes) →
        (∀ node, node ∈ nodes → node_equation RE edges prev R node) →
        R = nodeResults r.
Proof.
  intros _ Hwf Hacyc Hok Hperm.
  assert (node_ids nodes' ≡ₚ node_ids nodes) as Hids by (unfold node_ids; by rewrite Hperm).
  assert (well_formed nodes' edges) as Hwf'.
  { destruct Hwf as [Hnd Hedges]. split; [by rewrite Hids|].
    intros e He. rewrite Hids. by apply Hedges. }
  assert (Forall batch_ok nodes') as Hok' by by rewrite Hperm.
  destruct (executeFlow_equations RE nodes edges prev Hwf Hacyc Hok) as (r & Hrun & Hk & Heq).
  destruct (executeFlow_equations RE nodes' edges prev Hwf' Hacyc Hok')
    as (r' & Hrun' & Hk' & Heq').
  exists r, r'. split; [done|]. split; [done|]. split; [|split; [done|]].
  - apply (equations_unique nodes edges prev); try done.
    + intros n Hn. rewrite <- Hids. by apply Hk'.
    + intros node Hin. apply Heq'. by rewrite Hperm.
  - intros R HkR HeqR. by apply (equations_unique nodes edges prev).
Qed.

End Solution.

Lemma node_outputs_unique_solution_witness :
  ∃ r r',
    executeFlow plain_engine diamond_nodes diamond_edges ∅ = Ok r
    ∧ executeFlow plain_engine (reverse diamond_nodes) diamond_edges ∅ = Ok r'
    ∧ nodeResults r' = nodeResults r
    ∧ (∀ node, node ∈ diamond_nodes →
         node_equation plain_engine diamond_edges ∅ (nodeResults r) node)
    ∧ ∀ R : gmap string value,
        (∀ n, is_Some (R !! n) → n ∈ node_ids diamond_nodes) →
        (∀ node, node ∈ diamond_nodes → node_equation plain_engine diamond_edges ∅ R node) →
        R = nodeResults r.
Proof.
  apply (node_outputs_unique_solution plain_engine diamond_nodes (reverse diamond_nodes)
           diamond_edges ∅).
  - compute_done.
  - split; [compute_done|]. apply Forall_forall. repeat constructor; compute_done.
  - apply (acyclic_rank _ diamond_rank). apply Forall_forall.
    repeat constructor; vm_compute; lia.
  - compute_done.
  - apply reverse_Permutation.
Defined.

(** * C8: what a run does to the objects of its caller *)

Section Frame.
Context (RE : RegExpEngine) (h0 : heap) (r : Refs).

Lemma fresh_loc_fresh (h : heap) : fresh_loc h ∉ dom h.
Proof.
  intros Hin. apply elem_of_elements, max_list_elem_of_le in Hin.
  unfold fresh_loc in Hin. exact (Nat.nle_succ_diag_l _ Hin).
Qed.

Lemma unchanged_dom h l : unchanged h0 h → l ∈ dom h0 → l ∈ dom h.
Proof.
  intros Hun Hl. rewrite elem_of_dom, (Hun l Hl). by apply elem_of_dom.
Qed.




(** A write outside [h0] that keeps the kind of the object it writes. *)
Lemma extends_insert h l c :
  l ∉ dom h0 → (∀ c', h !! l = Some c' → kind_of c' = kind_of c) →
  extends h0 h (<[l := c]> h).
Proof.
  intros Hl Hsame. split.
  - intros l' Hl'. rewrite lookup_insert_ne; [done|]. by intros ->.
  - intros l' Hl'. destruct (decide (l = l')) as [->|Hne]; [|by rewrite lookup_insert_ne].
    rewrite lookup_insert_eq. apply elem_of_dom in Hl' as [c' Hc'].
    rewrite Hc'. simpl. by rewrite (Hsame c' Hc').
Qed.

Lemma extends_alloc h c : unchanged h0 h → extends h0 h (alloc c h).2.
Proof.
  intros Hun. pose proof (fresh_loc_fresh h) as Hfresh. cbn [alloc snd].
  apply extends_insert.
  - intros Hin. apply Hfresh. by apply unchanged_dom.
  - intros c' Hc'. destruct Hfresh. apply elem_of_dom. by eexists.
Qed.

Lemma alloc_created h c :
  unchanged h0 h → created h0 (alloc c h).2 (alloc c h).1 (kind_of c).
Proof.
  intros Hun. pose proof (fresh_loc_fresh h) as Hfresh. cbn [alloc fst snd]. split.
  - intros Hin. apply Hfresh. by apply unchanged_dom.
  - by rewrite lookup_insert_eq.
Qed.

Lemma unchanged_extends h h' : unchanged h0 h → extends h0 h h' → unchanged h0 h'.
Proof. intros Hun [Hext _] l Hl. rewrite (Hext l Hl). by apply Hun. Qed.

Lemma created_extends h h' l k : created h0 h l k → extends h0 h h' → created h0 h' l k.
Proof.
  intros [Hout Hk] [_ Hext]. split; [done|]. rewrite Hext; [done|].
  apply elem_of_dom. by destruct (h !! l).
Qed.





(** ** The two [forEach] loops *)




(** ** An iteration *)





Context (queue : loc).





End Frame.

(** The objects the engine creates first are new. *)
Lemma create_objects_inv h0 nodes edges prev r h :
  create_objects nodes edges prev h0 = (r, h) →
  frame_inv h0 r h
  ∧ r_nodes r = nodes ∧ r_edges r = edges ∧ r_prevNodeResults r = prev
  ∧ r_nodeResults r ≠ r_edgeResults r.
Proof.
  unfold create_objects.
  pose proof (extends_alloc h0 h0 (CValues ∅) (λ _ _, eq_refl)) as E1.
  pose proof (alloc_created h0 h0 (CValues ∅) (λ _ _, eq_refl)) as C1.
  destruct (alloc (CValues ∅) h0) as [l1 h1]. cbn [fst snd] in *.
  pose proof (unchanged_extends h0 h0 h1 (λ _ _, eq_refl) E1) as U1.
  pose proof (extends_alloc h0 h1 (CEdgeValues ∅) U1) as E2.
  pose proof (alloc_created h0 h1 (CEdgeValues ∅) U1) as C2.
  destruct (alloc (CEdgeValues ∅) h1) as [l2 h2]. cbn [fst snd] in *.
  pose proof (unchanged_extends h0 h1 h2 U1 E2) as U2.
  pose proof (extends_alloc h0 h2 (CAdjacency ∅) U2) as E3.
  pose proof (alloc_created h0 h2 (CAdjacency ∅) U2) as C3.
  destruct (alloc (CAdjacency ∅) h2) as [l3 h3]. cbn [fst snd] in *.
  pose proof (unchanged_extends h0 h2 h3 U2 E3) as U3.
  pose proof (extends_alloc h0 h3 (CInDegree ∅) U3) as E4.
  pose proof (alloc_created h0 h3 (CInDegree ∅) U3) as C4.
  destruct (alloc (CInDegree ∅) h3) as [l4 h4]. cbn [fst snd] in *.
  pose proof (unchanged_extends h0 h3 h4 U3 E4) as U4.
  intros [= <- <-]. cbn.
  assert (created h0 h4 l1 KValues) as C1'.
  { eapply created_extends; [|exact E4]. eapply created_extends; [|exact E3].
    eapply created_extends; [exact C1|exact E2]. }
  assert (created h0 h4 l2 KEdgeValues) as C2'.
  { eapply created_extends; [|exact E4]. eapply created_extends; [exact C2|exact E3]. }
  assert (created h0 h4 l3 KAdjacency) as C3' by (eapply created_extends; [exact C3|exact E4]).
  split; [by split|]. split; [done|]. split; [done|]. split; [done|].
  intros ->. destruct C1' as [_ K1], C2' as [_ K2]. rewrite K1 in K2. discriminate.
Qed.



(** The maps of the result are new, the values in them need not be: a
    matcher whose previous output is an array hands that array on, so that
    the result and the previous-output object refer to the same array. *)
Lemma result_shares_previous_array :
  ∃ h nodeResults edgeResults,
    executeFlowH plain_engine example_heap 1%nat 2%nat 3%nat
    = Ok (h, nodeResults, edgeResults)
    ∧ read_values example_heap 3%nat !! "2" = Some (HArr 4%nat)
    ∧ read_values h nodeResults !! "2" = Some (HArr 4%nat)
    ∧ (∃ l, read_values h nodeResults !! "3" = Some (HArr l) ∧ l ∉ dom example_heap
            ∧ read_array h l = ["XBYA"]).
Proof.
  eexists _, _, _. split; [vm_compute; reflexivity|].
  split; [vm_compute; reflexivity|]. split; [vm_compute; reflexivity|].
  eexists. split; [vm_compute; reflexivity|]. split; [|vm_compute; reflexivity].
  compute_done.
Qed.

(** * The heap embedding computes the values of the value embedding *)

Section Refine.
Context (RE : RegExpEngine) (r : Refs) (queue : loc).

(** ** Writing an object of the same kind *)

Lemma overwrite_kind (h : heap) l c l' :
  kind_of <$> (h !! l) = Some (kind_of c) →
  kind_of <$> (<[l := c]> h !! l') = kind_of <$> (h !! l').
Proof.
  intros Hk. destruct (decide (l = l')) as [<-|Hne]; [|by rewrite lookup_insert_ne].
  by rewrite lookup_insert_eq, Hk.
Qed.

Lemma overwrite_array (h : heap) l c a :
  kind_of <$> (h !! l) = Some (kind_of c) → kind_of c ≠ KArray →
  read_array (<[l := c]> h) a = read_array h a.
Proof.
  intros Hk Hc. unfold read_array.
  destruct (decide (l = a)) as [<-|Hne]; [|by rewrite lookup_insert_ne].
  rewrite lookup_insert_eq. destruct (h !! l) as [c'|]; [|done].
  injection Hk as Hk. by destruct c, c'.
Qed.

Lemma overwrite_deref (h : heap) l c v :
  kind_of <$> (h !! l) = Some (kind_of c) → kind_of c ≠ KArray →
  deref (<[l := c]> h) v = deref h v.
Proof. intros Hk Hc. destruct v as [s|a]; [done|]. simpl. by rewrite overwrite_array. Qed.

Lemma overwrite_closed (h : heap) l c v :
  kind_of <$> (h !! l) = Some (kind_of c) → closed (<[l := c]> h) v ↔ closed h v.
Proof. intros Hk. destruct v as [s|a]; [done|]. simpl. by rewrite overwrite_kind. Qed.

(** ** Creating an array *)

Lemma alloc_kind (h : heap) c l' k :
  kind_of <$> (h !! l') = Some k → kind_of <$> ((alloc c h).2 !! l') = Some k.
Proof.
  intros Hk. cbn [alloc snd]. rewrite lookup_insert_ne; [done|].
  intros <-. pose proof (fresh_loc_fresh h) as Hf. apply not_elem_of_dom in Hf.
  by rewrite Hf in Hk.
Qed.

Lemma alloc_closed (h : heap) c v : closed h v → closed (alloc c h).2 v.
Proof. destruct v as [s|a]; [done|]. apply alloc_kind. Qed.

Lemma alloc_deref (h : heap) c v : closed h v → deref (alloc c h).2 v = deref h v.
Proof.
  destruct v as [s|a]; [done|]. simpl. intros Hk. unfold read_array.
  rewrite lookup_insert_ne; [done|].
  intros <-. pose proof (fresh_loc_fresh h) as Hf. apply not_elem_of_dom in Hf.
  by rewrite Hf in Hk.
Qed.

Lemma alloc_array_new (h : heap) a :
  deref (alloc (CArray a) h).2 (HArr (alloc (CArray a) h).1) = VArr a
  ∧ closed (alloc (CArray a) h).2 (HArr (alloc (CArray a) h).1).
Proof.
  cbn [alloc fst snd deref closed]. unfold read_array. by rewrite lookup_insert_eq.
Qed.

(** ** What a write leaves alone *)

Lemma overwrite_reads (h : heap) l c l' :
  kind_of <$> (h !! l) = Some (kind_of c) →
  (kind_of c ≠ KNodes → read_nodes (<[l := c]> h) l' = read_nodes h l')
  ∧ (kind_of c ≠ KEdges → read_edges (<[l := c]> h) l' = read_edges h l')
  ∧ (kind_of c ≠ KValues → read_values (<[l := c]> h) l' = read_values h l')
  ∧ (kind_of c ≠ KEdgeValues → read_edgeValues (<[l := c]> h) l' = read_edgeValues h l')
  ∧ (kind_of c ≠ KAdjacency → read_adjacency (<[l := c]> h) l' = read_adjacency h l')
  ∧ (kind_of c ≠ KInDegree → read_inDegree (<[l := c]> h) l' = read_inDegree h l')
  ∧ (kind_of c ≠ KQueue → read_queue (<[l := c]> h) l' = read_queue h l').
Proof.
  intros Hk. unfold read_nodes, read_edges, read_values, read_edgeValues, read_adjacency,
    read_inDegree, read_queue.
  destruct (decide (l = l')) as [<-|Hne]; [|by rewrite !lookup_insert_ne by done].
  rewrite lookup_insert_eq. destruct (h !! l) as [c'|]; [|done].
  injection Hk as Hk. by destruct c, c'.
Qed.

Lemma alloc_array_reads (h : heap) a l' :
  read_nodes (alloc (CArray a) h).2 l' = read_nodes h l'
  ∧ read_edges (alloc (CArray a) h).2 l' = read_edges h l'
  ∧ read_values (alloc (CArray a) h).2 l' = read_values h l'
  ∧ read_edgeValues (alloc (CArray a) h).2 l' = read_edgeValues h l'
  ∧ read_adjacency (alloc (CArray a) h).2 l' = read_adjacency h l'
  ∧ read_inDegree (alloc (CArray a) h).2 l' = read_inDegree h l'
  ∧ read_queue (alloc (CArray a) h).2 l' = read_queue h l'.
Proof.
  cbn [alloc snd]. unfold read_nodes, read_edges, read_values, read_edgeValues,
    read_adjacency, read_inDegree, read_queue.
  destruct (decide (fresh_loc h = l')) as [<-|Hne]; [|by rewrite !lookup_insert_ne by done].
  rewrite lookup_insert_eq. pose proof (fresh_loc_fresh h) as Hf.
  apply not_elem_of_dom in Hf. by rewrite Hf.
Qed.

Lemma deref_values_ext (h h' : heap) (m : gmap string hval) :
  map_Forall (λ _ v, deref h' v = deref h v) m → deref h' <$> m = deref h <$> m.
Proof. intros Hm. apply map_fmap_ext. intros k v Hv. by apply (Hm k). Qed.

Lemma deref_edgeValues_ext (h h' : heap) (m : gmap string (option hval)) :
  map_Forall (λ _ o, from_option (λ v, deref h' v = deref h v) True o) m →
  (λ o : option hval, deref h' <$> o) <$> m = (λ o : option hval, deref h <$> o) <$> m.
Proof.
  intros Hm. apply map_fmap_ext. intros k [v|] Hv; [|done]. simpl. f_equal.
  by apply (Hm k _ Hv).
Qed.

(** ** The store after a write or an allocation *)

(** A write of a cell that is no array and no map of values, to an object
    of its kind, changes neither the values nor their being closed. *)
Lemma heap_ok_overwrite (h : heap) l c :
  heap_ok r h → kind_of <$> (h !! l) = Some (kind_of c) →
  (kind_of c = KAdjacency ∨ kind_of c = KInDegree ∨ kind_of c = KQueue) →
  heap_ok r (<[l := c]> h).
Proof.
  intros (K1&K2&K3&K4&K5&K6&K7&Hne&F1&F2&F3) Hk Hc.
  destruct (overwrite_reads h l c (r_prevNodeResults r) Hk) as (_&_&R3&_).
  destruct (overwrite_reads h l c (r_nodeResults r) Hk) as (_&_&R4&_).
  destruct (overwrite_reads h l c (r_edgeResults r) Hk) as (_&_&_&R5&_).
  assert (kind_of c ≠ KValues ∧ kind_of c ≠ KEdgeValues) as [N1 N2]
    by (destruct Hc as [->|[->| ->]]; done).
  unfold heap_ok. rewrite !overwrite_kind, R3, R4, R5 by done.
  repeat split; try done.
  - intros k v Hv. apply overwrite_closed; [done|]. by apply (F1 k).
  - intros k v Hv. apply overwrite_closed; [done|]. by apply (F2 k).
  - intros k [v|] Hv; [|done]. simpl. apply overwrite_closed; [done|]. by apply (F3 k _ Hv).
Qed.

Lemma store_of_overwrite (h : heap) l c :
  heap_ok r h → kind_of <$> (h !! l) = Some (kind_of c) →
  (kind_of c = KAdjacency ∨ kind_of c = KInDegree ∨ kind_of c = KQueue) →
  store_of r queue (<[l := c]> h)
  = mkStore (s_nodes (store_of r queue h)) (s_edges (store_of r queue h))
      (s_prevNodeResults (store_of r queue h)) (s_nodeResults (store_of r queue h))
      (s_edgeResults (store_of r queue h))
      (read_adjacency (<[l := c]> h) (r_adjacency r))
      (read_inDegree (<[l := c]> h) (r_inDegree r))
      (read_queue (<[l := c]> h) queue).
Proof.
  intros Hok Hk Hc.
  assert (kind_of c ≠ KNodes ∧ kind_of c ≠ KEdges ∧ kind_of c ≠ KValues
          ∧ kind_of c ≠ KEdgeValues ∧ kind_of c ≠ KArray) as (N0&N1&N2&N3&N4)
    by (destruct Hc as [->|[->| ->]]; done).
  destruct (overwrite_reads h l c (r_nodes r) Hk) as (R1&_).
  destruct (overwrite_reads h l c (r_edges r) Hk) as (_&R2&_).
  destruct (overwrite_reads h l c (r_prevNodeResults r) Hk) as (_&_&R3&_).
  destruct (overwrite_reads h l c (r_nodeResults r) Hk) as (_&_&R4&_).
  destruct (overwrite_reads h l c (r_edgeResults r) Hk) as (_&_&_&R5&_).
  unfold store_of. cbn. rewrite R1, R2, R3, R4, R5 by done. f_equal.
  - apply deref_values_ext. intros k v _. by apply overwrite_deref.
  - apply deref_values_ext. intros k v _. by apply overwrite_deref.
  - apply deref_edgeValues_ext. intros k [v|] _; [|done]. simpl. by apply overwrite_deref.
Qed.

Lemma store_of_write_adjacency (h : heap) f :
  heap_ok r h →
  store_of r queue (write_adjacency (r_adjacency r) f h)
  = set_adjacency f (store_of r queue h)
  ∧ heap_ok r (write_adjacency (r_adjacency r) f h).
Proof.
  intros Hok. pose proof Hok as (K1&K2&K3&K4&K5&K6&K7&_). unfold write_adjacency.
  set (c := CAdjacency (f (read_adjacency h (r_adjacency r)))).
  assert (kind_of <$> (h !! r_adjacency r) = Some (kind_of c)) as Hk by done.
  split; [|apply heap_ok_overwrite; auto].
  rewrite store_of_overwrite by auto. unfold set_adjacency. f_equal.
  - unfold read_adjacency at 1. by rewrite lookup_insert_eq.
  - by apply (overwrite_reads h _ c (r_inDegree r) Hk).
  - by apply (overwrite_reads h _ c queue Hk).
Qed.

Lemma store_of_write_inDegree (h : heap) f :
  heap_ok r h →
  store_of r queue (write_inDegree (r_inDegree r) f h)
  = set_inDegree f (store_of r queue h)
  ∧ heap_ok r (write_inDegree (r_inDegree r) f h).
Proof.
  intros Hok. pose proof Hok as (K1&K2&K3&K4&K5&K6&K7&_). unfold write_inDegree.
  set (c := CInDegree (f (read_inDegree h (r_inDegree r)))).
  assert (kind_of <$> (h !! r_inDegree r) = Some (kind_of c)) as Hk by done.
  split; [|apply heap_ok_overwrite; auto].
  rewrite store_of_overwrite by auto. unfold set_inDegree. f_equal.
  - by apply (overwrite_reads h _ c (r_adjacency r) Hk).
  - unfold read_inDegree at 1. by rewrite lookup_insert_eq.
  - by apply (overwrite_reads h _ c queue Hk).
Qed.

Lemma store_of_write_queue (h : heap) f :
  heap_ok r h → kind_of <$> (h !! queue) = Some KQueue →
  store_of r queue (write_queue queue f h) = set_queue f (store_of r queue h)
  ∧ heap_ok r (write_queue queue f h)
  ∧ kind_of <$> (write_queue queue f h !! queue) = Some KQueue.
Proof.
  intros Hok Hq. unfold write_queue.
  set (c := CQueue (f (read_queue h queue))).
  assert (kind_of <$> (h !! queue) = Some (kind_of c)) as Hk by done.
  split; [|split; [apply heap_ok_overwrite; auto|by rewrite lookup_insert_eq]].
  rewrite store_of_overwrite by auto. unfold set_queue. f_equal.
  - by apply (overwrite_reads h _ c (r_adjacency r) Hk).
  - by apply (overwrite_reads h _ c (r_inDegree r) Hk).
  - unfold read_queue at 1. by rewrite lookup_insert_eq.
Qed.

Lemma store_of_write_values (h : heap) k v :
  heap_ok r h → closed h v →
  store_of r queue (write_values (r_nodeResults r) <[k := v]> h)
  = set_nodeResults <[k := deref h v]> (store_of r queue h)
  ∧ heap_ok r (write_values (r_nodeResults r) <[k := v]> h).
Proof.
  intros Hok Hv. pose proof Hok as (K1&K2&K3&K4&K5&K6&K7&Hne&F1&F2&F3).
  unfold write_values.
  set (c := CValues (<[k := v]> (read_values h (r_nodeResults r)))).
  assert (kind_of <$> (h !! r_nodeResults r) = Some (kind_of c)) as Hk by done.
  assert (∀ w, deref (<[r_nodeResults r := c]> h) w = deref h w) as Hd
    by (intros w; by apply overwrite_deref).
  assert (read_values (<[r_nodeResults r := c]> h) (r_prevNodeResults r)
          = read_values h (r_prevNodeResults r)) as R3
    by (unfold read_values; by rewrite lookup_insert_ne).
  assert (read_values (<[r_nodeResults r := c]> h) (r_nodeResults r)
          = <[k := v]> (read_values h (r_nodeResults r))) as R4
    by (unfold read_values at 1; by rewrite lookup_insert_eq).
  destruct (overwrite_reads h _ c (r_nodes r) Hk) as (R1&_).
  destruct (overwrite_reads h _ c (r_edges r) Hk) as (_&R2&_).
  destruct (overwrite_reads h _ c (r_edgeResults r) Hk) as (_&_&_&R5&_).
  destruct (overwrite_reads h _ c (r_adjacency r) Hk) as (_&_&_&_&R6&_).
  destruct (overwrite_reads h _ c (r_inDegree r) Hk) as (_&_&_&_&_&R7&_).
  destruct (overwrite_reads h _ c queue Hk) as (_&_&_&_&_&_&R8).
  split.
  - unfold store_of, set_nodeResults. cbn.
    rewrite R1, R2, R3, R4, R5, R6, R7, R8 by done. f_equal.
    + apply deref_values_ext. by intros ? ? _.
    + rewrite fmap_insert. f_equal; [apply Hd|]. apply deref_values_ext. by intros ? ? _.
    + apply deref_edgeValues_ext. intros ? [w|] _; [apply Hd|done].
  - unfold heap_ok. rewrite !overwrite_kind, R3, R4, R5 by done.
    repeat split; try done.
    + intros k' w Hw. apply overwrite_closed; [done|]. by apply (F1 k').
    + apply map_Forall_insert_2.
      * by apply overwrite_closed.
      * intros k' w Hw. apply overwrite_closed; [done|]. by apply (F2 k').
    + intros k' [w|] Hw; [|done]. simpl. apply overwrite_closed; [done|].
      by apply (F3 k' _ Hw).
Qed.

Lemma store_of_write_edgeValues (h : heap) k o :
  heap_ok r h → from_option (closed h) True o →
  store_of r queue (write_edgeValues (r_edgeResults r) <[k := o]> h)
  = set_edgeResults <[k := deref h <$> o]> (store_of r queue h)
  ∧ heap_ok r (write_edgeValues (r_edgeResults r) <[k := o]> h).
Proof.
  intros Hok Ho. pose proof Hok as (K1&K2&K3&K4&K5&K6&K7&Hne&F1&F2&F3).
  unfold write_edgeValues.
  set (c := CEdgeValues (<[k := o]> (read_edgeValues h (r_edgeResults r)))).
  assert (kind_of <$> (h !! r_edgeResults r) = Some (kind_of c)) as Hk by done.
  assert (∀ w, deref (<[r_edgeResults r := c]> h) w = deref h w) as Hd
    by (intros w; by apply overwrite_deref).
  assert (read_edgeValues (<[r_edgeResults r := c]> h) (r_edgeResults r)
          = <[k := o]> (read_edgeValues h (r_edgeResults r))) as R5
    by (unfold read_edgeValues at 1; by rewrite lookup_insert_eq).
  destruct (overwrite_reads h _ c (r_nodes r) Hk) as (R1&_).
  destruct (overwrite_reads h _ c (r_edges r) Hk) as (_&R2&_).
  destruct (overwrite_reads h _ c (r_prevNodeResults r) Hk) as (_&_&R3&_).
  destruct (overwrite_reads h _ c (r_nodeResults r) Hk) as (_&_&R4&_).
  destruct (overwrite_reads h _ c (r_adjacency r) Hk) as (_&_&_&_&R6&_).
  destruct (overwrite_reads h _ c (r_inDegree r) Hk) as (_&_&_&_&_&R7&_).
  destruct (overwrite_reads h _ c queue Hk) as (_&_&_&_&_&_&R8).
  split.
  - unfold store_of, set_edgeResults. cbn.
    rewrite R1, R2, R3, R4, R5, R6, R7, R8 by done. f_equal.
    + apply deref_values_ext. by intros ? ? _.
    + apply deref_values_ext. by intros ? ? _.
    + rewrite fmap_insert. f_equal.
      * destruct o as [w|]; [|done]. simpl. f_equal. apply Hd.
      * apply deref_edgeValues_ext. intros ? [w|] _; [apply Hd|done].
  - unfold heap_ok. rewrite !overwrite_kind, R3, R4, R5 by done.
    repeat split; try done.
    + intros k' w Hw. apply overwrite_closed; [done|]. by apply (F1 k').
    + intros k' w Hw. apply overwrite_closed; [done|]. by apply (F2 k').
    + apply map_Forall_insert_2.
      * destruct o as [w|]; [|done]. simpl. by apply overwrite_closed.
      * intros k' [w|] Hw; [|done]. simpl. apply overwrite_closed; [done|].
        by apply (F3 k' _ Hw).
Qed.

(** The creation of an array. *)
Lemma store_of_alloc_array (h : heap) a :
  heap_ok r h →
  store_of r queue (alloc (CArray a) h).2 = store_of r queue h
  ∧ heap_ok r (alloc (CArray a) h).2.
Proof.
  intros (K1&K2&K3&K4&K5&K6&K7&Hne&F1&F2&F3).
  destruct (alloc_array_reads h a (r_nodes r)) as (R1&_).
  destruct (alloc_array_reads h a (r_edges r)) as (_&R2&_).
  destruct (alloc_array_reads h a (r_prevNodeResults r)) as (_&_&R3&_).
  destruct (alloc_array_reads h a (r_nodeResults r)) as (_&_&R4&_).
  destruct (alloc_array_reads h a (r_edgeResults r)) as (_&_&_&R5&_).
  destruct (alloc_array_reads h a (r_adjacency r)) as (_&_&_&_&R6&_).
  destruct (alloc_array_reads h a (r_inDegree r)) as (_&_&_&_&_&R7&_).
  destruct (alloc_array_reads h a queue) as (_&_&_&_&_&_&R8).
  split.
  - unfold store_of. rewrite R1, R2, R3, R4, R5, R6, R7, R8. f_equal.
    + apply deref_values_ext. intros k v Hv. apply alloc_deref. by apply (F1 k).
    + apply deref_values_ext. intros k v Hv. apply alloc_deref. by apply (F2 k).
    + apply deref_edgeValues_ext. intros k [v|] Hv; [|done]. simpl.
      apply alloc_deref. by apply (F3 k _ Hv).
  - unfold heap_ok. rewrite R3, R4, R5.
    repeat split; try (by apply alloc_kind); try done.
    + intros k v Hv. apply alloc_closed. by apply (F1 k).
    + intros k v Hv. apply alloc_closed. by apply (F2 k).
    + intros k [v|] Hv; [|done]. simpl. apply alloc_closed. by apply (F3 k _ Hv).
Qed.

(** ** The two [forEach] loops *)

Lemma init_nodeH_store (h : heap) node :
  heap_ok r h →
  store_of r queue (init_nodeH r h node) = init_node (store_of r queue h) node
  ∧ heap_ok r (init_nodeH r h node).
Proof.
  intros Hok. unfold init_nodeH, init_node.
  destruct (store_of_write_adjacency h <[id node := []]> Hok) as [E1 Hok1].
  destruct (store_of_write_inDegree _ <[id node := 0]> Hok1) as [E2 Hok2].
  rewrite E1 in E2. destruct (isSource _); [|done].
  destruct (store_of_write_values _ (id node)
              (HStr (str_or (param pattern (params (data node))) "")) Hok2 I) as [E3 Hok3].
  by rewrite E2 in E3.
Qed.

Lemma init_edgeH_store (h : heap) edge :
  heap_ok r h →
  store_of r queue (init_edgeH r h edge) = init_edge (store_of r queue h) edge
  ∧ heap_ok r (init_edgeH r h edge).
Proof.
  intros Hok. unfold init_edgeH, init_edge.
  change (s_adjacency (store_of r queue h)) with (read_adjacency h (r_adjacency r)).
  set (h1 := match read_adjacency h (r_adjacency r) !! source edge with
             | Some targets =>
                 write_adjacency (r_adjacency r) <[source edge := targets ++ [target edge]]> h
             | None => h
             end).
  set (st1 := match read_adjacency h (r_adjacency r) !! source edge with
              | Some targets =>
                  set_adjacency <[source edge := targets ++ [target edge]]>
                    (store_of r queue h)
              | None => store_of r queue h
              end).
  assert (store_of r queue h1 = st1 ∧ heap_ok r h1) as [E1 Hok1].
  { unfold h1, st1. destruct (_ !! source edge); [|done].
    by apply store_of_write_adjacency. }
  change (s_inDegree st1) with (s_inDegree st1).
  replace (read_inDegree h1 (r_inDegree r)) with (s_inDegree st1) by by rewrite <- E1.
  rewrite <- E1. by apply store_of_write_inDegree.
Qed.

Lemma foldl_store {X} (fH : heap → X → heap) (f : Store → X → Store) (xs : list X) h :
  (∀ h x, heap_ok r h →
     store_of r queue (fH h x) = f (store_of r queue h) x ∧ heap_ok r (fH h x)) →
  heap_ok r h →
  store_of r queue (foldl fH h xs) = foldl f (store_of r queue h) xs
  ∧ heap_ok r (foldl fH h xs).
Proof.
  intros Hf. revert h. induction xs as [|x xs IH]; intros h Hok; [done|]. simpl.
  destruct (Hf h x Hok) as [E Hok']. destruct (IH _ Hok') as [E' Hok''].
  by rewrite E' , E.
Qed.

(** The loops create no object. *)
Lemma write_dom (h : heap) l c : is_Some (h !! l) → dom (<[l := c]> h) = dom h.
Proof. apply dom_insert_lookup_L. Qed.

Lemma kind_is_Some (h : heap) l k : kind_of <$> (h !! l) = Some k → is_Some (h !! l).
Proof. by destruct (h !! l). Qed.

Lemma init_nodeH_dom (h : heap) node : heap_ok r h → dom (init_nodeH r h node) = dom h.
Proof.
  intros Hok. pose proof Hok as (K1&K2&K3&K4&K5&K6&K7&_). unfold init_nodeH.
  destruct (store_of_write_adjacency h <[id node := []]> Hok) as [_ Hok1].
  destruct (store_of_write_inDegree _ <[id node := 0]> Hok1) as [_ Hok2].
  assert (dom (write_inDegree (r_inDegree r) <[id node := 0]>
                 (write_adjacency (r_adjacency r) <[id node := []]> h)) = dom h) as D2.
  { unfold write_inDegree at 1. rewrite write_dom.
    - unfold write_adjacency. rewrite write_dom; [done|by eapply kind_is_Some].
    - eapply kind_is_Some. apply Hok1. }
  destruct (isSource _); [|done].
  unfold write_values at 1. rewrite write_dom; [done|].
  eapply kind_is_Some. apply Hok2.
Qed.

Lemma init_edgeH_dom (h : heap) edge : heap_ok r h → dom (init_edgeH r h edge) = dom h.
Proof.
  intros Hok. pose proof Hok as (K1&K2&K3&K4&K5&K6&K7&_). unfold init_edgeH.
  set (h1 := match read_adjacency h (r_adjacency r) !! source edge with
             | Some targets =>
                 write_adjacency (r_adjacency r) <[source edge := targets ++ [target edge]]> h
             | None => h
             end).
  assert (dom h1 = dom h ∧ heap_ok r h1) as [D1 Hok1].
  { unfold h1. destruct (_ !! source edge); [|done]. split.
    - unfold write_adjacency. rewrite write_dom; [done|by eapply kind_is_Some].
    - by apply store_of_write_adjacency. }
  unfold write_inDegree. rewrite write_dom; [done|]. eapply kind_is_Some. apply Hok1.
Qed.

Lemma foldl_dom {X} (fH : heap → X → heap) (xs : list X) h :
  (∀ h x, heap_ok r h → dom (fH h x) = dom h ∧ heap_ok r (fH h x)) →
  heap_ok r h → dom (foldl fH h xs) = dom h.
Proof.
  intros Hf. revert h. induction xs as [|x xs IH]; intros h Hok; [done|]. simpl.
  destruct (Hf h x Hok) as [E Hok']. by rewrite IH.
Qed.

End Refine.

(** ** The run on the heap computes the values of the run on the store *)

Section Simulation.

Context (RE : RegExpEngine) (r : Refs) (queue : loc).

Lemma keeps_refl (h : heap) : keeps h h.
Proof. by intros l k Hk. Qed.

Lemma keeps_trans (h1 h2 h3 : heap) : keeps h1 h2 → keeps h2 h3 → keeps h1 h3.
Proof.
  intros H12 H23 l k Hk. destruct (H12 l k Hk) as [Hk2 Ha2].
  destruct (H23 l k Hk2) as [Hk3 Ha3]. split; [done|].
  intros ->. by rewrite Ha3, Ha2.
Qed.

Lemma keeps_closed (h h' : heap) v :
  keeps h h' → closed h v → closed h' v ∧ deref h' v = deref h v.
Proof.
  intros Hk. destruct v as [s|a]; [done|]. cbn. intros Ha.
  destruct (Hk a KArray Ha) as [Hk' Heq]. split; [done|].
  unfold read_array. by rewrite Heq.
Qed.

Lemma keeps_overwrite (h : heap) l c :
  kind_of <$> (h !! l) = Some (kind_of c) → kind_of c ≠ KArray → keeps h (<[l := c]> h).
Proof.
  intros Hl Hc l' k Hk. rewrite (overwrite_kind h l c l' Hl). split; [done|].
  intros ->. destruct (decide (l = l')) as [->|Hne].
  - rewrite Hl in Hk. congruence.
  - by rewrite lookup_insert_ne.
Qed.

Lemma keeps_alloc (h : heap) c : keeps h (alloc c h).2.
Proof.
  intros l k Hk. pose proof (fresh_loc_fresh h) as Hfresh. cbn [alloc snd].
  assert (fresh_loc h ≠ l) as Hne.
  { intros <-. apply Hfresh, elem_of_dom. by destruct (h !! fresh_loc h). }
  by rewrite lookup_insert_ne.
Qed.

Lemma keeps_write_values (h : heap) l f :
  kind_of <$> (h !! l) = Some KValues → keeps h (write_values l f h).
Proof. intros Hl. by apply keeps_overwrite. Qed.

Lemma keeps_write_edgeValues (h : heap) l f :
  kind_of <$> (h !! l) = Some KEdgeValues → keeps h (write_edgeValues l f h).
Proof. intros Hl. by apply keeps_overwrite. Qed.

Lemma keeps_write_adjacency (h : heap) l f :
  kind_of <$> (h !! l) = Some KAdjacency → keeps h (write_adjacency l f h).
Proof. intros Hl. by apply keeps_overwrite. Qed.

Lemma keeps_write_inDegree (h : heap) l f :
  kind_of <$> (h !! l) = Some KInDegree → keeps h (write_inDegree l f h).
Proof. intros Hl. by apply keeps_overwrite. Qed.

Lemma keeps_write_queue (h : heap) l f :
  kind_of <$> (h !! l) = Some KQueue → keeps h (write_queue l f h).
Proof. intros Hl. by apply keeps_overwrite. Qed.

Lemma loop_ok_keeps (h h' : heap) :
  loop_ok r queue h → keeps h h' → heap_ok r h' → loop_ok r queue h'.
Proof. intros [_ Hq] Hk Hok. split; [done|]. by apply (Hk queue KQueue Hq). Qed.

(** *** Values *)

Lemma new_value_store (h : heap) v :
  heap_ok r h →
  deref (new_value v h).2 (new_value v h).1 = v
  ∧ closed (new_value v h).2 (new_value v h).1
  ∧ store_of r queue (new_value v h).2 = store_of r queue h
  ∧ heap_ok r (new_value v h).2
  ∧ keeps h (new_value v h).2.
Proof.
  intros Hok. destruct v as [s|a].
  - cbn. split_and!; try done; apply keeps_refl.
  - change (new_value (VArr a) h) with (HArr (alloc (CArray a) h).1, (alloc (CArray a) h).2).
    cbn [fst snd]. destruct (alloc_array_new h a) as [E C].
    destruct (store_of_alloc_array r queue h a Hok) as [E' Hok'].
    split_and!; try done. apply keeps_alloc.
Qed.

Lemma deref_resolved (h : heap) (m : gmap string hval) (es : list AppEdge) :
  deref h <$> omap (λ e, m !! source e) es = resolved_inputs (deref h <$> m) es.
Proof.
  unfold resolved_inputs. induction es as [|e es IH]; [done|]. cbn.
  rewrite lookup_fmap. destruct (m !! source e); cbn; by rewrite IH.
Qed.

Lemma resolved_closed (h : heap) (m : gmap string hval) (es : list AppEdge) :
  map_Forall (λ _ v, closed h v) m → Forall (closed h) (omap (λ e, m !! source e) es).
Proof.
  intros Hm. induction es as [|e es IH]; [constructor|]. cbn.
  destruct (m !! source e) eqn:E; cbn; [|done]. constructor; [|done]. by eapply Hm.
Qed.

Lemma fan_inH_store (h : heap) (inputs : list hval) :
  heap_ok r h → Forall (closed h) inputs →
  deref (fan_inH h inputs).2 <$> (fan_inH h inputs).1 = fan_in (deref h <$> inputs)
  ∧ from_option (closed (fan_inH h inputs).2) True (fan_inH h inputs).1
  ∧ store_of r queue (fan_inH h inputs).2 = store_of r queue h
  ∧ heap_ok r (fan_inH h inputs).2
  ∧ keeps h (fan_inH h inputs).2.
Proof.
  intros Hok Hin. destruct inputs as [|i [|j inputs]].
  - cbn. split_and!; try done; apply keeps_refl.
  - cbn. apply Forall_cons in Hin as [Hi _]. split_and!; try done; apply keeps_refl.
  - set (vs := deref h <$> i :: j :: inputs).
    set (a := if forallb isArray vs then flat vs
              else flat (map (λ i, if isArray i then i else VArr [String_of i]) vs)).
    change (fan_inH h (i :: j :: inputs))
      with (Some (HArr (alloc (CArray a) h).1), (alloc (CArray a) h).2).
    cbn [fst snd]. destruct (alloc_array_new h a) as [E C].
    destruct (store_of_alloc_array r queue h a Hok) as [E' Hok'].
    split_and!; try done; [|apply keeps_alloc].
    cbn [fmap option_fmap option_map]. rewrite E.
    change (fan_in vs = Some (VArr a)) || idtac.
    unfold a. subst vs. cbn. by destruct (isArray (deref h i) && _).
Qed.

(** *** The input of a node *)

Lemma foldl_sim {X} (P : heap → Prop) (fH : heap → X → heap) (f : Store → X → Store)
    (xs : list X) h :
  (∀ h x, P h → store_of r queue (fH h x) = f (store_of r queue h) x
               ∧ P (fH h x) ∧ keeps h (fH h x)) →
  P h →
  store_of r queue (foldl fH h xs) = foldl f (store_of r queue h) xs
  ∧ P (foldl fH h xs) ∧ keeps h (foldl fH h xs).
Proof.
  intros Hf. revert h. induction xs as [|x xs IH]; intros h Hok.
  { split_and!; try done; try apply keeps_refl. }
  simpl. destruct (Hf h x Hok) as (E & Hok' & K).
  destruct (IH _ Hok') as (E' & Hok'' & K').
  split_and!; [by rewrite E', E|done|by eapply keeps_trans].
Qed.

Lemma record_edge_store (h : heap) (e : AppEdge) :
  heap_ok r h →
  store_of r queue
    (write_edgeValues (r_edgeResults r)
       <[edge_id e := read_values h (r_nodeResults r) !! source e]> h)
  = set_edgeResults <[edge_id e := s_nodeResults (store_of r queue h) !! source e]>
      (store_of r queue h)
  ∧ heap_ok r (write_edgeValues (r_edgeResults r)
       <[edge_id e := read_values h (r_nodeResults r) !! source e]> h)
  ∧ keeps h (write_edgeValues (r_edgeResults r)
       <[edge_id e := read_values h (r_nodeResults r) !! source e]> h).
Proof.
  intros Hok. pose proof Hok as (K1&K2&K3&K4&K5&K6&K7&Hne&C1&C2&C3).
  assert (from_option (closed h) True (read_values h (r_nodeResults r) !! source e)) as Hc.
  { destruct (_ !! source e) eqn:E; [|done]. by eapply C2. }
  destruct (store_of_write_edgeValues r queue h (edge_id e) _ Hok Hc) as [E Hok'].
  split_and!; [|done|by apply keeps_write_edgeValues].
  rewrite E. cbn [store_of s_nodeResults]. by rewrite lookup_fmap.
Qed.

Lemma gatherH_store (h : heap) (node : AppNode) :
  heap_ok r h →
  deref (gatherH r h node).2 <$> (gatherH r h node).1 = (gather (store_of r queue h) node).1
  ∧ from_option (closed (gatherH r h node).2) True (gatherH r h node).1
  ∧ store_of r queue (gatherH r h node).2 = (gather (store_of r queue h) node).2
  ∧ heap_ok r (gatherH r h node).2
  ∧ keeps h (gatherH r h node).2.
Proof.
  intros Hok. pose proof Hok as (K1&K2&K3&K4&K5&K6&K7&Hne&C1&C2&C3).
  unfold gatherH, gather. cbn [store_of s_edges s_nodeResults].
  destruct (bool_decide _).
  - set (incoming := incoming_edges (read_edges h (r_edges r)) (id node)).
    set (inputs := omap (λ e, read_values h (r_nodeResults r) !! source e) incoming).
    pose proof (resolved_closed h _ incoming C2) as Hin. fold inputs in Hin.
    destruct (fan_inH_store h inputs Hok Hin) as (E & C & S & Hok1 & Kp1).
    destruct (fan_inH h inputs) as [o h1]. cbn [fst snd] in *.
    destruct (foldl_sim (heap_ok r)
                (λ h e, write_edgeValues (r_edgeResults r)
                          <[edge_id e := read_values h (r_nodeResults r) !! source e]> h)
                (λ st e, set_edgeResults <[edge_id e := s_nodeResults st !! source e]> st)
                incoming h1 record_edge_store Hok1) as (S2 & Hok2 & Kp2).
    split_and!.
    + rewrite <- (deref_resolved h). fold inputs. rewrite <- E.
      destruct o as [v|]; [|done]. cbn. f_equal. by apply keeps_closed.
    + destruct o as [v|]; [|done]. cbn. by apply (keeps_closed h1).
    + rewrite S2, S. done.
    + done.
    + by eapply keeps_trans.
  - destruct (isSource _); cbn [fst snd].
    + split_and!; try done; try apply keeps_refl.
      * by rewrite lookup_fmap.
      * destruct (_ !! id node) eqn:E; [|done]. by eapply C2.
    + split_and!; try done; try apply keeps_refl.
Qed.

(** *** The dispatch on the node type *)

Lemma prev_outputH_store (h : heap) (nodeId : string) :
  heap_ok r h →
  deref h (prev_outputH r h nodeId)
  = prev_output (s_prevNodeResults (store_of r queue h)) nodeId
  ∧ closed h (prev_outputH r h nodeId).
Proof.
  intros Hok. pose proof Hok as (K1&K2&K3&K4&K5&K6&K7&Hne&C1&C2&C3).
  unfold prev_outputH, prev_output. cbn [store_of s_prevNodeResults].
  rewrite lookup_fmap. destruct (_ !! nodeId) as [[s|a]|] eqn:E; cbn; try done.
  split; [done|]. by apply (C1 _ _ E).
Qed.

Lemma process_nodeH_store (h : heap) (node : AppNode) (input : hval) :
  heap_ok r h → closed h input →
  match process_nodeH RE r h node input with
  | Ok (out, h') =>
      process_node RE (s_prevNodeResults (store_of r queue h)) node (deref h input)
      = Ok (deref h' out)
      ∧ closed h' out ∧ store_of r queue h' = store_of r queue h
      ∧ heap_ok r h' ∧ keeps h h'
  | Throw =>
      process_node RE (s_prevNodeResults (store_of r queue h)) node (deref h input) = Throw
  | Timeout =>
      process_node RE (s_prevNodeResults (store_of r queue h)) node (deref h input) = Timeout
  end.
Proof.
  intros Hok Hin. unfold process_nodeH, process_node.
  destruct (prev_outputH_store h (id node) Hok) as [Ep Cp].
  destruct (type (data node)).
  - split_and!; try done; apply keeps_refl.
  - cbn zeta. destruct (processData RE (deref h input) _) as [out| |]; cbn [obind]; try done.
    destruct (new_value_store h out Hok) as (E & C & S & Hok' & K).
    destruct (new_value out h) as [o h']. cbn [fst snd] in *. by rewrite E.
  - split_and!; try done; apply keeps_refl.
  - split_and!; try done; apply keeps_refl.
  - cbn zeta. destruct (processData RE (deref h input) _) as [out| |]; cbn [obind]; try done.
    destruct (new_value_store h out Hok) as (E & C & S & Hok' & K).
    destruct (new_value out h) as [o h']. cbn [fst snd] in *. by rewrite E.
  - split_and!; try done; apply keeps_refl.
  - destruct (processBatch (deref h input) _) as [batches| |]; cbn [obind]; try done.
    destruct (new_value_store h (VArr batches) Hok) as (E & C & S & Hok' & K).
    destruct (new_value (VArr batches) h) as [o h']. cbn [fst snd] in *. by rewrite E.
  - cbn zeta. unfold sequence_step. rewrite <- Ep.
    destruct (bool_decide _); [destruct (JsString.includes _ _)|];
      split_and!; try done; apply keeps_refl.
Qed.
(** *** The loop *)

Lemma triggerH_store (h : heap) (neighborId : string) :
  loop_ok r queue h →
  store_of r queue (triggerH r queue h neighborId) = trigger (store_of r queue h) neighborId
  ∧ loop_ok r queue (triggerH r queue h neighborId)
  ∧ keeps h (triggerH r queue h neighborId).
Proof.
  intros [Hok Hq]. pose proof Hok as (K1&K2&K3&K4&K5&K6&K7&_).
  unfold triggerH, trigger.
  destruct (store_of_write_inDegree r queue h (alter (λ n, n - 1) neighborId) Hok)
    as [E1 Hok1].
  pose proof (keeps_write_inDegree h (r_inDegree r) (alter (λ n, n - 1) neighborId) K7)
    as Kp1.
  set (h1 := write_inDegree (r_inDegree r) (alter (λ n, n - 1) neighborId) h) in *.
  assert (kind_of <$> (h1 !! queue) = Some KQueue) as Hq1 by apply (Kp1 _ _ Hq).
  rewrite <- E1.
  change (s_inDegree (store_of r queue h1)) with (read_inDegree h1 (r_inDegree r)).
  destruct (bool_decide _).
  - destruct (store_of_write_queue r queue h1 (λ q, q ++ [neighborId]) Hok1 Hq1)
      as (E2 & Hok2 & Hq2).
    split_and!; [done|by split|]. eapply keeps_trans; [done|]. by apply keeps_write_queue.
  - split_and!; [done|by split|done].
Qed.

Lemma neighborsH_store (h : heap) (nodeId : string) :
  loop_ok r queue h →
  match s_adjacency (store_of r queue h) !! nodeId with
  | Some neighbors => foldl trigger (store_of r queue h) neighbors
  | None => store_of r queue h
  end
  = store_of r queue
      match read_adjacency h (r_adjacency r) !! nodeId with
      | Some neighbors => foldl (triggerH r queue) h neighbors
      | None => h
      end
  ∧ loop_ok r queue
      match read_adjacency h (r_adjacency r) !! nodeId with
      | Some neighbors => foldl (triggerH r queue) h neighbors
      | None => h
      end.
Proof.
  intros Hlo.
  change (s_adjacency (store_of r queue h)) with (read_adjacency h (r_adjacency r)).
  destruct (_ !! nodeId) as [neighbors|]; [|done].
  destruct (foldl_sim (loop_ok r queue) (triggerH r queue) trigger neighbors h
              triggerH_store Hlo) as (E & Hlo' & _).
  by rewrite E.
Qed.

Lemma stepH_store (h : heap) :
  loop_ok r queue h →
  step RE (store_of r queue h) = outcome_of r queue (stepH RE r queue h)
  ∧ match stepH RE r queue h with Ok h' => loop_ok r queue h' | _ => True end.
Proof.
  intros [Hok Hq]. unfold stepH, step.
  change (s_queue (store_of r queue h)) with (read_queue h queue).
  destruct (read_queue h queue) as [|nodeId q] eqn:Eq; [by split|].
  destruct (store_of_write_queue r queue h (drop 1) Hok Hq) as (E1 & Hok1 & Hq1).
  rewrite <- E1. set (h1 := write_queue queue (drop 1) h) in *.
  change (s_nodes (store_of r queue h1)) with (read_nodes h1 (r_nodes r)).
  destruct (List.find _ _) as [node|]; [|by split].
  destruct (gatherH_store h1 node Hok1) as (Eg & Cg & Sg & Hok2 & Kp2).
  destruct (gatherH r h1 node) as [inputData h2].
  destruct (gather (store_of r queue h1) node) as [iv st2].
  cbn [fst snd] in *. subst st2 iv.
  assert (kind_of <$> (h2 !! queue) = Some KQueue) as Hq2 by apply (Kp2 _ _ Hq1).
  destruct inputData as [input|]; cbn [fmap option_fmap option_map].
  - pose proof (process_nodeH_store h2 node input Hok2 Cg) as Hp.
    destruct (process_nodeH RE r h2 node input) as [[out h3]| |].
    + destruct Hp as (Ep & Co & S3 & Hok3 & Kp3). rewrite Ep. cbn [obind].
      destruct (store_of_write_values r queue h3 (id node) out Hok3 Co) as [E4 Hok4].
      rewrite <- S3, <- E4.
      assert (loop_ok r queue (write_values (r_nodeResults r) <[id node := out]> h3))
        as Hlo4.
      { split; [done|]. pose proof Hok3 as (_&_&_&K4&_).
        apply (keeps_write_values h3 _ _ K4), Kp3, Hq2. }
      destruct (neighborsH_store _ nodeId Hlo4) as [E5 Hlo5]. by rewrite E5.
    + by rewrite Hp.
    + by rewrite Hp.
  - cbn [obind]. destruct (neighborsH_store h2 nodeId (conj Hok2 Hq2)) as [E5 Hlo5].
    by rewrite E5.
Qed.

Lemma kahnH_store (fuel : nat) (h : heap) :
  loop_ok r queue h →
  kahn RE fuel (store_of r queue h) = outcome_of r queue (kahnH RE r queue fuel h).
Proof.
  revert h. induction fuel as [|fuel IH]; intros h Hlo; cbn [kahn kahnH];
    change (s_queue (store_of r queue h)) with (read_queue h queue);
    destruct (read_queue h queue); try done.
  destruct (stepH_store h Hlo) as [Es Hl]. rewrite Es.
  destruct (stepH RE r queue h); cbn; [by apply IH|done|done].
Qed.
End Simulation.

(** *** The objects of a call *)

Lemma alloc_spec (h : heap) c :
  (alloc c h).2 !! (alloc c h).1 = Some c
  ∧ ((alloc c h).1 ∉ dom h)
  ∧ (∀ l, is_Some (h !! l) → (alloc c h).2 !! l = h !! l)
  ∧ dom (alloc c h).2 = {[(alloc c h).1]} ∪ dom h.
Proof.
  pose proof (fresh_loc_fresh h) as Hfresh. cbn [alloc fst snd]. split_and!.
  - by rewrite lookup_insert_eq.
  - done.
  - intros l Hl. rewrite lookup_insert_ne; [done|]. intros <-.
    by apply Hfresh, elem_of_dom.
  - by rewrite dom_insert_L.
Qed.

Lemma old_trans (h h' h'' : heap) :
  (∀ l, is_Some (h !! l) → h' !! l = h !! l) →
  (∀ l, is_Some (h' !! l) → h'' !! l = h' !! l) →
  ∀ l, is_Some (h !! l) → h'' !! l = h !! l.
Proof. intros H1 H2 l Hl. rewrite H2; [by apply H1|]. by rewrite H1. Qed.

Lemma create_objects_store (h0 : heap) (nodes edges prev : loc) :
  arguments_ok h0 nodes edges prev →
  heap_ok (create_objects nodes edges prev h0).1 (create_objects nodes edges prev h0).2
  ∧ ∀ q, q ∉ dom (create_objects nodes edges prev h0).2 →
      store_of (create_objects nodes edges prev h0).1 q (create_objects nodes edges prev h0).2
      = mkStore (read_nodes h0 nodes) (read_edges h0 edges)
          (deref h0 <$> read_values h0 prev) ∅ ∅ ∅ ∅ [].
Proof.
  intros (Kn & Ke & Kp & Cp). unfold create_objects.
  destruct (alloc_spec h0 (CValues ∅)) as (N1 & F1 & O1 & _).
  pose proof (keeps_alloc h0 (CValues ∅)) as Kp1.
  destruct (alloc (CValues ∅) h0) as [l1 h1]. cbn [fst snd] in *.
  destruct (alloc_spec h1 (CEdgeValues ∅)) as (N2 & F2 & O2 & _).
  pose proof (keeps_alloc h1 (CEdgeValues ∅)) as Kp2.
  destruct (alloc (CEdgeValues ∅) h1) as [l2 h2]. cbn [fst snd] in *.
  destruct (alloc_spec h2 (CAdjacency ∅)) as (N3 & F3 & O3 & _).
  pose proof (keeps_alloc h2 (CAdjacency ∅)) as Kp3.
  destruct (alloc (CAdjacency ∅) h2) as [l3 h3]. cbn [fst snd] in *.
  destruct (alloc_spec h3 (CInDegree ∅)) as (N4 & F4 & O4 & _).
  pose proof (keeps_alloc h3 (CInDegree ∅)) as Kp4.
  destruct (alloc (CInDegree ∅) h3) as [l4 h4]. cbn [fst snd] in *.
  assert (keeps h0 h4) as Kp04 by (do 3 (eapply keeps_trans; [|done]); done).
  assert (∀ l, is_Some (h0 !! l) → h4 !! l = h0 !! l) as O04.
  { exact (old_trans _ _ _ (old_trans _ _ _ (old_trans _ _ _ O1 O2) O3) O4). }
  assert (h4 !! l1 = Some (CValues ∅)) as L1.
  { rewrite (old_trans _ _ _ (old_trans _ _ _ O2 O3) O4); [done|by rewrite N1]. }
  assert (h4 !! l2 = Some (CEdgeValues ∅)) as L2.
  { rewrite (old_trans _ _ _ O3 O4); [done|by rewrite N2]. }
  assert (h4 !! l3 = Some (CAdjacency ∅)) as L3.
  { rewrite O4; [done|by rewrite N3]. }
  assert (is_Some (h0 !! nodes)) as Sn by (by destruct (h0 !! nodes)).
  assert (is_Some (h0 !! edges)) as Se by (by destruct (h0 !! edges)).
  assert (is_Some (h0 !! prev)) as Sp by (by destruct (h0 !! prev)).
  assert (read_values h4 prev = read_values h0 prev) as Rp.
  { unfold read_values. by rewrite O04. }
  assert (read_values h4 l1 = ∅) as R1 by (unfold read_values; by rewrite L1).
  assert (read_edgeValues h4 l2 = ∅) as R2 by (unfold read_edgeValues; by rewrite L2).
  split.
  - unfold heap_ok. cbn [r_nodes r_edges r_prevNodeResults r_nodeResults r_edgeResults
                         r_adjacency r_inDegree].
    rewrite !O04, L1, L2, L3, N4, Rp, R1, R2 by done.
    split_and!; try done.
    + intros ->. by apply F1, elem_of_dom.
    + intros k v Hk. by apply (keeps_closed h0 h4), (Cp k v).
  - intros q Hq. apply not_elem_of_dom in Hq.
    unfold store_of. cbn [r_nodes r_edges r_prevNodeResults r_nodeResults r_edgeResults
                          r_adjacency r_inDegree].
    rewrite Rp, R1, R2. unfold read_nodes, read_edges, read_adjacency, read_inDegree,
      read_queue. rewrite !O04, L3, N4, Hq by done.
    rewrite !fmap_empty. f_equal.
    apply deref_values_ext. intros k v Hk. by apply (keeps_closed h0 h4), (Cp k v).
Qed.

Lemma store_of_alloc (r : Refs) (q : loc) (h : heap) c :
  heap_ok r h →
  heap_ok r (alloc c h).2
  ∧ store_of r q (alloc c h).2
    = mkStore (s_nodes (store_of r q h)) (s_edges (store_of r q h))
        (s_prevNodeResults (store_of r q h)) (s_nodeResults (store_of r q h))
        (s_edgeResults (store_of r q h)) (s_adjacency (store_of r q h))
        (s_inDegree (store_of r q h)) (read_queue (alloc c h).2 q).
Proof.
  intros Hok. pose proof Hok as (K1&K2&K3&K4&K5&K6&K7&Hne&C1&C2&C3).
  destruct (alloc_spec h c) as (_ & _ & O & _).
  pose proof (keeps_alloc h c) as Kp.
  set (h' := (alloc c h).2) in *.
  assert (∀ l k, kind_of <$> (h !! l) = Some k → h' !! l = h !! l) as O'.
  { intros l k Hk. apply O. by destruct (h !! l). }
  assert (read_values h' (r_prevNodeResults r) = read_values h (r_prevNodeResults r)) as Rp.
  { unfold read_values. by rewrite (O' _ _ K3). }
  assert (read_values h' (r_nodeResults r) = read_values h (r_nodeResults r)) as Rn.
  { unfold read_values. by rewrite (O' _ _ K4). }
  assert (read_edgeValues h' (r_edgeResults r) = read_edgeValues h (r_edgeResults r)) as Re.
  { unfold read_edgeValues. by rewrite (O' _ _ K5). }
  split.
  - unfold heap_ok. rewrite Rp, Rn, Re.
    rewrite (O' _ _ K1), (O' _ _ K2), (O' _ _ K3), (O' _ _ K4), (O' _ _ K5), (O' _ _ K6),
      (O' _ _ K7).
    split_and!; try done.
    + intros k v Hk. by apply (keeps_closed h h'), (C1 k v).
    + intros k v Hk. by apply (keeps_closed h h'), (C2 k v).
    + intros k [v|] Hk; [|done]. apply (keeps_closed h h'); [done|]. apply (C3 k _ Hk).
  - unfold store_of. cbn [s_nodes s_edges s_prevNodeResults s_nodeResults s_edgeResults
                          s_adjacency s_inDegree].
    rewrite Rp, Rn, Re. unfold read_nodes, read_edges, read_adjacency, read_inDegree.
    rewrite (O' _ _ K1), (O' _ _ K2), (O' _ _ K6), (O' _ _ K7). f_equal.
    + apply deref_values_ext. intros k v Hk. by apply (keeps_closed h h'), (C1 k v).
    + apply deref_values_ext. intros k v Hk. by apply (keeps_closed h h'), (C2 k v).
    + apply deref_edgeValues_ext. intros k [v|] Hk; [|done]. cbn.
      apply (keeps_closed h h'); [done|]. apply (C3 k _ Hk).
Qed.

Lemma setupH_store (r : Refs) (h : heap) :
  heap_ok r h →
  ((setupH r h).1 ∉ dom h)
  ∧ loop_ok r (setupH r h).1 (setupH r h).2
  ∧ store_of r (setupH r h).1 (setupH r h).2
    = (let st := store_of r (setupH r h).1 h in
       let st := foldl init_node st (s_nodes st) in
       let st := foldl init_edge st (s_edges st) in
       set_queue (λ _, initial_queue st) st).
Proof.
  intros Hok. unfold setupH.
  set (h1 := foldl (init_nodeH r) h (read_nodes h (r_nodes r))).
  assert (∀ q, store_of r q h1 = foldl init_node (store_of r q h) (read_nodes h (r_nodes r))
               ∧ heap_ok r h1) as H1.
  { intros q. apply foldl_store; [apply init_nodeH_store|done]. }
  assert (dom h1 = dom h) as D1.
  { apply (foldl_dom r); [|done]. intros h' x Hh. split.
    - by apply (init_nodeH_dom r 0%nat).
    - by apply (init_nodeH_store r 0%nat). }
  destruct (H1 0%nat) as [_ Hok1].
  set (h2 := foldl (init_edgeH r) h1 (read_edges h1 (r_edges r))).
  assert (∀ q, store_of r q h2
               = foldl init_edge (store_of r q h1) (read_edges h1 (r_edges r))
               ∧ heap_ok r h2) as H2.
  { intros q. apply foldl_store; [apply init_edgeH_store|done]. }
  assert (dom h2 = dom h1) as D2.
  { apply (foldl_dom r); [|done]. intros h' x Hh. split.
    - by apply (init_edgeH_dom r 0%nat).
    - by apply (init_edgeH_store r 0%nat). }
  destruct (H2 0%nat) as [_ Hok2].
  destruct (alloc_spec h2 (CQueue (initial_queueH r h2))) as (N & F & _ & _).
  destruct (store_of_alloc r (alloc (CQueue (initial_queueH r h2)) h2).1 h2
              (CQueue (initial_queueH r h2)) Hok2) as [Hok3 S3].
  set (q := (alloc (CQueue (initial_queueH r h2)) h2).1) in *.
  set (h3 := (alloc (CQueue (initial_queueH r h2)) h2).2) in *.
  split_and!.
  - by rewrite D2, D1 in F.
  - split; [done|]. by rewrite N.
  - rewrite S3. destruct (H2 q) as [E2 _]. destruct (H1 q) as [E1 _].
    cbn zeta. change (s_nodes (store_of r q h)) with (read_nodes h (r_nodes r)).
    rewrite <- E1.
    change (s_edges (store_of r q h1)) with (read_edges h1 (r_edges r)).
    rewrite <- E2. unfold set_queue, read_queue. rewrite N. done.
Qed.

(** The call on the heap computes the result of the call on the values the
    heap stands for: the same outcome, and for a call that returns the same
    two maps of values. *)
Lemma executeFlowH_values (RE : RegExpEngine) (h0 : heap) (nodes edges prev : loc) :
  arguments_ok h0 nodes edges prev →
  executeFlow RE (read_nodes h0 nodes) (read_edges h0 edges)
    (deref h0 <$> read_values h0 prev)
  = result_of (executeFlowH RE h0 nodes edges prev).
Proof.
  intros Hargs. unfold executeFlowH.
  destruct (create_objects_store h0 nodes edges prev Hargs) as [Hok1 S1].
  destruct (create_objects nodes edges prev h0) as [r h1] eqn:Ec. cbn [fst snd] in *.
  destruct (create_objects_inv _ _ _ _ _ _ Ec) as (_ & Rn & Re & Rp & _).
  destruct (setupH_store r h1 Hok1) as (Fq & Hlo & S2).
  destruct (setupH r h1) as [q h2]. cbn [fst snd] in *.
  rewrite (S1 q Fq) in S2.
  assert (store_of r q h2 = setup (read_nodes h0 nodes) (read_edges h0 edges)
                              (deref h0 <$> read_values h0 prev)) as S by done.
  assert (read_nodes h2 nodes = read_nodes h0 nodes) as En.
  { rewrite <- Rn in *. change (read_nodes h2 (r_nodes r)) with (s_nodes (store_of r q h2)).
    rewrite S. exact (proj1 (setup_frame _ _ _)). }
  assert (read_edges h2 edges = read_edges h0 edges) as Ee.
  { rewrite <- Re in *. change (read_edges h2 (r_edges r)) with (s_edges (store_of r q h2)).
    rewrite S. exact (proj1 (proj2 (setup_frame _ _ _))). }
  rewrite En, Ee. unfold executeFlow, executeFlow_store. rewrite <- S.
  rewrite (kahnH_store RE r q _ h2 Hlo).
  by destruct (kahnH RE r q _ h2).
Qed.

(** On the example heap: the call returns, and its two maps stand for the
    result of the call on values. *)
Lemma executeFlowH_values_example :
  arguments_ok example_heap 1 2 3
  ∧ executeFlow plain_engine (read_nodes example_heap 1) (read_edges example_heap 2)
      (deref example_heap <$> read_values example_heap 3)
    = result_of (executeFlowH plain_engine example_heap 1 2 3)
  ∧ ∃ res, executeFlow plain_engine (read_nodes example_heap 1) (read_edges example_heap 2)
             (deref example_heap <$> read_values example_heap 3) = Ok res
           ∧ nodeResults res !! "2" = Some (VArr ["A"])
           ∧ nodeResults res !! "3" = Some (VArr ["XBYA"]).
Proof.
  assert (arguments_ok example_heap 1 2 3) as Hargs.
  { split_and!; [done..|]. intros k v.
    change (read_values example_heap 3) with ({["2" := HArr 4%nat]} : gmap string hval).
    intros [<- <-]%lookup_singleton_Some. done. }
  split_and!; [done|by apply executeFlowH_values|].
  eexists. split_and!; [vm_compute; reflexivity|done..].
Qed.
